(** * SPH fluid simulator: numerical core

    A shallow embedding of the simulation engine of the fluid simulator:
    the SPH particle system ([ParticleSystem]: kernels, density pass, force
    pass, integration, boundary and rigid-body passes) and the rigid bodies
    ([RigidBody]: per-step update, pairwise collision resolution), together
    with the part of the frame loop ([FluidSimulator.animate]) that drives
    the rigid-rigid correction passes.

    Numbers.  JavaScript numbers are idealised as real numbers: [+ - * /],
    [Math.sqrt], [Math.abs], [Math.min], [Math.max], [Math.pow] with a
    literal exponent and [Math.PI] are the operations of [R]; the rounding
    of doubles is not modelled.  Division by zero is total in [R]; a
    statement whose conclusion depends on a quotient carries the hypothesis
    that keeps the divisor away from zero.

    Arrays.  A [Float32Array] is a [list R] read with [!!!] and written with
    [<[i:=v]>]; a write past the end is ignored by both.  The passes write
    the exact value; the rounding of a slot to single precision is [fround],
    and [Stored] is the rigid coupling pass with every write rounded, for
    the statements that depend on the value a slot holds.

    Around the engine.  The initial particle block ([initParticleArrays]),
    the particle colours ([updateColors]), the object methods of
    [FluidSimulator] ([dropRigidBody], the object sliders, [clearObjects],
    [reset], [setDensity]) and the orbit controls are embedded as well.
    [Math.random] is a sequence of reals handed to the function that draws
    from it; the document, the meshes and the renderer are left out. *)

From Stdlib Require Import Reals Lra Lia Psatz.
From stdpp Require Import base list.

Open Scope R_scope.

(** ** JavaScript numeric primitives *)

#[global] Instance R_inhabited : Inhabited R := populate 0.

Definition Rltb (x y : R) : bool := if Rlt_dec x y then true else false.
Definition Rleb (x y : R) : bool := if Rle_dec x y then true else false.
Definition Rgtb (x y : R) : bool := Rltb y x.
Definition Rgeb (x y : R) : bool := Rleb y x.
Definition Reqb (x y : R) : bool := if Req_dec_T x y then true else false.

Infix "<?" := Rltb (at level 70) : R_scope.
Infix "<=?" := Rleb (at level 70) : R_scope.
Infix ">?" := Rgtb (at level 70) : R_scope.
Infix ">=?" := Rgeb (at level 70) : R_scope.
Infix "=?" := Reqb (at level 70) : R_scope.

(** ** THREE.Vector3 (the methods the physics code calls) *)

Record Vector3 : Type := mkVector3 { vx : R; vy : R; vz : R }.

Module Vec.
Definition zero : Vector3 := mkVector3 0 0 0.
Definition add (a b : Vector3) : Vector3 :=
  mkVector3 (vx a + vx b) (vy a + vy b) (vz a + vz b).
Definition sub (a b : Vector3) : Vector3 :=
  mkVector3 (vx a - vx b) (vy a - vy b) (vz a - vz b).
Definition multiplyScalar (a : Vector3) (s : R) : Vector3 :=
  mkVector3 (vx a * s) (vy a * s) (vz a * s).
Definition dot (a b : Vector3) : R :=
  vx a * vx b + vy a * vy b + vz a * vz b.
Definition length (a : Vector3) : R :=
  sqrt (vx a * vx a + vy a * vy a + vz a * vz a).
(** [normalize] is [divideScalar (length () || 1)]: a zero vector is
    divided by 1. *)
Definition normalize (a : Vector3) : Vector3 :=
  let l := length a in
  let d := if l =? 0 then 1 else l in
  mkVector3 (vx a / d) (vy a / d) (vz a / d).
Definition cross (a b : Vector3) : Vector3 :=
  mkVector3 (vy a * vz b - vz a * vy b)
            (vz a * vx b - vx a * vz b)
            (vx a * vy b - vy a * vx b).
Definition neg (a : Vector3) : Vector3 := mkVector3 (- vx a) (- vy a) (- vz a).
End Vec.

(** ** Simulation parameters ([FluidSimulator.params]) *)

Record Params : Type := mkParams {
  particleMass : R;
  restDensity : R;
  smoothingRadius : R;
  stiffness : R;
  viscosity : R;
  fluidGravity : R;
  timeStep : R;
  damping : R;
  boundMin : Vector3;
  boundMax : Vector3;
  simulationSpeed : R
}.

(** The values the constructor of [FluidSimulator] installs. *)
Definition defaultParams : Params :=
  {| particleMass := 1;
     restDensity := 1000;
     smoothingRadius := 5 / 10;
     stiffness := 2000;
     viscosity := 3 / 10;
     fluidGravity := - (98 / 10);
     timeStep := 3 / 1000;
     damping := 6 / 10;
     boundMin := mkVector3 (-8) (-5) (-8);
     boundMax := mkVector3 8 12 8;
     simulationSpeed := 1 |}.

(** ** SPH kernels ([ParticleSystem.poly6Kernel], [spikyGradient],
       [viscosityLaplacian]) *)

Definition poly6Kernel (r h : R) : R :=
  if (r >=? 0) && (r <=? h) then
    let term := h * h - r * r in
    315 / (64 * PI * h ^ 9) * term * term * term
  else 0.

Definition spikyGradient (rx ry rz h : R) : Vector3 :=
  let r := sqrt (rx * rx + ry * ry + rz * rz) in
  if (r >? 0) && (r <=? h) then
    let coef := - 45 / (PI * h ^ 6) in
    let term := (h - r) * (h - r) / r in
    mkVector3 (coef * term * rx) (coef * term * ry) (coef * term * rz)
  else mkVector3 0 0 0.

Definition viscosityLaplacian (r h : R) : R :=
  if (r >=? 0) && (r <=? h) then
    45 / (PI * h ^ 6) * (h - r)
  else 0.

(** ** Particle system state ([ParticleSystem], the physics fields) *)

Record ParticleSystem : Type := mkParticleSystem {
  numParticles : nat;
  params : Params;
  positions : list R;
  velocities : list R;
  densities : list R;
  pressures : list R;
  forces : list R
}.

(** Slot [i * 3 + k] of a flat per-particle array. *)
Definition idx (i k : nat) : nat := (i * 3 + k)%nat.

Definition getPos (i k : nat) (s : ParticleSystem) : R := positions s !!! idx i k.
Definition getVel (i k : nat) (s : ParticleSystem) : R := velocities s !!! idx i k.
Definition getForce (i k : nat) (s : ParticleSystem) : R := forces s !!! idx i k.

Definition setPos (i k : nat) (x : R) (s : ParticleSystem) : ParticleSystem :=
  mkParticleSystem (numParticles s) (params s)
    (<[idx i k := x]> (positions s)) (velocities s)
    (densities s) (pressures s) (forces s).

Definition setVel (i k : nat) (x : R) (s : ParticleSystem) : ParticleSystem :=
  mkParticleSystem (numParticles s) (params s)
    (positions s) (<[idx i k := x]> (velocities s))
    (densities s) (pressures s) (forces s).

Definition setForce (i k : nat) (x : R) (s : ParticleSystem) : ParticleSystem :=
  mkParticleSystem (numParticles s) (params s)
    (positions s) (velocities s)
    (densities s) (pressures s) (<[idx i k := x]> (forces s)).

Definition setDensity (i : nat) (x : R) (s : ParticleSystem) : ParticleSystem :=
  mkParticleSystem (numParticles s) (params s)
    (positions s) (velocities s)
    (<[i := x]> (densities s)) (pressures s) (forces s).

Definition setPressure (i : nat) (x : R) (s : ParticleSystem) : ParticleSystem :=
  mkParticleSystem (numParticles s) (params s)
    (positions s) (velocities s)
    (densities s) (<[i := x]> (pressures s)) (forces s).

(** [for (let i = 0; i < n; i++) body(i)] as a state transformer. *)
Definition forRange {A : Type} (n : nat) (body : nat -> A -> A) (a : A) : A :=
  fold_left (fun acc i => body i acc) (seq 0 n) a.

(** What [initParticleArrays] establishes about the array sizes. *)
Record wf (s : ParticleSystem) : Prop := mkWf {
  wf_positions : length (positions s) = (numParticles s * 3)%nat;
  wf_velocities : length (velocities s) = (numParticles s * 3)%nat;
  wf_densities : length (densities s) = numParticles s;
  wf_pressures : length (pressures s) = numParticles s;
  wf_forces : length (forces s) = (numParticles s * 3)%nat
}.

(** The fields a write to [positions] or [velocities] leaves alone. *)
Record same_fields (s s' : ParticleSystem) : Prop := mkSameFields {
  same_numParticles : numParticles s' = numParticles s;
  same_params : params s' = params s;
  same_densities : densities s' = densities s;
  same_pressures : pressures s' = pressures s;
  same_forces : forces s' = forces s
}.

(** *** Density pass ([computeDensity]) *)

(** Separation of particles [i] and [j], as both passes compute it. *)
Definition separation (s : ParticleSystem) (i j : nat) : R :=
  let dx := getPos i 0 s - getPos j 0 s in
  let dy := getPos i 1 s - getPos j 1 s in
  let dz := getPos i 2 s - getPos j 2 s in
  sqrt (dx * dx + dy * dy + dz * dz).

(** One turn of the inner loop: neighbour [j] seen from particle [i]. *)
Definition densityStep (s : ParticleSystem) (i j : nat) (density : R) : R :=
  let h := smoothingRadius (params s) in
  let mass := particleMass (params s) in
  let r := separation s i j in
  if r <? h then density + mass * poly6Kernel r h else density.

Definition densityOf (s : ParticleSystem) (i : nat) : R :=
  forRange (numParticles s) (densityStep s i) 0.

Definition computeDensityAt (i : nat) (s : ParticleSystem) : ParticleSystem :=
  let density := densityOf s i in
  setPressure i (stiffness (params s) * (density - restDensity (params s)))
    (setDensity i density s).

Definition computeDensity (s : ParticleSystem) : ParticleSystem :=
  forRange (numParticles s) computeDensityAt s.

(** *** Force pass ([computeForces]) *)

(** [pressureTerm * grad]: what the inner loop subtracts from the force
    accumulator of [i] for neighbour [j]. *)
Definition pressureDelta (s : ParticleSystem) (i j : nat) : Vector3 :=
  let h := smoothingRadius (params s) in
  let mass := particleMass (params s) in
  let dx := getPos i 0 s - getPos j 0 s in
  let dy := getPos i 1 s - getPos j 1 s in
  let dz := getPos i 2 s - getPos j 2 s in
  let density_i := densities s !!! i in
  let pressure_i := pressures s !!! i in
  let density_j := densities s !!! j in
  let pressure_j := pressures s !!! j in
  let grad := spikyGradient dx dy dz h in
  let pressureTerm :=
    mass * (pressure_i / (density_i * density_i)
            + pressure_j / (density_j * density_j)) in
  mkVector3 (pressureTerm * vx grad) (pressureTerm * vy grad)
            (pressureTerm * vz grad).

(** The pressure force the pass accumulates onto [i] on account of [j]. *)
Definition pressureContribution (s : ParticleSystem) (i j : nat) : Vector3 :=
  Vec.sub Vec.zero (pressureDelta s i j).

(** [viscosityTerm * (vj - vi)]: what the inner loop adds for [j]. *)
Definition viscosityDelta (s : ParticleSystem) (i j : nat) : Vector3 :=
  let h := smoothingRadius (params s) in
  let mass := particleMass (params s) in
  let r := separation s i j in
  let density_j := densities s !!! j in
  let lap := viscosityLaplacian r h in
  let viscosityTerm := viscosity (params s) * mass / density_j * lap in
  mkVector3 (viscosityTerm * (getVel j 0 s - getVel i 0 s))
            (viscosityTerm * (getVel j 1 s - getVel i 1 s))
            (viscosityTerm * (getVel j 2 s - getVel i 2 s)).

Definition forceStep (s : ParticleSystem) (i j : nat) (f : Vector3) : Vector3 :=
  if Nat.eqb i j then f
  else if separation s i j <? smoothingRadius (params s) then
    Vec.add (Vec.sub f (pressureDelta s i j)) (viscosityDelta s i j)
  else f.

Definition forceOf (s : ParticleSystem) (i : nat) : Vector3 :=
  let f := forRange (numParticles s) (forceStep s i) Vec.zero in
  mkVector3 (vx f)
            (vy f + fluidGravity (params s) * (densities s !!! i))
            (vz f).

Definition computeForcesAt (i : nat) (s : ParticleSystem) : ParticleSystem :=
  let f := forceOf s i in
  setForce i 2 (vz f) (setForce i 1 (vy f) (setForce i 0 (vx f) s)).

Definition fillForces (x : R) (s : ParticleSystem) : ParticleSystem :=
  mkParticleSystem (numParticles s) (params s)
    (positions s) (velocities s)
    (densities s) (pressures s) (replicate (length (forces s)) x).

Definition computeForces (s : ParticleSystem) : ParticleSystem :=
  forRange (numParticles s) computeForcesAt (fillForces 0 s).

(** *** Boundary pass ([handleBoundaryCollision]) *)

Definition boundaryBottom (i : nat) (s : ParticleSystem) : ParticleSystem :=
  let damping := damping (params s) in
  let bMin := boundMin (params s) in
  if getPos i 1 s <? vy bMin then
    let s := setPos i 1 (vy bMin) s in
    let s := setVel i 1 (Rabs (getVel i 1 s) * damping) s in
    let s := setVel i 0 (getVel i 0 s * (95 / 100)) s in
    let s := setVel i 2 (getVel i 2 s * (95 / 100)) s in
    s
  else s.

Definition boundaryTop (i : nat) (s : ParticleSystem) : ParticleSystem :=
  let damping := damping (params s) in
  let bMax := boundMax (params s) in
  if getPos i 1 s >? vy bMax then
    let s := setPos i 1 (vy bMax) s in
    let s := setVel i 1 (- Rabs (getVel i 1 s) * damping) s in
    s
  else s.

Definition boundaryXMin (i : nat) (s : ParticleSystem) : ParticleSystem :=
  let damping := damping (params s) in
  let bMin := boundMin (params s) in
  if getPos i 0 s <? vx bMin then
    let s := setPos i 0 (vx bMin) s in
    let s := setVel i 0 (Rabs (getVel i 0 s) * damping) s in
    s
  else s.

Definition boundaryXMax (i : nat) (s : ParticleSystem) : ParticleSystem :=
  let damping := damping (params s) in
  let bMax := boundMax (params s) in
  if getPos i 0 s >? vx bMax then
    let s := setPos i 0 (vx bMax) s in
    let s := setVel i 0 (- Rabs (getVel i 0 s) * damping) s in
    s
  else s.

Definition boundaryZMin (i : nat) (s : ParticleSystem) : ParticleSystem :=
  let damping := damping (params s) in
  let bMin := boundMin (params s) in
  if getPos i 2 s <? vz bMin then
    let s := setPos i 2 (vz bMin) s in
    let s := setVel i 2 (Rabs (getVel i 2 s) * damping) s in
    s
  else s.

Definition boundaryZMax (i : nat) (s : ParticleSystem) : ParticleSystem :=
  let damping := damping (params s) in
  let bMax := boundMax (params s) in
  if getPos i 2 s >? vz bMax then
    let s := setPos i 2 (vz bMax) s in
    let s := setVel i 2 (- Rabs (getVel i 2 s) * damping) s in
    s
  else s.

Definition handleBoundaryCollision (i : nat) (s : ParticleSystem) : ParticleSystem :=
  let s := boundaryBottom i s in
  let s := boundaryTop i s in
  let s := boundaryXMin i s in
  let s := boundaryXMax i s in
  let s := boundaryZMin i s in
  let s := boundaryZMax i s in
  s.

(** ** Rigid bodies ([RigidBody], the physics fields) *)

Inductive BodyType : Type :=
  | sphere | cube | cylinder | torus | cone | boat
  | hollow_sphere | hollow_cube | hollow_cylinder.

(** THREE.Euler: three angles in radians. *)
Record Euler : Type := mkEuler { ex : R; ey : R; ez : R }.

Record RigidBody : Type := mkRigidBody {
  type : BodyType;
  position : Vector3;
  size : Vector3;
  baseSize : Vector3;
  scale : R;
  velocity : Vector3;
  angularVelocity : Vector3;
  physicalRotation : Euler;
  rotationX : R;
  rotationY : R;
  rotationZ : R;
  density : R
}.

Definition setPosition (p : Vector3) (b : RigidBody) : RigidBody :=
  mkRigidBody (type b) p (size b) (baseSize b) (scale b) (velocity b)
    (angularVelocity b) (physicalRotation b)
    (rotationX b) (rotationY b) (rotationZ b) (density b).

Definition setVelocity (v : Vector3) (b : RigidBody) : RigidBody :=
  mkRigidBody (type b) (position b) (size b) (baseSize b) (scale b) v
    (angularVelocity b) (physicalRotation b)
    (rotationX b) (rotationY b) (rotationZ b) (density b).

Definition setAngularVelocity (a : Vector3) (b : RigidBody) : RigidBody :=
  mkRigidBody (type b) (position b) (size b) (baseSize b) (scale b) (velocity b)
    a (physicalRotation b)
    (rotationX b) (rotationY b) (rotationZ b) (density b).

Definition setPhysicalRotation (e : Euler) (b : RigidBody) : RigidBody :=
  mkRigidBody (type b) (position b) (size b) (baseSize b) (scale b) (velocity b)
    (angularVelocity b) e
    (rotationX b) (rotationY b) (rotationZ b) (density b).

Definition setX (x : R) (v : Vector3) : Vector3 := mkVector3 x (vy v) (vz v).
Definition setY (y : R) (v : Vector3) : Vector3 := mkVector3 (vx v) y (vz v).
Definition setZ (z : R) (v : Vector3) : Vector3 := mkVector3 (vx v) (vy v) z.

(** The constructor: [size] is cloned, then [setScale] multiplies it. *)
Definition newRigidBody (t : BodyType) (p sz : Vector3)
    (sc rx ry rz dens : R) : RigidBody :=
  mkRigidBody t p (Vec.multiplyScalar sz sc) sz sc Vec.zero Vec.zero
    (mkEuler 0 0 0) rx ry rz dens.

(** ** The simulator state: the particle system and the live body list *)

Record World : Type := mkWorld {
  particleSystem : ParticleSystem;
  rigidBodies : list RigidBody
}.

Definition onParticles (f : ParticleSystem -> ParticleSystem) (w : World) : World :=
  mkWorld (f (particleSystem w)) (rigidBodies w).

(** [for (const body of rigidBodies) f(body)]: the body is read from the
    live list at each turn. *)
Fixpoint forBodiesFrom (f : RigidBody -> World -> World)
    (n k : nat) (w : World) : World :=
  match n with
  | O => w
  | S n' =>
      match rigidBodies w !! k with
      | Some body => forBodiesFrom f n' (S k) (f body w)
      | None => w
      end
  end.

Definition forBodies (f : RigidBody -> World -> World) (w : World) : World :=
  forBodiesFrom f (length (rigidBodies w)) 0 w.

(** *** Rigid coupling pass ([handleRigidBodyCollisions]) *)

(** The sphere test, for a body at offset [(dx, dy, dz)] from the particle
    position read at the start of the pass. *)
Definition sphereTest (i : nat) (dx dy dz : R) (body : RigidBody)
    (s : ParticleSystem) : ParticleSystem :=
  let dist := sqrt (dx * dx + dy * dy + dz * dz) in
  let radius := vx (size body) in
  if (dist <? radius) && (dist >? 0) then
    let nx := dx / dist in
    let ny := dy / dist in
    let nz := dz / dist in
    let s := setPos i 0 (vx (position body) + nx * radius) s in
    let s := setPos i 1 (vy (position body) + ny * radius) s in
    let s := setPos i 2 (vz (position body) + nz * radius) s in
    let dot := getVel i 0 s * nx + getVel i 1 s * ny + getVel i 2 s * nz in
    if dot <? 0 then
      let s := setVel i 0 (getVel i 0 s - 2 * dot * nx) s in
      let s := setVel i 1 (getVel i 1 s - 2 * dot * ny) s in
      let s := setVel i 2 (getVel i 2 s - 2 * dot * nz) s in
      let s := setVel i 0 (getVel i 0 s * damping (params s)) s in
      let s := setVel i 1 (getVel i 1 s * damping (params s)) s in
      let s := setVel i 2 (getVel i 2 s * damping (params s)) s in
      s
    else s
  else s.

(** The axis-aligned interior test. *)
Definition cubeTest (i : nat) (dx dy dz : R) (body : RigidBody)
    (s : ParticleSystem) : ParticleSystem :=
  let halfX := vx (size body) * (5 / 10) in
  let halfY := vy (size body) * (5 / 10) in
  let halfZ := vz (size body) * (5 / 10) in
  if (Rabs dx <? halfX) && (Rabs dy <? halfY) && (Rabs dz <? halfZ) then
    let penX := halfX - Rabs dx in
    let penY := halfY - Rabs dy in
    let penZ := halfZ - Rabs dz in
    let minPen := Rmin (Rmin penX penY) penZ in
    if minPen =? penX then
      let sign := if dx >? 0 then 1 else -1 in
      let s := setPos i 0 (vx (position body) + sign * halfX) s in
      let s := setVel i 0 (Rabs (getVel i 0 s) * sign * damping (params s)) s in
      s
    else if minPen =? penY then
      let sign := if dy >? 0 then 1 else -1 in
      let s := setPos i 1 (vy (position body) + sign * halfY) s in
      let s := setVel i 1 (Rabs (getVel i 1 s) * sign * damping (params s)) s in
      s
    else
      let sign := if dz >? 0 then 1 else -1 in
      let s := setPos i 2 (vz (position body) + sign * halfZ) s in
      let s := setVel i 2 (Rabs (getVel i 2 s) * sign * damping (params s)) s in
      s
  else s.

(** One turn of the loop over the bodies; [(px, py, pz)] is the particle
    position read before the loop. *)
Definition collideWithBody (i : nat) (px py pz : R) (body : RigidBody)
    (w : World) : World :=
  let dx := px - vx (position body) in
  let dy := py - vy (position body) in
  let dz := pz - vz (position body) in
  match type body with
  | sphere | cylinder | torus => onParticles (sphereTest i dx dy dz body) w
  | cube => onParticles (cubeTest i dx dy dz body) w
  | _ => w
  end.

Definition handleRigidBodyCollisions (i : nat) (w : World) : World :=
  let px := getPos i 0 (particleSystem w) in
  let py := getPos i 1 (particleSystem w) in
  let pz := getPos i 2 (particleSystem w) in
  forBodies (collideWithBody i px py pz) w.

(** *** Integration pass ([integrate]) *)

(** The velocity and position update of one particle. *)
Definition eulerStep (dt : R) (i : nat) (s : ParticleSystem) : ParticleSystem :=
  let density := densities s !!! i in
  let ax := getForce i 0 s / density in
  let ay := getForce i 1 s / density in
  let az := getForce i 2 s / density in
  let s := setVel i 0 (getVel i 0 s + ax * dt) s in
  let s := setVel i 1 (getVel i 1 s + ay * dt) s in
  let s := setVel i 2 (getVel i 2 s + az * dt) s in
  let s := setPos i 0 (getPos i 0 s + getVel i 0 s * dt) s in
  let s := setPos i 1 (getPos i 1 s + getVel i 1 s * dt) s in
  let s := setPos i 2 (getPos i 2 s + getVel i 2 s * dt) s in
  s.

(** One turn of the loop of [integrate].  The list of bodies handed over by
    [update] is always an array, so the [if (rigidBodies)] guard passes. *)
Definition integrateAt (dt : R) (i : nat) (w : World) : World :=
  let density := densities (particleSystem w) !!! i in
  if density <? 1 then w
  else
    let w := onParticles (eulerStep dt i) w in
    let w := onParticles (handleBoundaryCollision i) w in
    let w := handleRigidBodyCollisions i w in
    w.

Definition integrate (dt : R) (w : World) : World :=
  forRange (numParticles (particleSystem w)) (integrateAt dt) w.

(** The physics of [ParticleSystem.update]. *)
Definition updateParticles (dt : R) (w : World) : World :=
  let w := onParticles computeDensity w in
  let w := onParticles computeForces w in
  let w := integrate dt w in
  w.

(** ** Rigid-body dynamics ([RigidBody.js]) *)

Definition setPositionX (x : R) (b : RigidBody) := setPosition (setX x (position b)) b.
Definition setPositionY (y : R) (b : RigidBody) := setPosition (setY y (position b)) b.
Definition setPositionZ (z : R) (b : RigidBody) := setPosition (setZ z (position b)) b.
Definition setVelocityX (x : R) (b : RigidBody) := setVelocity (setX x (velocity b)) b.
Definition setVelocityY (y : R) (b : RigidBody) := setVelocity (setY y (velocity b)) b.
Definition setVelocityZ (z : R) (b : RigidBody) := setVelocity (setZ z (velocity b)) b.
Definition setAngularX (x : R) (b : RigidBody) :=
  setAngularVelocity (setX x (angularVelocity b)) b.
Definition setAngularZ (z : R) (b : RigidBody) :=
  setAngularVelocity (setZ z (angularVelocity b)) b.
Definition scaleAngular (k : R) (b : RigidBody) :=
  setAngularVelocity (Vec.multiplyScalar (angularVelocity b) k) b.

(** The three type tests the code repeats. *)
Definition isRoundType (t : BodyType) : bool :=
  match t with sphere | torus | hollow_sphere => true | _ => false end.

Definition isCylinderType (t : BodyType) : bool :=
  match t with cylinder | cone | hollow_cylinder | boat => true | _ => false end.

Definition isRadialType (t : BodyType) : bool :=
  match t with
  | sphere | cylinder | torus | cone | hollow_sphere | hollow_cylinder | boat => true
  | _ => false
  end.

(** *** Pairwise collision ([checkObjectCollisions]) *)

Definition collisionRadius (b : RigidBody) : R :=
  if isRoundType (type b) then vx (size b)
  else if isCylinderType (type b) then vx (size b) * (12 / 10)
  else Vec.length (size b) * (6 / 10).

Definition restitution : R := 4 / 10.

(** The callback of [allBodies.forEach] for [other !== this]: both bodies
    are mutated, so both come back. *)
Definition collidePair (this other : RigidBody) : RigidBody * RigidBody :=
  let diff := Vec.sub (position this) (position other) in
  let distance := Vec.length diff in
  if distance <? 1 / 1000 then (this, other)
  else
    let thisRadius := collisionRadius this in
    let otherRadius := collisionRadius other in
    let minDistance := thisRadius + otherRadius in
    if distance <? minDistance then
      let normal := Vec.normalize diff in
      let overlap := minDistance - distance in
      let totalVel := Vec.length (velocity this) + Vec.length (velocity other) in
      let thisRatio :=
        if totalVel >? 0 then Vec.length (velocity this) / totalVel else 5 / 10 in
      let otherRatio := 1 - thisRatio in
      let this :=
        setPosition (Vec.add (position this)
                       (Vec.multiplyScalar normal (overlap * thisRatio))) this in
      let other :=
        setPosition (Vec.add (position other)
                       (Vec.multiplyScalar normal (- overlap * otherRatio))) other in
      let relativeVel := Vec.sub (velocity this) (velocity other) in
      let velocityAlongNormal := Vec.dot relativeVel normal in
      if (velocityAlongNormal <? 0) || (overlap >? 1 / 10) then
        let j := - (1 + restitution) * velocityAlongNormal in
        let impulse := Vec.multiplyScalar normal (j * (5 / 10)) in
        let this := setVelocity (Vec.add (velocity this) impulse) this in
        let other := setVelocity (Vec.sub (velocity other) impulse) other in
        let tangent :=
          Vec.sub relativeVel (Vec.multiplyScalar normal velocityAlongNormal) in
        let frictionMagnitude := Vec.length tangent * (3 / 10) in
        let '(this, other) :=
          if frictionMagnitude >? 1 / 1000 then
            let friction :=
              Vec.multiplyScalar (Vec.normalize tangent)
                (- frictionMagnitude * (5 / 10)) in
            (setVelocity (Vec.add (velocity this) friction) this,
             setVelocity (Vec.sub (velocity other) friction) other)
          else (this, other) in
        let this := scaleAngular (7 / 10) this in
        let other := scaleAngular (7 / 10) other in
        let torqueAxis := Vec.cross normal relativeVel in
        let this :=
          setAngularVelocity
            (Vec.add (angularVelocity this)
                     (Vec.multiplyScalar torqueAxis (1 / 100))) this in
        (this, other)
      else (this, other)
    else (this, other).

(** One turn of [allBodies.forEach] inside the method called on the body
    stored at [self]; the bodies are shared objects, so the turn reads both
    from the store and writes both back. *)
Definition collideWith (self k : nat) (bodies : list RigidBody) : list RigidBody :=
  if Nat.eqb k self then bodies
  else
    match bodies !! self, bodies !! k with
    | Some this, Some other =>
        let '(this, other) := collidePair this other in
        <[k := other]> (<[self := this]> bodies)
    | _, _ => bodies
    end.

Definition checkObjectCollisions (self : nat) (bodies : list RigidBody)
    : list RigidBody :=
  forRange (length bodies) (collideWith self) bodies.

(** *** Per-step update ([RigidBody.update]) *)

(** [Math.round]: the nearest integer, halves rounded up. *)
Definition jsRound (x : R) : R := IZR (Int_part (x + 1 / 2)).

Definition applyBuoyancy (dt gravity fluidDensity : R) (b : RigidBody) : RigidBody :=
  let buoyancyFactor := fluidDensity / density b in
  let effectiveGravity := gravity * (1 - buoyancyFactor * (8 / 10)) in
  setVelocityY (vy (velocity b) + effectiveGravity * dt) b.

Definition applyDrag (dt fluidDensity : R) (b : RigidBody) : RigidBody :=
  let dragFactor := Rmin (fluidDensity / 1000) 2 in
  setVelocity
    (Vec.multiplyScalar (velocity b) (1 - (1 / 100 * dragFactor * dt * 60))) b.

Definition moveBody (dt : R) (b : RigidBody) : RigidBody :=
  setPosition (Vec.add (position b) (Vec.multiplyScalar (velocity b) dt)) b.

Definition spin (dt : R) (b : RigidBody) : RigidBody :=
  let b := scaleAngular (98 / 100) b in
  setPhysicalRotation
    (mkEuler (ex (physicalRotation b) + vx (angularVelocity b) * dt)
             (ey (physicalRotation b) + vy (angularVelocity b) * dt)
             (ez (physicalRotation b) + vz (angularVelocity b) * dt)) b.

Definition corners (halfSize : Vector3) : list Vector3 :=
  [ mkVector3 (- vx halfSize) (- vy halfSize) (- vz halfSize);
    mkVector3 (vx halfSize) (- vy halfSize) (- vz halfSize);
    mkVector3 (- vx halfSize) (vy halfSize) (- vz halfSize);
    mkVector3 (vx halfSize) (vy halfSize) (- vz halfSize);
    mkVector3 (- vx halfSize) (- vy halfSize) (vz halfSize);
    mkVector3 (vx halfSize) (- vy halfSize) (vz halfSize);
    mkVector3 (- vx halfSize) (vy halfSize) (vz halfSize);
    mkVector3 (vx halfSize) (vy halfSize) (vz halfSize) ].

(** [m = Infinity; forEach (c => m = Math.min (m, f c))] over a list that is
    never empty: the first element absorbs the infinite start. *)
Definition minOver (f : Vector3 -> R) (cs : list Vector3) : R :=
  match cs with
  | [] => 0
  | c :: cs' => fold_left (fun m c' => Rmin m (f c')) cs' (f c)
  end.

Definition maxOver (f : Vector3 -> R) (cs : list Vector3) : R :=
  match cs with
  | [] => 0
  | c :: cs' => fold_left (fun m c' => Rmax m (f c')) cs' (f c)
  end.

Definition totalRotation (b : RigidBody) : Euler :=
  mkEuler (rotationX b * PI / 180 + ex (physicalRotation b))
          (rotationY b * PI / 180 + ey (physicalRotation b))
          (rotationZ b * PI / 180 + ez (physicalRotation b)).

(** Statements shared by the three floor branches; they differ in the
    torque factor and in the angular friction only. *)
Definition land (torque friction : R) (b : RigidBody) : RigidBody :=
  let impactForce := Rabs (vy (velocity b)) in
  let b :=
    if impactForce >? 1 / 10 then
      let b := setAngularX (vx (angularVelocity b) + vz (velocity b) * torque) b in
      let b := setAngularZ (vz (angularVelocity b) - vx (velocity b) * torque) b in
      b
    else b in
  let b := setVelocityY (- vy (velocity b) * (2 / 10)) b in
  let b := setVelocityX (vx (velocity b) * (8 / 10)) b in
  let b := setVelocityZ (vz (velocity b) * (8 / 10)) b in
  scaleAngular friction b.

Definition isMovingSlowly (b : RigidBody) : bool :=
  (Vec.length (velocity b) <? 5 / 10)
  && (Rabs (Vec.length (angularVelocity b)) <? 1).

Definition snapAngle : R := PI / 2.
Definition alignSpeed : R := 1 / 10.

Definition snapTarget (total : R) : R := jsRound (total / snapAngle) * snapAngle.

Section Update.

(** [Vector3.applyEuler] belongs to three.js; the update is stated for any
    rotation function. *)
Variable applyEuler : Euler -> Vector3 -> Vector3.

Definition rotatedCorners (b : RigidBody) : list Vector3 :=
  let halfSize := Vec.multiplyScalar (size b) (5 / 10) in
  map (applyEuler (totalRotation b)) (corners halfSize).

(** [effectiveRadius] of a box-like body. *)
Definition effectiveRadius (b : RigidBody) : Vector3 :=
  let cs := rotatedCorners b in
  mkVector3 (Rmax (Rabs (minOver vx cs)) (Rabs (maxOver vx cs)))
            (Rmax (Rabs (minOver vy cs)) (Rabs (maxOver vy cs)))
            (Rmax (Rabs (minOver vz cs)) (Rabs (maxOver vz cs))).

Definition floorRound (radius : R) (boundMin : Vector3) (b : RigidBody) : RigidBody :=
  if vy (position b) - radius <? vy boundMin then
    let b := setPositionY (vy boundMin + radius) b in
    land (3 / 10) (85 / 100) b
  else b.

Definition floorCylinder (radius : R) (boundMin : Vector3) (b : RigidBody)
    : RigidBody :=
  if vy (position b) - radius <? vy boundMin then
    let b := setPositionY (vy boundMin + radius) b in
    let b := land (3 / 10) (85 / 100) b in
    if isMovingSlowly b then
      let totalRotX := ex (totalRotation b) in
      let totalRotZ := ez (totalRotation b) in
      let targetRotX := snapTarget totalRotX in
      let targetRotZ := snapTarget totalRotZ in
      let b :=
        setPhysicalRotation
          (mkEuler (ex (physicalRotation b) + (targetRotX - totalRotX) * alignSpeed)
                   (ey (physicalRotation b))
                   (ez (physicalRotation b) + (targetRotZ - totalRotZ) * alignSpeed))
          b in
      scaleAngular (5 / 10) b
    else b
  else b.

Definition floorBox (effR : Vector3) (boundMin : Vector3) (b : RigidBody)
    : RigidBody :=
  if vy (position b) - vy effR <? vy boundMin then
    let b := setPositionY (vy boundMin + vy effR) b in
    let b := land (5 / 10) (7 / 10) b in
    if isMovingSlowly b then
      let totalRotX := ex (totalRotation b) in
      let totalRotY := ey (totalRotation b) in
      let totalRotZ := ez (totalRotation b) in
      let targetRotX := snapTarget totalRotX in
      let targetRotY := snapTarget totalRotY in
      let targetRotZ := snapTarget totalRotZ in
      let b :=
        setPhysicalRotation
          (mkEuler (ex (physicalRotation b) + (targetRotX - totalRotX) * alignSpeed)
                   (ey (physicalRotation b) + (targetRotY - totalRotY) * alignSpeed)
                   (ez (physicalRotation b) + (targetRotZ - totalRotZ) * alignSpeed))
          b in
      let b := scaleAngular (5 / 10) b in
      let newMinY := minOver vy (rotatedCorners b) in
      let newEffectiveRadiusY := Rabs newMinY in
      if vy (position b) - newEffectiveRadiusY <? vy boundMin then
        setPositionY (vy boundMin + newEffectiveRadiusY) b
      else b
    else b
  else b.

Definition ceiling (r : R) (boundMax : Vector3) (b : RigidBody) : RigidBody :=
  if vy (position b) + r >? vy boundMax then
    let b := setPositionY (vy boundMax - r) b in
    setVelocityY (- vy (velocity b) * (2 / 10)) b
  else b.

(** The X walls; [k] is 0.2 for radial bodies and 0.3 for boxes. *)
Definition wallsX (r k : R) (boundMin boundMax : Vector3) (b : RigidBody)
    : RigidBody :=
  let b :=
    if vx (position b) - r <? vx boundMin then
      let b := setPositionX (vx boundMin + r) b in
      let b := setAngularZ (vz (angularVelocity b) + vy (velocity b) * k) b in
      setVelocityX (- vx (velocity b) * (3 / 10)) b
    else b in
  if vx (position b) + r >? vx boundMax then
    let b := setPositionX (vx boundMax - r) b in
    let b := setAngularZ (vz (angularVelocity b) - vy (velocity b) * k) b in
    setVelocityX (- vx (velocity b) * (3 / 10)) b
  else b.

(** The Z walls, with the same factors. *)
Definition wallsZ (r k : R) (boundMin boundMax : Vector3) (b : RigidBody)
    : RigidBody :=
  let b :=
    if vz (position b) - r <? vz boundMin then
      let b := setPositionZ (vz boundMin + r) b in
      let b := setAngularX (vx (angularVelocity b) - vy (velocity b) * k) b in
      setVelocityZ (- vz (velocity b) * (3 / 10)) b
    else b in
  if vz (position b) + r >? vz boundMax then
    let b := setPositionZ (vz boundMax - r) b in
    let b := setAngularX (vx (angularVelocity b) + vy (velocity b) * k) b in
    setVelocityZ (- vz (velocity b) * (3 / 10)) b
  else b.

(** The boundary handling that ends [update] ("Boundary collisions" down to
    the Z walls). *)
Definition boundaryHandling (boundMin boundMax : Vector3) (b : RigidBody)
    : RigidBody :=
  let radius := vx (size b) in
  let effR := effectiveRadius b in
  let b :=
    if isRoundType (type b) then floorRound radius boundMin b
    else if isCylinderType (type b) then floorCylinder radius boundMin b
    else floorBox effR boundMin b in
  let b :=
    if isRadialType (type b) then ceiling radius boundMax b
    else ceiling (vy effR) boundMax b in
  let b :=
    if isRadialType (type b) then wallsX radius (2 / 10) boundMin boundMax b
    else wallsX (vx effR) (3 / 10) boundMin boundMax b in
  let b :=
    if isRadialType (type b) then wallsZ radius (2 / 10) boundMin boundMax b
    else wallsZ (vz effR) (3 / 10) boundMin boundMax b in
  b.

(** [update], called on the body stored at [self]; [allBodies] is the
    live list the body itself belongs to. *)
Definition update (self : nat) (dt gravity : R) (boundMin boundMax : Vector3)
    (damping fluidDensity : R) (allBodies : list RigidBody) : list RigidBody :=
  let allBodies :=
    alter (fun b => moveBody dt
                      (applyDrag dt fluidDensity
                         (applyBuoyancy dt gravity fluidDensity b)))
          self allBodies in
  let allBodies := checkObjectCollisions self allBodies in
  alter (fun b => boundaryHandling boundMin boundMax (spin dt b)) self allBodies.

End Update.

(** ** The frame loop ([FluidSimulator.animate], physics only) *)

Definition updateBodies (applyEuler : Euler -> Vector3 -> Vector3)
    (prm : Params) (objectGravity : R) (bodies : list RigidBody) : list RigidBody :=
  forRange (length bodies)
    (fun k bs =>
       update applyEuler k (timeStep prm * simulationSpeed prm) objectGravity
         (boundMin prm) (boundMax prm) (damping prm) (restDensity prm) bs)
    bodies.

(** One [rigidBodies.forEach (body => body.checkObjectCollisions (...))]. *)
Definition collisionPass (bodies : list RigidBody) : list RigidBody :=
  forRange (length bodies) checkObjectCollisions bodies.

(** The three additional resolution passes. *)
Definition collisionPasses (bodies : list RigidBody) : list RigidBody :=
  forRange 3 (fun _ bs => collisionPass bs) bodies.

Definition animate (applyEuler : Euler -> Vector3 -> Vector3)
    (objectGravity : R) (w : World) : World :=
  let prm := params (particleSystem w) in
  let w := mkWorld (particleSystem w)
             (updateBodies applyEuler prm objectGravity (rigidBodies w)) in
  let w := mkWorld (particleSystem w) (collisionPasses (rigidBodies w)) in
  updateParticles (timeStep prm * simulationSpeed prm) w.

(** ** One particle at a time

    What each pass does to the particle it is called for, as a function of
    that particle's position and velocity alone.  The passes above are
    proved to act on slot [i] of the arrays as these functions do, and to
    leave every other slot alone. *)

Record Particle : Type := mkParticle { pos : Vector3; vel : Vector3 }.

(** Particle [i] as the arrays hold it. *)
Definition particle (i : nat) (s : ParticleSystem) : Particle :=
  mkParticle (mkVector3 (getPos i 0 s) (getPos i 1 s) (getPos i 2 s))
             (mkVector3 (getVel i 0 s) (getVel i 1 s) (getVel i 2 s)).

(** The force accumulator of particle [i] as the array holds it. *)
Definition forceAt (i : nat) (s : ParticleSystem) : Vector3 :=
  mkVector3 (getForce i 0 s) (getForce i 1 s) (getForce i 2 s).

Module One.

Definition boundaryBottom (prm : Params) (q : Particle) : Particle :=
  if vy (pos q) <? vy (boundMin prm) then
    mkParticle (setY (vy (boundMin prm)) (pos q))
               (mkVector3 (vx (vel q) * (95 / 100))
                          (Rabs (vy (vel q)) * damping prm)
                          (vz (vel q) * (95 / 100)))
  else q.

Definition boundaryTop (prm : Params) (q : Particle) : Particle :=
  if vy (pos q) >? vy (boundMax prm) then
    mkParticle (setY (vy (boundMax prm)) (pos q))
               (setY (- Rabs (vy (vel q)) * damping prm) (vel q))
  else q.

Definition boundaryXMin (prm : Params) (q : Particle) : Particle :=
  if vx (pos q) <? vx (boundMin prm) then
    mkParticle (setX (vx (boundMin prm)) (pos q))
               (setX (Rabs (vx (vel q)) * damping prm) (vel q))
  else q.

Definition boundaryXMax (prm : Params) (q : Particle) : Particle :=
  if vx (pos q) >? vx (boundMax prm) then
    mkParticle (setX (vx (boundMax prm)) (pos q))
               (setX (- Rabs (vx (vel q)) * damping prm) (vel q))
  else q.

Definition boundaryZMin (prm : Params) (q : Particle) : Particle :=
  if vz (pos q) <? vz (boundMin prm) then
    mkParticle (setZ (vz (boundMin prm)) (pos q))
               (setZ (Rabs (vz (vel q)) * damping prm) (vel q))
  else q.

Definition boundaryZMax (prm : Params) (q : Particle) : Particle :=
  if vz (pos q) >? vz (boundMax prm) then
    mkParticle (setZ (vz (boundMax prm)) (pos q))
               (setZ (- Rabs (vz (vel q)) * damping prm) (vel q))
  else q.

Definition handleBoundaryCollision (prm : Params) (q : Particle) : Particle :=
  boundaryZMax prm (boundaryZMin prm (boundaryXMax prm (boundaryXMin prm
    (boundaryTop prm (boundaryBottom prm q))))).

End One.

(** The rigid coupling and the integration of one particle. *)
Module OneStep.

Definition sphereTest (prm : Params) (dx dy dz : R) (body : RigidBody)
    (q : Particle) : Particle :=
  let dist := sqrt (dx * dx + dy * dy + dz * dz) in
  let radius := vx (size body) in
  if (dist <? radius) && (dist >? 0) then
    let nx := dx / dist in
    let ny := dy / dist in
    let nz := dz / dist in
    let p := mkVector3 (vx (position body) + nx * radius)
                       (vy (position body) + ny * radius)
                       (vz (position body) + nz * radius) in
    let dot := vx (vel q) * nx + vy (vel q) * ny + vz (vel q) * nz in
    if dot <? 0 then
      mkParticle p
        (mkVector3 ((vx (vel q) - 2 * dot * nx) * damping prm)
                   ((vy (vel q) - 2 * dot * ny) * damping prm)
                   ((vz (vel q) - 2 * dot * nz) * damping prm))
    else mkParticle p (vel q)
  else q.

Definition cubeTest (prm : Params) (dx dy dz : R) (body : RigidBody)
    (q : Particle) : Particle :=
  let halfX := vx (size body) * (5 / 10) in
  let halfY := vy (size body) * (5 / 10) in
  let halfZ := vz (size body) * (5 / 10) in
  if (Rabs dx <? halfX) && (Rabs dy <? halfY) && (Rabs dz <? halfZ) then
    let penX := halfX - Rabs dx in
    let penY := halfY - Rabs dy in
    let penZ := halfZ - Rabs dz in
    let minPen := Rmin (Rmin penX penY) penZ in
    if minPen =? penX then
      let sign := if dx >? 0 then 1 else -1 in
      mkParticle (setX (vx (position body) + sign * halfX) (pos q))
                 (setX (Rabs (vx (vel q)) * sign * damping prm) (vel q))
    else if minPen =? penY then
      let sign := if dy >? 0 then 1 else -1 in
      mkParticle (setY (vy (position body) + sign * halfY) (pos q))
                 (setY (Rabs (vy (vel q)) * sign * damping prm) (vel q))
    else
      let sign := if dz >? 0 then 1 else -1 in
      mkParticle (setZ (vz (position body) + sign * halfZ) (pos q))
                 (setZ (Rabs (vz (vel q)) * sign * damping prm) (vel q))
  else q.

Definition collideWithBody (prm : Params) (px py pz : R) (body : RigidBody)
    (q : Particle) : Particle :=
  let dx := px - vx (position body) in
  let dy := py - vy (position body) in
  let dz := pz - vz (position body) in
  match type body with
  | sphere | cylinder | torus => sphereTest prm dx dy dz body q
  | cube => cubeTest prm dx dy dz body q
  | _ => q
  end.

Definition handleRigidBodyCollisions (prm : Params) (bodies : list RigidBody)
    (q : Particle) : Particle :=
  fold_left
    (fun q' body =>
       collideWithBody prm (vx (pos q)) (vy (pos q)) (vz (pos q)) body q')
    bodies q.

(** Semi-implicit Euler: the new velocity moves the position. *)
Definition eulerStep (dt density : R) (force : Vector3) (q : Particle) : Particle :=
  let v := mkVector3 (vx (vel q) + vx force / density * dt)
                     (vy (vel q) + vy force / density * dt)
                     (vz (vel q) + vz force / density * dt) in
  mkParticle (mkVector3 (vx (pos q) + vx v * dt)
                        (vy (pos q) + vy v * dt)
                        (vz (pos q) + vz v * dt)) v.

Definition integrateAt (dt : R) (prm : Params) (density : R) (force : Vector3)
    (bodies : list RigidBody) (q : Particle) : Particle :=
  if density <? 1 then q
  else
    handleRigidBodyCollisions prm bodies
      (One.handleBoundaryCollision prm (eulerStep dt density force q)).

End OneStep.

(** [s'] is [s] with particle [i] replaced by its image under [g]. *)
Definition acts_on (i : nat) (g : Particle -> Particle)
    (s s' : ParticleSystem) : Prop :=
  wf s' /\ same_fields s s'
  /\ particle i s' = g (particle i s)
  /\ forall j, j <> i -> particle j s' = particle j s.

(** ** Vocabulary of the statements *)

(** [p] lies within [[lo, hi]] componentwise. *)
Definition in_box (lo hi p : Vector3) : Prop :=
  vx lo <= vx p <= vx hi /\ vy lo <= vy p <= vy hi /\ vz lo <= vz p <= vz hi.

(** The half-extent the boundary handling of [update] gives a body: the
    radius [size.x] of the seven radial types, the effective radius of a
    box. *)
Definition halfExtent (applyEuler : Euler -> Vector3 -> Vector3)
    (b : RigidBody) : Vector3 :=
  if isRadialType (type b)
  then mkVector3 (vx (size b)) (vx (size b)) (vx (size b))
  else effectiveRadius applyEuler b.


(** Two bodies of the same type and size. *)
Definition same_shape (a b : RigidBody) : Prop :=
  type b = type a /\ size b = size a.

(** The self-term [mass * W(0, h)] of the density sum. *)
Definition selfContribution (prm : Params) : R :=
  particleMass prm * poly6Kernel 0 (smoothingRadius prm).

(** The type tags [handleRigidBodyCollisions] has a branch for. *)
Definition coupledType (t : BodyType) : bool :=
  match t with sphere | cylinder | torus | cube => true | _ => false end.

(** ** Scenarios *)

(** A rotation function for the scenarios: the rotation by no angle. *)
Definition noRotation (e : Euler) (c : Vector3) : Vector3 := c.

(** Two particles one unit apart on the x axis, smoothing radius 2. *)
Definition twoParticles : ParticleSystem :=
  mkParticleSystem 2
    (mkParams 1 1000 2 2000 (3 / 10) (- (98 / 10)) (3 / 1000) (6 / 10)
       (mkVector3 (-8) (-5) (-8)) (mkVector3 8 12 8) 1)
    [1; 0; 0; 0; 0; 0] [0; 0; 0; 0; 0; 0] [1; 2] [3; 4] [0; 0; 0; 0; 0; 0].

(** A sphere as [dropRigidBody] creates it (radius 0.8, density 2700),
    placed at [p]. *)
Definition droppedSphere (p : Vector3) : RigidBody :=
  newRigidBody sphere p (mkVector3 (8 / 10) (8 / 10) (8 / 10)) 1 0 0 0 2700.

(** A sphere of radius [r] and material density [dens] at [p], moving with
    velocity [v], not spinning. *)
Definition sphereAt (r dens : R) (p v : Vector3) : RigidBody :=
  mkRigidBody sphere p (mkVector3 r r r) (mkVector3 r r r) 1 v
    Vec.zero (mkEuler 0 0 0) 0 0 0 dens.

(** The coordinate axes.  [onAxis a t u v] is the vector with [t] along the
    axis [a] and [u], [v] along the two others, taken in cyclic order;
    [along a w] is the component of [w] along [a]. *)
Inductive Axis : Type := axisX | axisY | axisZ.

Definition onAxis (a : Axis) (t u v : R) : Vector3 :=
  match a with
  | axisX => mkVector3 t u v
  | axisY => mkVector3 v t u
  | axisZ => mkVector3 u v t
  end.

Definition along (a : Axis) (w : Vector3) : R :=
  match a with
  | axisX => vx w
  | axisY => vy w
  | axisZ => vz w
  end.

(** A sphere as [dropRigidBody] creates it, of material density [dens],
    moving with velocity [v]. *)
Definition movingSphere (dens : R) (v : Vector3) : RigidBody :=
  setVelocity v
    (newRigidBody sphere (mkVector3 0 10 0) (mkVector3 (8 / 10) (8 / 10) (8 / 10))
       1 0 0 0 dens).

(** Two particles, the second of density below the floor of [integrate],
    and one sphere. *)
Definition sparseWorld : World :=
  mkWorld
    (mkParticleSystem 2 defaultParams
       [0; 0; 0; 1; 0; 0] [0; 0; 0; 0; 1; 0] [2; 1 / 2] [3; 4]
       [0; 0; 0; 0; 0; 0])
    [droppedSphere (mkVector3 0 10 0)].

(** One particle 0.4 from the centre of a sphere of radius 0.8 at the
    origin, moving towards the centre. *)
Definition overlapWorld : World :=
  mkWorld
    (mkParticleSystem 1 defaultParams
       [4 / 10; 0; 0] [-1; 0; 0] [1000] [0] [0; 0; 0])
    [droppedSphere (mkVector3 0 0 0)].

(** One particle 0.4 from the centre of a cone as [dropRigidBody] creates it
    (base radius 0.8, height 1.5), moving towards the centre. *)
Definition coneWorld : World :=
  mkWorld
    (mkParticleSystem 1 defaultParams
       [4 / 10; 0; 0] [-1; 0; 0] [1000] [0] [0; 0; 0])
    [newRigidBody cone (mkVector3 0 0 0) (mkVector3 (8 / 10) (15 / 10) (8 / 10))
       1 0 0 0 2700].

(** Two spheres as [dropRigidBody] creates them (radius 0.8, density 2700) on
    the x axis with their centres 0.0005 apart, approaching head-on at
    speed 1. *)
Definition closeLeft : RigidBody :=
  sphereAt (8 / 10) 2700 (mkVector3 0 0 0) (mkVector3 1 0 0).

Definition closeRight : RigidBody :=
  sphereAt (8 / 10) 2700 (mkVector3 (1 / 2000) 0 0) (mkVector3 (-1) 0 0).

(** ** The single-precision store ([Float32Array])

    Writing a number to a slot of a [Float32Array] rounds it to the nearest
    binary32 number, ties to even; [Math.fround] is the same conversion.
    [binade x] is the exponent [e] with [2 ^ e <= |x| < 2 ^ (e + 1)];
    the binary32 numbers around [x] are the multiples of [quantum x],
    24 significant bits down to the exponent -126 and the multiples of
    [2 ^ -149] below.  [R] has no infinity: a value that rounds to a
    magnitude of [2 ^ 128] or more (stored as [Infinity]) is outside the
    model. *)

Definition binade (x : R) : Z := Int_part (ln (Rabs x) / ln 2).

Definition quantum (x : R) : R := powerRZ 2 (Z.max (binade x) (-126) - 23).

Definition roundTiesToEven (y : R) : Z :=
  let f := Int_part y in
  let r := y - IZR f in
  if r <? 1 / 2 then f
  else if 1 / 2 <? r then (f + 1)%Z
  else if Z.even f then f else (f + 1)%Z.

Definition fround (x : R) : R :=
  IZR (roundTiesToEven (x / quantum x)) * quantum x.

(** *** The rigid coupling pass on the stored arrays

    [positions] and [velocities] are [Float32Array]s: what a later read
    finds in a slot is the rounding of what was written to it.  [Stored] is
    [handleRigidBodyCollisions] with that rounding at every write. *)
Module Stored.

(** [this.positions[i * 3 + k] = x]. *)
Definition setPos (i k : nat) (x : R) (s : ParticleSystem) : ParticleSystem :=
  setPos i k (fround x) s.

(** [this.velocities[i * 3 + k] = x]. *)
Definition setVel (i k : nat) (x : R) (s : ParticleSystem) : ParticleSystem :=
  setVel i k (fround x) s.

Definition sphereTest (i : nat) (dx dy dz : R) (body : RigidBody)
    (s : ParticleSystem) : ParticleSystem :=
  let dist := sqrt (dx * dx + dy * dy + dz * dz) in
  let radius := vx (size body) in
  if (dist <? radius) && (dist >? 0) then
    let nx := dx / dist in
    let ny := dy / dist in
    let nz := dz / dist in
    let s := setPos i 0 (vx (position body) + nx * radius) s in
    let s := setPos i 1 (vy (position body) + ny * radius) s in
    let s := setPos i 2 (vz (position body) + nz * radius) s in
    let dot := getVel i 0 s * nx + getVel i 1 s * ny + getVel i 2 s * nz in
    if dot <? 0 then
      let s := setVel i 0 (getVel i 0 s - 2 * dot * nx) s in
      let s := setVel i 1 (getVel i 1 s - 2 * dot * ny) s in
      let s := setVel i 2 (getVel i 2 s - 2 * dot * nz) s in
      let s := setVel i 0 (getVel i 0 s * damping (params s)) s in
      let s := setVel i 1 (getVel i 1 s * damping (params s)) s in
      let s := setVel i 2 (getVel i 2 s * damping (params s)) s in
      s
    else s
  else s.

Definition cubeTest (i : nat) (dx dy dz : R) (body : RigidBody)
    (s : ParticleSystem) : ParticleSystem :=
  let halfX := vx (size body) * (5 / 10) in
  let halfY := vy (size body) * (5 / 10) in
  let halfZ := vz (size body) * (5 / 10) in
  if (Rabs dx <? halfX) && (Rabs dy <? halfY) && (Rabs dz <? halfZ) then
    let penX := halfX - Rabs dx in
    let penY := halfY - Rabs dy in
    let penZ := halfZ - Rabs dz in
    let minPen := Rmin (Rmin penX penY) penZ in
    if minPen =? penX then
      let sign := if dx >? 0 then 1 else -1 in
      let s := setPos i 0 (vx (position body) + sign * halfX) s in
      let s := setVel i 0 (Rabs (getVel i 0 s) * sign * damping (params s)) s in
      s
    else if minPen =? penY then
      let sign := if dy >? 0 then 1 else -1 in
      let s := setPos i 1 (vy (position body) + sign * halfY) s in
      let s := setVel i 1 (Rabs (getVel i 1 s) * sign * damping (params s)) s in
      s
    else
      let sign := if dz >? 0 then 1 else -1 in
      let s := setPos i 2 (vz (position body) + sign * halfZ) s in
      let s := setVel i 2 (Rabs (getVel i 2 s) * sign * damping (params s)) s in
      s
  else s.

Definition collideWithBody (i : nat) (px py pz : R) (body : RigidBody)
    (w : World) : World :=
  let dx := px - vx (position body) in
  let dy := py - vy (position body) in
  let dz := pz - vz (position body) in
  match type body with
  | sphere | cylinder | torus => onParticles (sphereTest i dx dy dz body) w
  | cube => onParticles (cubeTest i dx dy dz body) w
  | _ => w
  end.

Definition handleRigidBodyCollisions (i : nat) (w : World) : World :=
  let px := getPos i 0 (particleSystem w) in
  let py := getPos i 1 (particleSystem w) in
  let pz := getPos i 2 (particleSystem w) in
  forBodies (collideWithBody i px py pz) w.

End Stored.

(** One particle at (0.25, 0.25, 0.25), inside a sphere of radius 0.8 at the
    origin, with velocity (1, -1, -2^-30): it grazes the radius through it,
    slightly inward.  All six numbers are binary32 numbers. *)
Definition grazingWorld : World :=
  mkWorld
    (mkParticleSystem 1 defaultParams
       [1 / 4; 1 / 4; 1 / 4] [1; -1; - / 2 ^ 30] [1000] [0] [0; 0; 0])
    [droppedSphere (mkVector3 0 0 0)].

(** ** Further vocabulary and scenarios; the initial state, the object
    handling, the orbit controls and the particle colours *)

(** The particle at [(px, py, pz)] is not touched by the test of [body]: the
    body's type has no test, or the particle is at the centre of, on or
    outside a sphere-tested body, or not strictly inside a cube. *)
Definition clearOfBody (px py pz : R) (body : RigidBody) : Prop :=
  let dx := px - vx (position body) in
  let dy := py - vy (position body) in
  let dz := pz - vz (position body) in
  match type body with
  | sphere | cylinder | torus =>
      vx (size body) <= sqrt (dx * dx + dy * dy + dz * dz)
      \/ sqrt (dx * dx + dy * dy + dz * dz) = 0
  | cube =>
      vx (size body) * (5 / 10) <= Rabs dx
      \/ vy (size body) * (5 / 10) <= Rabs dy
      \/ vz (size body) * (5 / 10) <= Rabs dz
  | _ => True
  end.

(** A cube as [dropRigidBody] creates it (edge 1.5), centred at the origin. *)
Definition droppedCube : RigidBody :=
  newRigidBody cube (mkVector3 0 0 0) (mkVector3 (15 / 10) (15 / 10) (15 / 10))
    1 0 0 0 2700.

(** The sum of the linear velocities of a list of bodies. *)
Definition totalVelocity (bodies : list RigidBody) : Vector3 :=
  fold_right (fun b acc => Vec.add (velocity b) acc) Vec.zero bodies.

(** Two bodies [checkObjectCollisions] does not treat as colliding: their
    centres are less than 0.001 apart, or at least the sum of their
    collision radii apart. *)
Definition notInContact (a b : RigidBody) : Prop :=
  Vec.length (Vec.sub (position a) (position b)) < 1 / 1000
  \/ collisionRadius a + collisionRadius b
     <= Vec.length (Vec.sub (position a) (position b)).

Definition pairwise (P : RigidBody -> RigidBody -> Prop)
    (bodies : list RigidBody) : Prop :=
  forall i j a b, i <> j -> bodies !! i = Some a -> bodies !! j = Some b -> P a b.

(** No component of [v'] is larger in magnitude than that of [v]. *)
Definition slower (v' v : Vector3) : Prop :=
  Rabs (vx v') <= Rabs (vx v) /\ Rabs (vy v') <= Rabs (vy v)
  /\ Rabs (vz v') <= Rabs (vz v).

(** Two states of a body that differ in its motion only: the type, the
    sizes, the scale, the rotation set by the user and the density agree. *)
Definition same_build (a b : RigidBody) : Prop :=
  type b = type a /\ size b = size a /\ baseSize b = baseSize a
  /\ scale b = scale a /\ rotationX b = rotationX a /\ rotationY b = rotationY a
  /\ rotationZ b = rotationZ a /\ density b = density a.

(** ** Initial state ([ParticleSystem.initParticleArrays], [constructor],
    [reset]) *)

(** [Math.ceil]. *)
Definition jsCeil (x : R) : Z := (- Int_part (- x))%Z.

(** [Math.pow (n, 1/3)] for a particle count; the power of zero is zero. *)
Definition cubeRoot (n : nat) : R :=
  if INR n =? 0 then 0 else Rpower (INR n) (1 / 3).

(** [cubeSize]: a count of lattice points, used as a divisor below. *)
Definition cubeSize (n : nat) : nat := Z.to_nat (jsCeil (cubeRoot n)).

Definition spacing : R := 3 / 10.

(** The lattice point of particle [i]; [%] and [Math.floor (_ / _)] act on
    non-negative integers and are the remainder and the quotient. *)
Definition latticePoint (cubeSize i : nat) : Vector3 :=
  let offset := INR cubeSize * spacing / 2 in
  mkVector3 (INR (i mod cubeSize) * spacing - offset)
            (INR (i / (cubeSize * cubeSize)) * spacing + 5)
            (INR ((i mod (cubeSize * cubeSize)) / cubeSize) * spacing - offset).

(** One turn of the loop.  [random k] is the value of the [k]-th call of
    [Math.random] made by this run of [initParticleArrays]; every turn
    makes five calls. *)
Definition initParticle (random : nat -> R) (cubeSize i : nat)
    (s : ParticleSystem) : ParticleSystem :=
  let p := latticePoint cubeSize i in
  let s := setPos i 0 (vx p + (random (5 * i)%nat - 5 / 10) * (1 / 10)) s in
  let s := setPos i 1 (vy p + (random (5 * i + 1)%nat - 5 / 10) * (1 / 10)) s in
  let s := setPos i 2 (vz p + (random (5 * i + 2)%nat - 5 / 10) * (1 / 10)) s in
  let s := setVel i 0 ((random (5 * i + 3)%nat - 5 / 10) * (5 / 10)) s in
  let s := setVel i 1 0 s in
  let s := setVel i 2 ((random (5 * i + 4)%nat - 5 / 10) * (5 / 10)) s in
  s.

(** The method replaces the five arrays of the object it is called on by
    fresh ones, filled with zeros, and then places the particles. *)
Definition initParticleArrays (random : nat -> R) (s : ParticleSystem)
    : ParticleSystem :=
  let n := numParticles s in
  let s := mkParticleSystem n (params s)
             (replicate (n * 3) 0) (replicate (n * 3) 0)
             (replicate n 0) (replicate n 0) (replicate (n * 3) 0) in
  forRange n (initParticle random (cubeSize n)) s.

(** The constructor stores the count and the parameters and calls
    [initParticleArrays]. *)
Definition newParticleSystem (random : nat -> R) (numParticles : nat)
    (prm : Params) : ParticleSystem :=
  initParticleArrays random (mkParticleSystem numParticles prm [] [] [] [] []).

(** [ParticleSystem.reset]. *)
Definition resetParticles (random : nat -> R) (s : ParticleSystem)
    : ParticleSystem :=
  initParticleArrays random s.

(** The particle the loop writes into slot [i]. *)
Definition initialParticle (random : nat -> R) (cubeSize i : nat) : Particle :=
  let p := latticePoint cubeSize i in
  mkParticle
    (mkVector3 (vx p + (random (5 * i)%nat - 5 / 10) * (1 / 10))
               (vy p + (random (5 * i + 1)%nat - 5 / 10) * (1 / 10))
               (vz p + (random (5 * i + 2)%nat - 5 / 10) * (1 / 10)))
    (mkVector3 ((random (5 * i + 3)%nat - 5 / 10) * (5 / 10)) 0
               ((random (5 * i + 4)%nat - 5 / 10) * (5 / 10))).

(** ** Object handling ([RigidBody.setScale], [setRotation], and the
    object methods of [FluidSimulator]) *)

Definition setScale (sc : R) (b : RigidBody) : RigidBody :=
  mkRigidBody (type b) (position b) (Vec.multiplyScalar (baseSize b) sc)
    (baseSize b) sc (velocity b) (angularVelocity b) (physicalRotation b)
    (rotationX b) (rotationY b) (rotationZ b) (density b).

Definition setRotation (xDegrees yDegrees zDegrees : R) (b : RigidBody)
    : RigidBody :=
  mkRigidBody (type b) (position b) (size b) (baseSize b) (scale b)
    (velocity b) (angularVelocity b) (physicalRotation b)
    xDegrees yDegrees zDegrees (density b).

Definition setRotationAngle (angleDegrees : R) (b : RigidBody) : RigidBody :=
  setRotation 0 angleDegrees 0 b.

(** The assignment [body.density = value]. *)
Definition setBodyDensity (d : R) (b : RigidBody) : RigidBody :=
  mkRigidBody (type b) (position b) (size b) (baseSize b) (scale b)
    (velocity b) (angularVelocity b) (physicalRotation b)
    (rotationX b) (rotationY b) (rotationZ b) d.

(** [FluidSimulator.objectParams]. *)
Module Obj.
Record ObjectParams : Type := mkObjectParams {
  gravity : R;
  scale : R;
  rotationX : R;
  rotationY : R;
  rotationZ : R;
  density : R
}.
End Obj.

(** The names of the object sliders. *)
Inductive ObjectParam : Type :=
  | param_gravity | param_scale | param_rotationX | param_rotationY
  | param_rotationZ | param_density.

(** The simulator as far as the objects go.  [ids] holds [body.id] of the
    body at the same place of [rigidBodies]; [selectedObjectIndex] is
    [None] for ['all']. *)
Record Simulator : Type := mkSimulator {
  world : World;
  ids : list nat;
  objectCounter : nat;
  selectedObjectIndex : option nat;
  objectParams : Obj.ObjectParams;
  paused : bool
}.

(** [x || d] on numbers: zero is falsy. *)
Definition orElse (x d : R) : R := if x =? 0 then d else x.

(** The [switch] of [dropRigidBody]. *)
Definition dropSize (t : BodyType) : Vector3 :=
  match t with
  | sphere => mkVector3 (8 / 10) (8 / 10) (8 / 10)
  | cube => mkVector3 (15 / 10) (15 / 10) (15 / 10)
  | cylinder => mkVector3 (6 / 10) (15 / 10) (6 / 10)
  | torus => mkVector3 (8 / 10) (3 / 10) (3 / 10)
  | cone => mkVector3 (8 / 10) (15 / 10) (8 / 10)
  | boat => mkVector3 (25 / 10) (6 / 10) (12 / 10)
  | hollow_sphere => mkVector3 1 1 1
  | hollow_cube => mkVector3 (15 / 10) (15 / 10) (15 / 10)
  | hollow_cylinder => mkVector3 (7 / 10) (15 / 10) (7 / 10)
  end.

(** The body [dropRigidBody] creates; [r1] and [r2] are the two values of
    [Math.random]. *)
Definition droppedBody (r1 r2 : R) (t : BodyType) (op : Obj.ObjectParams)
    : RigidBody :=
  newRigidBody t (mkVector3 ((r1 - 5 / 10) * 4) 10 ((r2 - 5 / 10) * 4))
    (dropSize t)
    (orElse (Obj.scale op) 1) (orElse (Obj.rotationX op) 0)
    (orElse (Obj.rotationY op) 0) (orElse (Obj.rotationZ op) 0)
    (orElse (Obj.density op) 2700).

Definition dropRigidBody (r1 r2 : R) (t : BodyType) (sim : Simulator)
    : Simulator :=
  let body := droppedBody r1 r2 t (objectParams sim) in
  let objectCounter := S (objectCounter sim) in
  mkSimulator
    (mkWorld (particleSystem (world sim)) (rigidBodies (world sim) ++ [body]))
    (ids sim ++ [objectCounter]) objectCounter
    (selectedObjectIndex sim) (objectParams sim) (paused sim).

Definition applySingleParam (op : Obj.ObjectParams) (param : ObjectParam)
    (value : R) (body : RigidBody) : RigidBody :=
  match param with
  | param_scale => setScale value body
  | param_rotationX | param_rotationY | param_rotationZ =>
      setRotation (Obj.rotationX op) (Obj.rotationY op) (Obj.rotationZ op) body
  | param_density => setBodyDensity value body
  | param_gravity => body
  end.

(** [Array.prototype.findIndex] on the ids. *)
Fixpoint findId (sel : nat) (l : list nat) : option nat :=
  match l with
  | [] => None
  | x :: l' => if Nat.eqb x sel then Some 0%nat
               else option_map S (findId sel l')
  end.

Definition applyParamToSelectedObject (param : ObjectParam) (value : R)
    (sim : Simulator) : Simulator :=
  let f := applySingleParam (objectParams sim) param value in
  let bodies :=
    match selectedObjectIndex sim with
    | None => map f (rigidBodies (world sim))
    | Some sel =>
        match findId sel (ids sim) with
        | Some k => alter f k (rigidBodies (world sim))
        | None => rigidBodies (world sim)
        end
    end in
  mkSimulator (mkWorld (particleSystem (world sim)) bodies)
    (ids sim) (objectCounter sim) (selectedObjectIndex sim)
    (objectParams sim) (paused sim).

(** The assignment [this.objectParams[param] = value] of the sliders. *)
Definition setObjectParam (param : ObjectParam) (value : R)
    (op : Obj.ObjectParams) : Obj.ObjectParams :=
  match param with
  | param_gravity =>
      Obj.mkObjectParams value (Obj.scale op) (Obj.rotationX op)
        (Obj.rotationY op) (Obj.rotationZ op) (Obj.density op)
  | param_scale =>
      Obj.mkObjectParams (Obj.gravity op) value (Obj.rotationX op)
        (Obj.rotationY op) (Obj.rotationZ op) (Obj.density op)
  | param_rotationX =>
      Obj.mkObjectParams (Obj.gravity op) (Obj.scale op) value
        (Obj.rotationY op) (Obj.rotationZ op) (Obj.density op)
  | param_rotationY =>
      Obj.mkObjectParams (Obj.gravity op) (Obj.scale op) (Obj.rotationX op)
        value (Obj.rotationZ op) (Obj.density op)
  | param_rotationZ =>
      Obj.mkObjectParams (Obj.gravity op) (Obj.scale op) (Obj.rotationX op)
        (Obj.rotationY op) value (Obj.density op)
  | param_density =>
      Obj.mkObjectParams (Obj.gravity op) (Obj.scale op) (Obj.rotationX op)
        (Obj.rotationY op) (Obj.rotationZ op) value
  end.

(** The listener of an object slider. *)
Definition objectSliderInput (param : ObjectParam) (value : R)
    (sim : Simulator) : Simulator :=
  let sim :=
    mkSimulator (world sim) (ids sim) (objectCounter sim)
      (selectedObjectIndex sim)
      (setObjectParam param value (objectParams sim)) (paused sim) in
  applyParamToSelectedObject param value sim.

Definition clearObjects (sim : Simulator) : Simulator :=
  mkSimulator (mkWorld (particleSystem (world sim)) []) [] (objectCounter sim)
    None (objectParams sim) (paused sim).

(** [FluidSimulator.setDensity]. *)
Definition setObjectDensity (d : R) (sim : Simulator) : Simulator :=
  mkSimulator
    (mkWorld (particleSystem (world sim))
       (map (setBodyDensity d) (rigidBodies (world sim))))
    (ids sim) (objectCounter sim) (selectedObjectIndex sim)
    (setObjectParam param_density d (objectParams sim)) (paused sim).

(** [FluidSimulator.reset]; [numParticles] is [this.params.numParticles]
    and [random] the values of [Math.random] the new particle system
    draws. *)
Definition reset (random : nat -> R) (numParticles : nat) (sim : Simulator)
    : Simulator :=
  mkSimulator
    (mkWorld
       (newParticleSystem random numParticles
          (params (particleSystem (world sim)))) [])
    [] 0 None (objectParams sim) false.

(** The ids are in step with the bodies, pairwise different, and none is
    above the counter. *)
Definition tracked (sim : Simulator) : Prop :=
  length (ids sim) = length (rigidBodies (world sim))
  /\ NoDup (ids sim)
  /\ Forall (fun k => (k <= objectCounter sim)%nat) (ids sim).

(** The physics size of a body is its base size times its scale. *)
Definition scaled (b : RigidBody) : Prop :=
  size b = Vec.multiplyScalar (baseSize b) (scale b).

(** [objectParams] as the constructor of [FluidSimulator] sets it. *)
Definition defaultObjectParams : Obj.ObjectParams :=
  Obj.mkObjectParams (- (98 / 10)) 1 0 0 0 2700.

(** A simulator holding [sparseWorld], whose one body has id 1. *)
Definition sparseSimulator : Simulator :=
  mkSimulator sparseWorld [1%nat] 1 None defaultObjectParams false.

(** The same simulator with the body of id 1 selected. *)
Definition selectingSimulator : Simulator :=
  mkSimulator sparseWorld [1%nat] 1 (Some 1%nat) defaultObjectParams false.

(** ** Orbit controls ([FluidSimulator.setupControls],
    [updateCameraPosition]) *)

(** The fields the controls read and write; [cameraPosition] is
    [this.camera.position]. *)
Record Controls : Type := mkControls {
  isDragging : bool;
  previousMousePosition : R * R;
  theta : R;
  phi : R;
  cameraDistance : R;
  cameraPosition : Vector3
}.

(** The state after [init] and [setupControls]: the camera is where [init]
    has put it, at [(15, 10, 15)]. *)
Definition initialControls : Controls :=
  mkControls false (0, 0) (PI / 4) (PI / 6) 25 (mkVector3 15 10 15).

(** [updateCameraPosition] moves the camera; it looks at [(0, 3, 0)]. *)
Definition updateCameraPosition (c : Controls) : Controls :=
  let x := cameraDistance c * sin (phi c) * cos (theta c) in
  let y := cameraDistance c * cos (phi c) in
  let z := cameraDistance c * sin (phi c) * sin (theta c) in
  mkControls (isDragging c) (previousMousePosition c) (theta c) (phi c)
    (cameraDistance c) (mkVector3 x (y + 3) z).

Definition lookAtPoint : Vector3 := mkVector3 0 3 0.

Definition mousedown (clientX clientY : R) (c : Controls) : Controls :=
  mkControls true (clientX, clientY) (theta c) (phi c) (cameraDistance c)
    (cameraPosition c).

Definition mousemove (clientX clientY : R) (c : Controls) : Controls :=
  if isDragging c then
    let deltaX := clientX - fst (previousMousePosition c) in
    let deltaY := clientY - snd (previousMousePosition c) in
    let c := mkControls (isDragging c) (previousMousePosition c)
               (theta c - deltaX * (5 / 1000)) (phi c - deltaY * (5 / 1000))
               (cameraDistance c) (cameraPosition c) in
    let c := mkControls (isDragging c) (previousMousePosition c) (theta c)
               (Rmax (1 / 10) (Rmin (PI - 1 / 10) (phi c)))
               (cameraDistance c) (cameraPosition c) in
    let c := updateCameraPosition c in
    mkControls (isDragging c) (clientX, clientY) (theta c) (phi c)
      (cameraDistance c) (cameraPosition c)
  else c.

Definition mouseup (c : Controls) : Controls :=
  mkControls false (previousMousePosition c) (theta c) (phi c)
    (cameraDistance c) (cameraPosition c).

Definition wheel (deltaY : R) (c : Controls) : Controls :=
  let d := cameraDistance c + deltaY * (1 / 100) in
  let d := Rmax 5 (Rmin 50 d) in
  updateCameraPosition
    (mkControls (isDragging c) (previousMousePosition c) (theta c) (phi c) d
       (cameraPosition c)).

(** The polar angle and the distance are within their clamps. *)
Definition framed (c : Controls) : Prop :=
  1 / 10 <= phi c <= PI - 1 / 10 /\ 5 <= cameraDistance c <= 50.

(** The camera is at its distance from the point it looks at, and not on
    the vertical line through that point. *)
Definition onOrbit (c : Controls) : Prop :=
  Vec.length (Vec.sub (cameraPosition c) lookAtPoint) = cameraDistance c
  /\ 0 < vx (cameraPosition c) * vx (cameraPosition c)
         + vz (cameraPosition c) * vz (cameraPosition c).

(** ** Particle colours ([ParticleSystem.updateColors]) *)

Definition brightness (speed : R) : R :=
  let speedFactor := Rmin (speed / 10) 1 in
  6 / 10 + speedFactor * (4 / 10).

(** One turn of the loop; [color] is the base colour [THREE.Color] has
    parsed, [colors] the colour array of the geometry. *)
Definition updateColorAt (color : Vector3) (s : ParticleSystem) (i : nat)
    (colors : list R) : list R :=
  let vx' := getVel i 0 s in
  let vy' := getVel i 1 s in
  let vz' := getVel i 2 s in
  let speed := sqrt (vx' * vx' + vy' * vy' + vz' * vz') in
  let colors := <[idx i 0 := vx color * brightness speed]> colors in
  let colors := <[idx i 1 := vy color * brightness speed]> colors in
  let colors := <[idx i 2 := vz color * brightness speed]> colors in
  colors.

Definition updateColors (color : Vector3) (s : ParticleSystem)
    (colors : list R) : list R :=
  forRange (numParticles s) (updateColorAt color s) colors.

(** The colour [updateColors] gives particle [i]. *)
Definition colorOf (color : Vector3) (s : ParticleSystem) (i : nat) : Vector3 :=
  Vec.multiplyScalar color (brightness (Vec.length (vel (particle i s)))).

Definition colorAt (i : nat) (colors : list R) : Vector3 :=
  mkVector3 (colors !!! idx i 0) (colors !!! idx i 1) (colors !!! idx i 2).

(** A cylinder as [dropRigidBody] creates it, at rest and reaching 0.6
    below the floor of the default domain. *)
Definition sunkCylinder : RigidBody :=
  newRigidBody cylinder (mkVector3 0 (-5) 0)
    (mkVector3 (6 / 10) (15 / 10) (6 / 10)) 1 0 0 0 2700.

(** A cube as [dropRigidBody] creates it, at rest and reaching 0.75 below
    the floor of the default domain. *)
Definition sunkCube : RigidBody :=
  newRigidBody cube (mkVector3 0 (-5) 0)
    (mkVector3 (15 / 10) (15 / 10) (15 / 10)) 1 0 0 0 2700.

(** The body after the free-flight part of [update]: buoyancy, drag, the
    move and the spin. *)
Definition freeFlight (dt gravity fluidDensity : R) (b : RigidBody) : RigidBody :=
  spin dt (moveBody dt (applyDrag dt fluidDensity
                          (applyBuoyancy dt gravity fluidDensity b))).

(** * Properties *)

(** ** Comparisons *)

Lemma Rltb_true x y : (x <? y) = true <-> x < y.
Proof. unfold Rltb; destruct (Rlt_dec x y); split; (easy || lra). Qed.

Lemma Rltb_false x y : (x <? y) = false <-> y <= x.
Proof. unfold Rltb; destruct (Rlt_dec x y); split; (easy || lra). Qed.

Lemma Rleb_true x y : (x <=? y) = true <-> x <= y.
Proof. unfold Rleb; destruct (Rle_dec x y); split; (easy || lra). Qed.

Lemma Rleb_false x y : (x <=? y) = false <-> y < x.
Proof. unfold Rleb; destruct (Rle_dec x y); split; (easy || lra). Qed.

Lemma Rgtb_true x y : (x >? y) = true <-> y < x.
Proof. apply Rltb_true. Qed.

Lemma Rgtb_false x y : (x >? y) = false <-> x <= y.
Proof. apply Rltb_false. Qed.

Lemma Rgeb_true x y : (x >=? y) = true <-> y <= x.
Proof. apply Rleb_true. Qed.

Lemma Rgeb_false x y : (x >=? y) = false <-> x < y.
Proof. apply Rleb_false. Qed.

Lemma Reqb_true x y : (x =? y) = true <-> x = y.
Proof. unfold Reqb; destruct (Req_dec_T x y); split; (easy || lra). Qed.

Lemma Reqb_false x y : (x =? y) = false <-> x <> y.
Proof. unfold Reqb; destruct (Req_dec_T x y); split; (easy || lra). Qed.

(** Case analysis on the JavaScript comparisons met in a goal or in the
    hypotheses, keeping the real (in)equality each branch stands for. *)
Ltac js_cases :=
  repeat match goal with
  | |- context [?x <? ?y] =>
      let E := fresh "E" in
      destruct (x <? y) eqn:E;
      [apply Rltb_true in E | apply Rltb_false in E]
  | |- context [?x <=? ?y] =>
      let E := fresh "E" in
      destruct (x <=? y) eqn:E;
      [apply Rleb_true in E | apply Rleb_false in E]
  | |- context [?x >? ?y] =>
      let E := fresh "E" in
      destruct (x >? y) eqn:E;
      [apply Rgtb_true in E | apply Rgtb_false in E]
  | |- context [?x >=? ?y] =>
      let E := fresh "E" in
      destruct (x >=? y) eqn:E;
      [apply Rgeb_true in E | apply Rgeb_false in E]
  | |- context [?x =? ?y] =>
      let E := fresh "E" in
      destruct (x =? y) eqn:E;
      [apply Reqb_true in E | apply Reqb_false in E]
  end; cbn [andb orb negb].

(** ** Norms *)

Lemma sumsq_nonneg (x y z : R) : 0 <= x * x + y * y + z * z.
Proof. nra. Qed.

Lemma norm_nonneg (x y z : R) : 0 <= sqrt (x * x + y * y + z * z).
Proof. apply sqrt_pos. Qed.

Lemma norm_sqr (x y z : R) :
  sqrt (x * x + y * y + z * z) * sqrt (x * x + y * y + z * z)
  = x * x + y * y + z * z.
Proof. apply sqrt_sqrt, sumsq_nonneg. Qed.

Lemma norm_opp (x y z : R) :
  sqrt (- x * - x + - y * - y + - z * - z) = sqrt (x * x + y * y + z * z).
Proof. f_equal; ring. Qed.

Lemma abs_le_norm_x (x y z : R) : Rabs x <= sqrt (x * x + y * y + z * z).
Proof.
  rewrite <- sqrt_Rsqr_abs. apply sqrt_le_1_alt. unfold Rsqr. nra.
Qed.

Lemma abs_le_norm_y (x y z : R) : Rabs y <= sqrt (x * x + y * y + z * z).
Proof.
  rewrite <- sqrt_Rsqr_abs. apply sqrt_le_1_alt. unfold Rsqr. nra.
Qed.

Lemma abs_le_norm_z (x y z : R) : Rabs z <= sqrt (x * x + y * y + z * z).
Proof.
  rewrite <- sqrt_Rsqr_abs. apply sqrt_le_1_alt. unfold Rsqr. nra.
Qed.

(** ** Kernels *)

Lemma pow_pos_lt (h : R) (n : nat) : 0 < h -> 0 < h ^ n.
Proof. intros; now apply pow_lt. Qed.

Lemma poly6_coef_pos (h : R) : 0 < h -> 0 < 315 / (64 * PI * h ^ 9).
Proof.
  intros Hh. pose proof PI_RGT_0. pose proof (pow_pos_lt h 9 Hh).
  apply Rdiv_lt_0_compat; [lra | nra].
Qed.

Lemma spiky_coef_pos (h : R) : 0 < h -> 0 < 45 / (PI * h ^ 6).
Proof.
  intros Hh. pose proof PI_RGT_0. pose proof (pow_pos_lt h 6 Hh).
  apply Rdiv_lt_0_compat; [lra | nra].
Qed.

Lemma poly6Kernel_outside (r h : R) : h < r -> poly6Kernel r h = 0.
Proof. intros Hr. unfold poly6Kernel. js_cases; (reflexivity || lra). Qed.

Lemma viscosityLaplacian_outside (r h : R) : h < r -> viscosityLaplacian r h = 0.
Proof. intros Hr. unfold viscosityLaplacian. js_cases; (reflexivity || lra). Qed.

Lemma spikyGradient_outside (rx ry rz h : R) :
  h < sqrt (rx * rx + ry * ry + rz * rz) ->
  spikyGradient rx ry rz h = mkVector3 0 0 0.
Proof. intros Hr. unfold spikyGradient. js_cases; (reflexivity || lra). Qed.

Lemma poly6Kernel_inside (r h : R) :
  0 <= r <= h ->
  poly6Kernel r h
  = 315 / (64 * PI * h ^ 9) * (h * h - r * r) * (h * h - r * r) * (h * h - r * r).
Proof. intros Hr. unfold poly6Kernel. js_cases; (reflexivity || lra). Qed.


Lemma poly6Kernel_nonneg (r h : R) : 0 < h -> 0 <= poly6Kernel r h.
Proof.
  intros Hh. unfold poly6Kernel. js_cases; try lra.
  pose proof (poly6_coef_pos h Hh) as Hc.
  assert (0 <= h * h - r * r) by nra.
  apply Rlt_le in Hc.
  apply Rmult_le_pos; [apply Rmult_le_pos; [apply Rmult_le_pos|]|]; assumption.
Qed.

Lemma poly6Kernel_self (h : R) :
  0 < h -> poly6Kernel 0 h = 315 / (64 * PI * h ^ 3).
Proof.
  intros Hh. rewrite poly6Kernel_inside by lra.
  pose proof PI_RGT_0. field. split; lra.
Qed.

(** A function that takes, at each point, either 0 or the value of a
    function continuous at [a] and vanishing there, is continuous at [a]. *)
Lemma continuity_pt_zero_or (f g : R -> R) (a : R) :
  (forall x, f x = 0 \/ f x = g x) ->
  f a = 0 -> g a = 0 -> continuity_pt g a -> continuity_pt f a.
Proof.
  intros Hf Hfa Hga Hg eps Heps.
  destruct (Hg eps Heps) as (alp & Halp & H).
  exists alp. split; [exact Halp|].
  intros x Hx. specialize (H x Hx).
  rewrite Hfa. rewrite Hga in H.
  destruct (Hf x) as [-> | ->]; [|exact H].
  rewrite Rdist_eq. lra.
Qed.

Lemma poly6Kernel_continuous_at_h (h : R) :
  continuity_pt (fun r => poly6Kernel r h) h.
Proof.
  apply continuity_pt_zero_or with
    (g := fun r => 315 / (64 * PI * h ^ 9)
                   * (h * h - r * r) * (h * h - r * r) * (h * h - r * r)).
  - intros r. unfold poly6Kernel. js_cases; auto.
  - unfold poly6Kernel. js_cases; auto. ring.
  - ring.
  - apply derivable_continuous_pt. reg.
Qed.

Lemma viscosityLaplacian_continuous_at_h (h : R) :
  continuity_pt (fun r => viscosityLaplacian r h) h.
Proof.
  apply continuity_pt_zero_or with
    (g := fun r => 45 / (PI * h ^ 6) * (h - r)).
  - intros r. unfold viscosityLaplacian. js_cases; auto.
  - unfold viscosityLaplacian. js_cases; auto. ring.
  - ring.
  - apply derivable_continuous_pt. reg.
Qed.

Lemma sqr_nonneg (x : R) : 0 <= x * x.
Proof. nra. Qed.

(** Every component of the spiky gradient is bounded by the radial profile
    [45 / (PI h^6) * (h - r)^2]. *)
Lemma spikyGradient_bound (rx ry rz h : R) :
  0 < h ->
  let r := sqrt (rx * rx + ry * ry + rz * rz) in
  let g := spikyGradient rx ry rz h in
  let m := 45 / (PI * h ^ 6) * ((h - r) * (h - r)) in
  Rabs (vx g) <= m /\ Rabs (vy g) <= m /\ Rabs (vz g) <= m.
Proof.
  intros Hh r g m.
  pose proof (spiky_coef_pos h Hh) as Hc.
  assert (Hm : 0 <= m).
  { unfold m. apply Rmult_le_pos; [lra | apply sqr_nonneg]. }
  pose proof (abs_le_norm_x rx ry rz) as Hx.
  pose proof (abs_le_norm_y rx ry rz) as Hy.
  pose proof (abs_le_norm_z rx ry rz) as Hz.
  fold r in Hx, Hy, Hz.
  unfold g, spikyGradient. fold r.
  js_cases; cbn [vx vy vz]; rewrite ?Rabs_R0; auto.
  assert (Hk : forall c, Rabs c <= r ->
             Rabs (- 45 / (PI * h ^ 6) * ((h - r) * (h - r) / r) * c) <= m).
  { intros c Hcr.
    replace (- 45 / (PI * h ^ 6) * ((h - r) * (h - r) / r) * c)
      with (- (45 / (PI * h ^ 6) * ((h - r) * (h - r)) * (c / r)))
      by (pose proof PI_RGT_0; field; repeat split; lra).
    rewrite Rabs_Ropp, Rabs_mult. fold m.
    rewrite (Rabs_pos_eq m) by exact Hm.
    rewrite <- (Rmult_1_r m) at 2.
    apply Rmult_le_compat_l; [exact Hm|].
    unfold Rdiv. rewrite Rabs_mult, (Rabs_pos_eq (/ r)).
    - apply Rmult_le_reg_r with r; [lra|].
      rewrite Rmult_assoc, Rinv_l by lra. lra.
    - apply Rlt_le, Rinv_0_lt_compat. lra. }
  auto.
Qed.

(** The spiky gradient tends to the zero vector as the separation tends to
    [h], uniformly in the direction. *)
Lemma spikyGradient_vanishes_at_h (h : R) :
  0 < h ->
  forall eps, 0 < eps ->
  exists delta, 0 < delta /\
    forall rx ry rz,
      Rabs (sqrt (rx * rx + ry * ry + rz * rz) - h) < delta ->
      Rabs (vx (spikyGradient rx ry rz h)) < eps
      /\ Rabs (vy (spikyGradient rx ry rz h)) < eps
      /\ Rabs (vz (spikyGradient rx ry rz h)) < eps.
Proof.
  intros Hh eps Heps.
  pose proof (spiky_coef_pos h Hh) as Hc.
  set (C := 45 / (PI * h ^ 6)) in *.
  exists (Rmin 1 (eps / (2 * C))).
  assert (Hq : 0 < eps / (2 * C)) by (apply Rdiv_lt_0_compat; lra).
  split; [apply Rmin_glb_lt; lra|].
  intros rx ry rz Hr.
  pose proof (spikyGradient_bound rx ry rz h Hh) as Hb. cbv zeta in Hb.
  fold C in Hb.
  set (r := sqrt (rx * rx + ry * ry + rz * rz)) in *.
  assert (Hd1 : Rabs (r - h) < 1).
  { eapply Rlt_le_trans; [exact Hr | apply Rmin_l]. }
  assert (Hd2 : Rabs (r - h) < eps / (2 * C)).
  { eapply Rlt_le_trans; [exact Hr | apply Rmin_r]. }
  assert (Hm : C * ((h - r) * (h - r)) < eps).
  { assert (Hsq : (h - r) * (h - r) <= Rabs (r - h)).
    { apply Rabs_def2 in Hd1. pose proof (Rabs_pos (r - h)).
      pose proof (Rle_abs (r - h)). pose proof (Rle_abs (- (r - h))) as Hn.
      rewrite Rabs_Ropp in Hn.
      replace ((h - r) * (h - r)) with (Rabs (r - h) * Rabs (r - h)).
      - assert (Rabs (r - h) < 1) by (apply Rabs_def1; lra). nra.
      - unfold Rabs. destruct (Rcase_abs (r - h)); ring. }
    assert (C * (eps / (2 * C)) = eps / 2) by (field; lra).
    assert (0 <= Rabs (r - h)) by apply Rabs_pos.
    nra. }
  destruct Hb as (Hx & Hy & Hz). repeat split; lra.
Qed.

(** Triangle inequality of the Euclidean norm, as [Math.sqrt] of the sum of
    squares. *)
Lemma dot_le_norms (x1 x2 x3 y1 y2 y3 : R) :
  x1 * y1 + x2 * y2 + x3 * y3
  <= sqrt (x1 * x1 + x2 * x2 + x3 * x3) * sqrt (y1 * y1 + y2 * y2 + y3 * y3).
Proof.
  pose proof (norm_nonneg x1 x2 x3) as HA. pose proof (norm_nonneg y1 y2 y3) as HB.
  pose proof (norm_sqr x1 x2 x3) as HA2. pose proof (norm_sqr y1 y2 y3) as HB2.
  set (A := sqrt (x1 * x1 + x2 * x2 + x3 * x3)) in *.
  set (B := sqrt (y1 * y1 + y2 * y2 + y3 * y3)) in *.
  apply Rsqr_incr_0_var; [|now apply Rmult_le_pos].
  unfold Rsqr.
  replace (A * B * (A * B)) with ((A * A) * (B * B)) by ring.
  rewrite HA2, HB2.
  pose proof (sqr_nonneg (x1 * y2 - x2 * y1)).
  pose proof (sqr_nonneg (x1 * y3 - x3 * y1)).
  pose proof (sqr_nonneg (x2 * y3 - x3 * y2)).
  nra.
Qed.

Lemma norm_triangle (x1 x2 x3 y1 y2 y3 : R) :
  sqrt ((x1 + y1) * (x1 + y1) + (x2 + y2) * (x2 + y2) + (x3 + y3) * (x3 + y3))
  <= sqrt (x1 * x1 + x2 * x2 + x3 * x3) + sqrt (y1 * y1 + y2 * y2 + y3 * y3).
Proof.
  pose proof (dot_le_norms x1 x2 x3 y1 y2 y3) as Hd.
  pose proof (norm_nonneg x1 x2 x3) as HA. pose proof (norm_nonneg y1 y2 y3) as HB.
  pose proof (norm_sqr x1 x2 x3) as HA2. pose proof (norm_sqr y1 y2 y3) as HB2.
  pose proof (norm_sqr (x1 + y1) (x2 + y2) (x3 + y3)) as HC2.
  set (A := sqrt (x1 * x1 + x2 * x2 + x3 * x3)) in *.
  set (B := sqrt (y1 * y1 + y2 * y2 + y3 * y3)) in *.
  set (C := sqrt _) in *.
  apply Rsqr_incr_0_var; [|lra].
  unfold Rsqr. rewrite HC2. nra.
Qed.

Lemma norm_le_sum_abs (x y z : R) :
  sqrt (x * x + y * y + z * z) <= Rabs x + Rabs y + Rabs z.
Proof.
  pose proof (Rabs_pos x). pose proof (Rabs_pos y). pose proof (Rabs_pos z).
  apply Rsqr_incr_0_var; [|lra].
  unfold Rsqr. rewrite norm_sqr.
  assert (Hx : x * x = Rabs x * Rabs x) by (unfold Rabs; destruct (Rcase_abs x); ring).
  assert (Hy : y * y = Rabs y * Rabs y) by (unfold Rabs; destruct (Rcase_abs y); ring).
  assert (Hz : z * z = Rabs z * Rabs z) by (unfold Rabs; destruct (Rcase_abs z); ring).
  rewrite Hx, Hy, Hz. nra.
Qed.

(** The norm moves by no more than the point does. *)
Lemma norm_lipschitz (x y z a b c : R) :
  Rabs (sqrt (x * x + y * y + z * z) - sqrt (a * a + b * b + c * c))
  <= Rabs (x - a) + Rabs (y - b) + Rabs (z - c).
Proof.
  pose proof (norm_triangle a b c (x - a) (y - b) (z - c)) as H1.
  replace (a + (x - a)) with x in H1 by ring.
  replace (b + (y - b)) with y in H1 by ring.
  replace (c + (z - c)) with z in H1 by ring.
  pose proof (norm_triangle x y z (a - x) (b - y) (c - z)) as H2.
  replace (x + (a - x)) with a in H2 by ring.
  replace (y + (b - y)) with b in H2 by ring.
  replace (z + (c - z)) with c in H2 by ring.
  pose proof (norm_le_sum_abs (x - a) (y - b) (z - c)) as H3.
  pose proof (norm_le_sum_abs (a - x) (b - y) (c - z)) as H4.
  rewrite (Rabs_minus_sym a x), (Rabs_minus_sym b y), (Rabs_minus_sym c z) in H4.
  apply Rabs_le. lra.
Qed.

(** Continuity of the spiky gradient, as a function of the offset, at every
    offset of length [h]. *)
Lemma spikyGradient_continuous_at_h (h ax ay az : R) :
  0 < h ->
  sqrt (ax * ax + ay * ay + az * az) = h ->
  forall eps, 0 < eps ->
  exists delta, 0 < delta /\
    forall rx ry rz,
      Rabs (rx - ax) < delta -> Rabs (ry - ay) < delta -> Rabs (rz - az) < delta ->
      Rabs (vx (spikyGradient rx ry rz h) - vx (spikyGradient ax ay az h)) < eps
      /\ Rabs (vy (spikyGradient rx ry rz h) - vy (spikyGradient ax ay az h)) < eps
      /\ Rabs (vz (spikyGradient rx ry rz h) - vz (spikyGradient ax ay az h)) < eps.
Proof.
  intros Hh Ha eps Heps.
  destruct (spikyGradient_vanishes_at_h h Hh eps Heps) as (d & Hd & H).
  exists (d / 3). split; [lra|].
  intros rx ry rz Hx Hy Hz.
  assert (Hz0 : spikyGradient ax ay az h = mkVector3 0 0 0).
  { unfold spikyGradient. rewrite Ha. js_cases; [|reflexivity..].
    f_equal; unfold Rdiv; ring. }
  rewrite Hz0. cbn [vx vy vz]. rewrite !Rminus_0_r.
  apply H. rewrite <- Ha.
  eapply Rle_lt_trans; [apply norm_lipschitz|]. lra.
Qed.

(** C6.  For every smoothing radius [h > 0]: beyond the support ([r > h])
    the density kernel and the viscosity Laplacian return 0 and the spiky
    gradient returns the zero vector; the two scalar kernels are continuous
    at [r = h]; the spiky gradient tends to the zero vector as the
    separation tends to [h] (uniformly in the direction) and is continuous
    at every offset of length [h]. *)
Theorem kernels_vanish_beyond_h_and_are_continuous_at_h (h : R) :
  0 < h ->
  (forall r, h < r -> poly6Kernel r h = 0)
  /\ (forall r, h < r -> viscosityLaplacian r h = 0)
  /\ (forall rx ry rz,
        h < sqrt (rx * rx + ry * ry + rz * rz) ->
        spikyGradient rx ry rz h = mkVector3 0 0 0)
  /\ continuity_pt (fun r => poly6Kernel r h) h
  /\ continuity_pt (fun r => viscosityLaplacian r h) h
  /\ (forall eps, 0 < eps ->
      exists delta, 0 < delta /\
        forall rx ry rz,
          Rabs (sqrt (rx * rx + ry * ry + rz * rz) - h) < delta ->
          Rabs (vx (spikyGradient rx ry rz h)) < eps
          /\ Rabs (vy (spikyGradient rx ry rz h)) < eps
          /\ Rabs (vz (spikyGradient rx ry rz h)) < eps)
  /\ (forall ax ay az,
        sqrt (ax * ax + ay * ay + az * az) = h ->
        forall eps, 0 < eps ->
        exists delta, 0 < delta /\
          forall rx ry rz,
            Rabs (rx - ax) < delta -> Rabs (ry - ay) < delta ->
            Rabs (rz - az) < delta ->
            Rabs (vx (spikyGradient rx ry rz h) - vx (spikyGradient ax ay az h)) < eps
            /\ Rabs (vy (spikyGradient rx ry rz h) - vy (spikyGradient ax ay az h)) < eps
            /\ Rabs (vz (spikyGradient rx ry rz h) - vz (spikyGradient ax ay az h)) < eps).
Proof.
  intros Hh. repeat split.
  - intros r. apply poly6Kernel_outside.
  - intros r. apply viscosityLaplacian_outside.
  - intros rx ry rz. apply spikyGradient_outside.
  - apply poly6Kernel_continuous_at_h.
  - apply viscosityLaplacian_continuous_at_h.
  - now apply spikyGradient_vanishes_at_h.
  - intros ax ay az. now apply spikyGradient_continuous_at_h.
Qed.

Lemma kernels_vanish_beyond_h_and_are_continuous_at_h_witness :
  0 < 1 /\
  ((forall r, 1 < r -> poly6Kernel r 1 = 0)
   /\ (forall r, 1 < r -> viscosityLaplacian r 1 = 0)
   /\ continuity_pt (fun r => poly6Kernel r 1) 1
   /\ continuity_pt (fun r => viscosityLaplacian r 1) 1).
Proof.
  split; [lra|].
  destruct (kernels_vanish_beyond_h_and_are_continuous_at_h 1 ltac:(lra))
    as (H1 & H2 & _ & H4 & H5 & _).
  repeat split; assumption.
Defined.

(** ** Force pass: pressure forces *)

Lemma Vector3_eq (a b : Vector3) :
  vx a = vx b -> vy a = vy b -> vz a = vz b -> a = b.
Proof. destruct a, b; cbn; intros; subst; reflexivity. Qed.

Lemma spikyGradient_opp (rx ry rz h : R) :
  spikyGradient (- rx) (- ry) (- rz) h = Vec.neg (spikyGradient rx ry rz h).
Proof.
  unfold spikyGradient. rewrite norm_opp.
  set (r := sqrt (rx * rx + ry * ry + rz * rz)).
  js_cases; apply Vector3_eq; cbn [Vec.neg vx vy vz]; ring.
Qed.

Lemma separation_sym (s : ParticleSystem) (i j : nat) :
  separation s i j = separation s j i.
Proof. unfold separation. cbv zeta. f_equal. ring. Qed.

Lemma pressureDelta_antisym (s : ParticleSystem) (i j : nat) :
  pressureDelta s i j = Vec.neg (pressureDelta s j i).
Proof.
  unfold pressureDelta. cbv zeta.
  replace (getPos i 0 s - getPos j 0 s) with (- (getPos j 0 s - getPos i 0 s)) by ring.
  replace (getPos i 1 s - getPos j 1 s) with (- (getPos j 1 s - getPos i 1 s)) by ring.
  replace (getPos i 2 s - getPos j 2 s) with (- (getPos j 2 s - getPos i 2 s)) by ring.
  rewrite spikyGradient_opp.
  apply Vector3_eq; cbn [Vec.neg vx vy vz]; ring.
Qed.

Lemma length_neg (a : Vector3) : Vec.length (Vec.neg a) = Vec.length a.
Proof. unfold Vec.length, Vec.neg. cbn [vx vy vz]. apply norm_opp. Qed.

(** C3.  For distinct particles [i] and [j] at a separation [0 < r < h], both
    of nonzero density: the force pass adds to the accumulator of [i], for
    [j], the pressure contribution and the viscosity contribution (and
    likewise for [j] and [i]), and the two pressure contributions are
    opposite vectors of equal length. *)
Theorem pressure_contributions_equal_and_opposite
    (s : ParticleSystem) (i j : nat) :
  i <> j ->
  0 < separation s i j < smoothingRadius (params s) ->
  densities s !!! i <> 0 ->
  densities s !!! j <> 0 ->
  (forall f, forceStep s i j f
             = Vec.add (Vec.add f (pressureContribution s i j)) (viscosityDelta s i j))
  /\ (forall f, forceStep s j i f
                = Vec.add (Vec.add f (pressureContribution s j i)) (viscosityDelta s j i))
  /\ pressureContribution s i j = Vec.neg (pressureContribution s j i)
  /\ Vec.length (pressureContribution s i j) = Vec.length (pressureContribution s j i).
Proof.
  intros Hij [Hr0 Hrh] Hdi Hdj.
  assert (Hstep : forall a b, a <> b ->
            separation s a b < smoothingRadius (params s) ->
            forall f, forceStep s a b f
                      = Vec.add (Vec.add f (pressureContribution s a b))
                                (viscosityDelta s a b)).
  { intros a b Hab Hsep f. unfold forceStep.
    destruct (Nat.eqb_spec a b) as [|_]; [contradiction|].
    apply Rltb_true in Hsep. rewrite Hsep.
    unfold pressureContribution.
    apply Vector3_eq; cbn [Vec.add Vec.sub Vec.zero vx vy vz]; ring. }
  assert (Hopp : pressureContribution s i j = Vec.neg (pressureContribution s j i)).
  { unfold pressureContribution. rewrite (pressureDelta_antisym s i j).
    apply Vector3_eq; cbn [Vec.neg Vec.sub Vec.zero vx vy vz]; ring. }
  repeat split.
  - now apply Hstep.
  - apply Hstep; [congruence|]. now rewrite separation_sym.
  - exact Hopp.
  - rewrite Hopp. apply length_neg.
Qed.

Lemma pressure_contributions_equal_and_opposite_witness :
  pressureContribution twoParticles 0 1
  = Vec.neg (pressureContribution twoParticles 1 0).
Proof.
  assert (Hsep : separation twoParticles 0 1 = 1).
  { unfold separation, getPos, idx. cbn.
    replace ((1 - 0) * (1 - 0) + (0 - 0) * (0 - 0) + (0 - 0) * (0 - 0)) with 1 by ring.
    apply sqrt_1. }
  refine (proj1 (proj2 (proj2
    (pressure_contributions_equal_and_opposite twoParticles 0%nat 1%nat _ _ _ _)))).
  - lia.
  - rewrite Hsep. cbn. lra.
  - cbn. lra.
  - cbn. lra.
Defined.

(** ** Reading and writing the particle arrays *)

Lemma idx_inj (i k j l : nat) :
  (k < 3)%nat -> (l < 3)%nat -> idx i k = idx j l -> i = j /\ k = l.
Proof. unfold idx. lia. Qed.

Lemma wf_setPos i k x s : wf s -> wf (setPos i k x s).
Proof. intros []; split; cbn; rewrite ?length_insert; assumption. Qed.

Lemma wf_setVel i k x s : wf s -> wf (setVel i k x s).
Proof. intros []; split; cbn; rewrite ?length_insert; assumption. Qed.

Lemma wf_setForce i k x s : wf s -> wf (setForce i k x s).
Proof. intros []; split; cbn; rewrite ?length_insert; assumption. Qed.

Lemma wf_setDensity i x s : wf s -> wf (setDensity i x s).
Proof. intros []; split; cbn; rewrite ?length_insert; assumption. Qed.

Lemma wf_setPressure i x s : wf s -> wf (setPressure i x s).
Proof. intros []; split; cbn; rewrite ?length_insert; assumption. Qed.

Lemma getPos_setPos_same i k x s :
  wf s -> (i < numParticles s)%nat -> (k < 3)%nat ->
  getPos i k (setPos i k x s) = x.
Proof.
  intros [] Hi Hk. unfold getPos, setPos. cbn.
  apply list_lookup_total_insert_eq. unfold idx. lia.
Qed.

Lemma getPos_setPos_diff i k j l x s :
  idx j l <> idx i k -> getPos j l (setPos i k x s) = getPos j l s.
Proof.
  intros Hne. unfold getPos, setPos. cbn.
  apply list_lookup_total_insert_ne. congruence.
Qed.

Lemma getVel_setVel_same i k x s :
  wf s -> (i < numParticles s)%nat -> (k < 3)%nat ->
  getVel i k (setVel i k x s) = x.
Proof.
  intros [] Hi Hk. unfold getVel, setVel. cbn.
  apply list_lookup_total_insert_eq. unfold idx. lia.
Qed.

Lemma getVel_setVel_diff i k j l x s :
  idx j l <> idx i k -> getVel j l (setVel i k x s) = getVel j l s.
Proof.
  intros Hne. unfold getVel, setVel. cbn.
  apply list_lookup_total_insert_ne. congruence.
Qed.

Lemma getVel_setPos i k j l x s : getVel j l (setPos i k x s) = getVel j l s.
Proof. reflexivity. Qed.

Lemma getPos_setVel i k j l x s : getPos j l (setVel i k x s) = getPos j l s.
Proof. reflexivity. Qed.

Lemma getForce_setPos i k j l x s : getForce j l (setPos i k x s) = getForce j l s.
Proof. reflexivity. Qed.

Lemma getForce_setVel i k j l x s : getForce j l (setVel i k x s) = getForce j l s.
Proof. reflexivity. Qed.

Lemma same_fields_refl s : same_fields s s.
Proof. now split. Qed.

Lemma same_fields_trans s1 s2 s3 :
  same_fields s1 s2 -> same_fields s2 s3 -> same_fields s1 s3.
Proof. intros [] []; split; congruence. Qed.

Lemma same_fields_setPos i k x s : same_fields s (setPos i k x s).
Proof. now split. Qed.

Lemma same_fields_setVel i k x s : same_fields s (setVel i k x s).
Proof. now split. Qed.

(** ** The passes, one particle at a time *)

Lemma acts_on_id i s : wf s -> acts_on i (fun q => q) s s.
Proof. intros Hwf. split; [|split; [apply same_fields_refl|]]; auto. Qed.

Lemma acts_on_compose i g1 g2 s1 s2 s3 :
  acts_on i g1 s1 s2 -> acts_on i g2 s2 s3 ->
  acts_on i (fun q => g2 (g1 q)) s1 s3.
Proof.
  intros (_ & Hf1 & Hi1 & Ho1) (Hwf & Hf2 & Hi2 & Ho2).
  split; [exact Hwf|]. split; [eapply same_fields_trans; eassumption|].
  split; [congruence|].
  intros j Hj. rewrite Ho2, Ho1; auto.
Qed.

Lemma acts_on_ext i g g' s s' :
  (forall q, g q = g' q) -> acts_on i g s s' -> acts_on i g' s s'.
Proof.
  intros Hg (Hwf & Hf & Hi & Ho).
  split; [exact Hwf|]. split; [exact Hf|]. split; [|exact Ho].
  now rewrite <- Hg.
Qed.

(** Side conditions of the array lemmas, on a chain of writes. *)
Ltac arr_side :=
  solve [ repeat first [apply wf_setPos | apply wf_setVel]; assumption
        | cbn [numParticles setPos setVel]; assumption
        | lia ].

(** Reads through a chain of writes. *)
Ltac arr_simpl :=
  repeat first
    [ rewrite getVel_setPos
    | rewrite getPos_setVel
    | rewrite getPos_setPos_same by arr_side
    | rewrite getVel_setVel_same by arr_side
    | rewrite getPos_setPos_diff by (unfold idx; lia)
    | rewrite getVel_setVel_diff by (unfold idx; lia) ].

(** Unfolds [acts_on] so that the tests of the pass and of its
    one-particle reading become the same terms. *)
Ltac acts_on_start :=
  unfold acts_on; cbv beta zeta;
  cbn [particle pos vel vx vy vz setX setY setZ].

(** Closes [acts_on] for a chain of writes to slot [i], once every test is
    decided. *)
Ltac acts_on_finish :=
  split; [first [assumption | arr_side]|];
  split; [first [apply same_fields_refl | now split]|];
  split;
  [ unfold particle; arr_simpl; cbn [pos vel vx vy vz setX setY setZ];
    try reflexivity
  | let j := fresh "j" in let Hj := fresh "Hj" in
    intros j Hj; unfold particle; arr_simpl; reflexivity ].

Lemma boundaryBottom_acts i s :
  wf s -> (i < numParticles s)%nat ->
  acts_on i (One.boundaryBottom (params s)) s (boundaryBottom i s).
Proof.
  intros Hwf Hi. unfold boundaryBottom, One.boundaryBottom. acts_on_start.
  js_cases; acts_on_finish.
Qed.

Lemma boundaryTop_acts i s :
  wf s -> (i < numParticles s)%nat ->
  acts_on i (One.boundaryTop (params s)) s (boundaryTop i s).
Proof.
  intros Hwf Hi. unfold boundaryTop, One.boundaryTop. acts_on_start.
  js_cases; acts_on_finish.
Qed.

Lemma boundaryXMin_acts i s :
  wf s -> (i < numParticles s)%nat ->
  acts_on i (One.boundaryXMin (params s)) s (boundaryXMin i s).
Proof.
  intros Hwf Hi. unfold boundaryXMin, One.boundaryXMin. acts_on_start.
  js_cases; acts_on_finish.
Qed.

Lemma boundaryXMax_acts i s :
  wf s -> (i < numParticles s)%nat ->
  acts_on i (One.boundaryXMax (params s)) s (boundaryXMax i s).
Proof.
  intros Hwf Hi. unfold boundaryXMax, One.boundaryXMax. acts_on_start.
  js_cases; acts_on_finish.
Qed.

Lemma boundaryZMin_acts i s :
  wf s -> (i < numParticles s)%nat ->
  acts_on i (One.boundaryZMin (params s)) s (boundaryZMin i s).
Proof.
  intros Hwf Hi. unfold boundaryZMin, One.boundaryZMin. acts_on_start.
  js_cases; acts_on_finish.
Qed.

Lemma boundaryZMax_acts i s :
  wf s -> (i < numParticles s)%nat ->
  acts_on i (One.boundaryZMax (params s)) s (boundaryZMax i s).
Proof.
  intros Hwf Hi. unfold boundaryZMax, One.boundaryZMax. acts_on_start.
  js_cases; acts_on_finish.
Qed.

Lemma acts_on_params i g s s' : acts_on i g s s' -> params s' = params s.
Proof. intros (_ & [] & _). assumption. Qed.

Lemma acts_on_numParticles i g s s' :
  acts_on i g s s' -> numParticles s' = numParticles s.
Proof. intros (_ & [] & _). assumption. Qed.

Lemma acts_on_wf i g s s' : acts_on i g s s' -> wf s'.
Proof. now intros (? & _). Qed.

Lemma handleBoundaryCollision_acts i s :
  wf s -> (i < numParticles s)%nat ->
  acts_on i (One.handleBoundaryCollision (params s)) s (handleBoundaryCollision i s).
Proof.
  intros Hwf Hi. unfold handleBoundaryCollision, One.handleBoundaryCollision.
  cbv zeta.
  pose proof (boundaryBottom_acts i s Hwf Hi) as H1.
  set (s1 := boundaryBottom i s) in *.
  assert (Hp1 := acts_on_params _ _ _ _ H1).
  assert (Hn1 := acts_on_numParticles _ _ _ _ H1).
  pose proof (boundaryTop_acts i s1 (acts_on_wf _ _ _ _ H1) ltac:(lia)) as H2.
  set (s2 := boundaryTop i s1) in *.
  assert (Hp2 := acts_on_params _ _ _ _ H2).
  assert (Hn2 := acts_on_numParticles _ _ _ _ H2).
  pose proof (boundaryXMin_acts i s2 (acts_on_wf _ _ _ _ H2) ltac:(lia)) as H3.
  set (s3 := boundaryXMin i s2) in *.
  assert (Hp3 := acts_on_params _ _ _ _ H3).
  assert (Hn3 := acts_on_numParticles _ _ _ _ H3).
  pose proof (boundaryXMax_acts i s3 (acts_on_wf _ _ _ _ H3) ltac:(lia)) as H4.
  set (s4 := boundaryXMax i s3) in *.
  assert (Hp4 := acts_on_params _ _ _ _ H4).
  assert (Hn4 := acts_on_numParticles _ _ _ _ H4).
  pose proof (boundaryZMin_acts i s4 (acts_on_wf _ _ _ _ H4) ltac:(lia)) as H5.
  set (s5 := boundaryZMin i s4) in *.
  assert (Hp5 := acts_on_params _ _ _ _ H5).
  assert (Hn5 := acts_on_numParticles _ _ _ _ H5).
  pose proof (boundaryZMax_acts i s5 (acts_on_wf _ _ _ _ H5) ltac:(lia)) as H6.
  rewrite Hp1 in H2. rewrite Hp2, Hp1 in H3. rewrite Hp3, Hp2, Hp1 in H4.
  rewrite Hp4, Hp3, Hp2, Hp1 in H5. rewrite Hp5, Hp4, Hp3, Hp2, Hp1 in H6.
  eapply acts_on_ext;
    [|exact (acts_on_compose _ _ _ _ _ _
               (acts_on_compose _ _ _ _ _ _
                  (acts_on_compose _ _ _ _ _ _
                     (acts_on_compose _ _ _ _ _ _
                        (acts_on_compose _ _ _ _ _ _ H1 H2) H3) H4) H5) H6)].
  reflexivity.
Qed.

(** ** Boundary pass: no escape *)

Lemma One_handleBoundaryCollision_in_box prm q :
  vx (boundMin prm) <= vx (boundMax prm) ->
  vy (boundMin prm) <= vy (boundMax prm) ->
  vz (boundMin prm) <= vz (boundMax prm) ->
  in_box (boundMin prm) (boundMax prm) (pos (One.handleBoundaryCollision prm q)).
Proof.
  intros Hx Hy Hz. unfold in_box.
  assert (Hy' : vy (boundMin prm)
                <= vy (pos (One.boundaryTop prm (One.boundaryBottom prm q)))
                <= vy (boundMax prm)).
  { unfold One.boundaryTop, One.boundaryBottom.
    js_cases; cbn [pos vy setY] in *; js_cases; cbn [pos vy setY] in *; lra. }
  set (q1 := One.boundaryTop prm (One.boundaryBottom prm q)) in *.
  assert (Hx' : vx (boundMin prm)
                <= vx (pos (One.boundaryXMax prm (One.boundaryXMin prm q1)))
                <= vx (boundMax prm)
                /\ vy (pos (One.boundaryXMax prm (One.boundaryXMin prm q1)))
                   = vy (pos q1)).
  { unfold One.boundaryXMax, One.boundaryXMin.
    js_cases; cbn [pos vx vy setX] in *; js_cases; cbn [pos vx vy setX] in *;
      split; (lra || reflexivity). }
  set (q2 := One.boundaryXMax prm (One.boundaryXMin prm q1)) in *.
  unfold One.handleBoundaryCollision. fold q1. fold q2.
  destruct Hx' as [Hx' Hyq].
  unfold One.boundaryZMax, One.boundaryZMin.
  js_cases; cbn [pos vx vy vz setZ] in *; js_cases; cbn [pos vx vy vz setZ] in *;
    lra.
Qed.


Lemma type_land t f b : type (land t f b) = type b.
Proof. unfold land. cbv zeta. js_cases; reflexivity. Qed.

Lemma isRadialType_split t :
  isRadialType t = isRoundType t || isCylinderType t.
Proof. now destruct t. Qed.

Section BodyBoundary.

Variable applyEuler : Euler -> Vector3 -> Vector3.









End BodyBoundary.

(** ** Loops *)

Lemma forRange_invariant {A : Type} (P : A -> Prop) (n : nat)
    (body : nat -> A -> A) (a : A) :
  (forall i x, (i < n)%nat -> P x -> P (body i x)) -> P a -> P (forRange n body a).
Proof.
  unfold forRange. intros Hstep.
  assert (H : forall l x, (forall i, i ∈ l -> (i < n)%nat) -> P x ->
                          P (fold_left (fun acc i => body i acc) l x)).
  { induction l as [|i l IH]; intros x Hl Hx; [exact Hx|].
    cbn. apply IH.
    - intros j Hj. apply Hl. now right.
    - apply Hstep; [apply Hl; now left | exact Hx]. }
  intros Ha. apply H; [|exact Ha].
  intros i Hi. apply elem_of_seq in Hi. lia.
Qed.

Lemma forRange_S {A : Type} (n : nat) (body : nat -> A -> A) (a : A) :
  forRange (S n) body a = body n (forRange n body a).
Proof. unfold forRange. rewrite seq_S, fold_left_app. reflexivity. Qed.

(** ** Pairwise collision keeps types and sizes *)





Lemma collidePair_same_shape this other :
  same_shape this (fst (collidePair this other))
  /\ same_shape other (snd (collidePair this other)).
Proof.
  unfold collidePair. cbv zeta.
  repeat match goal with
  | |- context [if ?c then _ else _] => destruct c
  end; cbn [fst snd]; split; split; reflexivity.
Qed.






Lemma wf_twoParticles : wf twoParticles.
Proof. split; reflexivity. Qed.


(** ** Rigid coupling and integration, one particle at a time *)

Lemma sphereTest_acts i dx dy dz body s :
  wf s -> (i < numParticles s)%nat ->
  acts_on i (OneStep.sphereTest (params s) dx dy dz body) s
            (sphereTest i dx dy dz body s).
Proof.
  intros Hwf Hi. unfold sphereTest, OneStep.sphereTest. acts_on_start.
  rewrite ?getVel_setPos.
  js_cases; acts_on_finish.
Qed.

Lemma cubeTest_acts i dx dy dz body s :
  wf s -> (i < numParticles s)%nat ->
  acts_on i (OneStep.cubeTest (params s) dx dy dz body) s
            (cubeTest i dx dy dz body s).
Proof.
  intros Hwf Hi. unfold cubeTest, OneStep.cubeTest. acts_on_start.
  repeat match goal with
  | |- context [if ?c then _ else _] =>
      lazymatch c with
      | context [if _ then _ else _] => fail
      | _ => destruct c
      end
  end; acts_on_finish.
Qed.

Lemma eulerStep_acts dt i s :
  wf s -> (i < numParticles s)%nat ->
  acts_on i (OneStep.eulerStep dt (densities s !!! i) (forceAt i s)) s
            (eulerStep dt i s).
Proof.
  intros Hwf Hi. unfold eulerStep, OneStep.eulerStep, forceAt. acts_on_start.
  acts_on_finish.
Qed.

(** ** The rigid coupling pass leaves the bodies alone *)

Lemma sphereTest_same_fields i dx dy dz body s :
  same_fields s (sphereTest i dx dy dz body s).
Proof.
  unfold sphereTest. cbv zeta.
  repeat match goal with
  | |- context [if ?c then _ else _] => destruct c
  end; split; reflexivity.
Qed.

Lemma cubeTest_same_fields i dx dy dz body s :
  same_fields s (cubeTest i dx dy dz body s).
Proof.
  unfold cubeTest. cbv zeta.
  repeat match goal with
  | |- context [if ?c then _ else _] =>
      lazymatch c with
      | context [if _ then _ else _] => fail
      | _ => destruct c
      end
  end; split; reflexivity.
Qed.

Lemma collideWithBody_frame i px py pz body w :
  rigidBodies (collideWithBody i px py pz body w) = rigidBodies w
  /\ same_fields (particleSystem w)
                 (particleSystem (collideWithBody i px py pz body w)).
Proof.
  unfold collideWithBody. cbv zeta.
  destruct (type body); cbn [onParticles rigidBodies particleSystem];
    (split; [reflexivity|]);
    first [apply sphereTest_same_fields | apply cubeTest_same_fields
          | apply same_fields_refl].
Qed.

Lemma forBodiesFrom_frame (f : RigidBody -> World -> World) :
  (forall body w,
     rigidBodies (f body w) = rigidBodies w
     /\ same_fields (particleSystem w) (particleSystem (f body w))) ->
  forall n k w,
    rigidBodies (forBodiesFrom f n k w) = rigidBodies w
    /\ same_fields (particleSystem w) (particleSystem (forBodiesFrom f n k w)).
Proof.
  intros Hf. induction n as [|n IH]; intros k w; cbn [forBodiesFrom].
  - split; [reflexivity | apply same_fields_refl].
  - destruct (rigidBodies w !! k) as [body|];
      [|split; [reflexivity | apply same_fields_refl]].
    destruct (Hf body w) as [Hb Hs].
    destruct (IH (S k) (f body w)) as [Hb' Hs'].
    split; [congruence | eapply same_fields_trans; eassumption].
Qed.

Lemma handleRigidBodyCollisions_frame i w :
  rigidBodies (handleRigidBodyCollisions i w) = rigidBodies w
  /\ same_fields (particleSystem w)
                 (particleSystem (handleRigidBodyCollisions i w)).
Proof.
  unfold handleRigidBodyCollisions, forBodies. cbv zeta.
  apply forBodiesFrom_frame. intros body w'. apply collideWithBody_frame.
Qed.

(** C9.  The fluid-to-rigid collision pass, run for any particle [i] in any
    state, returns the list of bodies it was given: every body keeps its
    position, velocity, angular velocity, rotation, size and density.  Of
    the particle system it leaves the particle count, the parameters, the
    densities, the pressures and the forces as they were (only positions
    and velocities can change). *)
Theorem rigid_coupling_pass_leaves_bodies_unchanged (i : nat) (w : World) :
  rigidBodies (handleRigidBodyCollisions i w) = rigidBodies w
  /\ (forall k body,
        rigidBodies w !! k = Some body ->
        exists body',
          rigidBodies (handleRigidBodyCollisions i w) !! k = Some body'
          /\ position body' = position body
          /\ velocity body' = velocity body
          /\ angularVelocity body' = angularVelocity body
          /\ physicalRotation body' = physicalRotation body
          /\ rotationX body' = rotationX body
          /\ rotationY body' = rotationY body
          /\ rotationZ body' = rotationZ body
          /\ size body' = size body
          /\ density body' = density body)
  /\ same_fields (particleSystem w)
                 (particleSystem (handleRigidBodyCollisions i w)).
Proof.
  destruct (handleRigidBodyCollisions_frame i w) as [Hb Hs].
  split; [exact Hb|]. split; [|exact Hs].
  intros k body Hk. exists body. rewrite Hb. repeat split; assumption.
Qed.

Lemma collideWithBody_acts i px py pz body w :
  wf (particleSystem w) -> (i < numParticles (particleSystem w))%nat ->
  acts_on i (OneStep.collideWithBody (params (particleSystem w)) px py pz body)
    (particleSystem w) (particleSystem (collideWithBody i px py pz body w)).
Proof.
  intros Hwf Hi. unfold collideWithBody, OneStep.collideWithBody. cbv zeta.
  destruct (type body); cbn [onParticles particleSystem];
    first [now apply sphereTest_acts | now apply cubeTest_acts
          | now apply acts_on_id].
Qed.

Lemma forBodiesFrom_acts i px py pz n : forall k w,
  wf (particleSystem w) -> (i < numParticles (particleSystem w))%nat ->
  n = (length (rigidBodies w) - k)%nat ->
  acts_on i
    (fun q =>
       fold_left
         (fun q' body =>
            OneStep.collideWithBody (params (particleSystem w)) px py pz body q')
         (drop k (rigidBodies w)) q)
    (particleSystem w)
    (particleSystem (forBodiesFrom (collideWithBody i px py pz) n k w)).
Proof.
  induction n as [|n IH]; intros k w Hwf Hi Hn; cbn [forBodiesFrom].
  - rewrite drop_ge by lia. now apply acts_on_id.
  - destruct (lookup_lt_is_Some_2 (rigidBodies w) k ltac:(lia)) as [body Hk].
    rewrite Hk. rewrite (drop_S _ _ _ Hk). cbn [fold_left].
    pose proof (collideWithBody_acts i px py pz body w Hwf Hi) as H1.
    destruct (collideWithBody_frame i px py pz body w) as [Hb _].
    set (w1 := collideWithBody i px py pz body w) in *.
    assert (Hp := acts_on_params _ _ _ _ H1).
    assert (Hnp := acts_on_numParticles _ _ _ _ H1).
    specialize (IH (S k) w1 (acts_on_wf _ _ _ _ H1) ltac:(lia) ltac:(rewrite Hb; lia)).
    rewrite Hb, Hp in IH.
    exact (acts_on_compose _ _ _ _ _ _ H1 IH).
Qed.

Lemma handleRigidBodyCollisions_acts i w :
  wf (particleSystem w) -> (i < numParticles (particleSystem w))%nat ->
  acts_on i
    (OneStep.handleRigidBodyCollisions (params (particleSystem w)) (rigidBodies w))
    (particleSystem w) (particleSystem (handleRigidBodyCollisions i w)).
Proof.
  intros Hwf Hi. unfold handleRigidBodyCollisions, forBodies. cbv zeta.
  pose proof (forBodiesFrom_acts i
                (getPos i 0 (particleSystem w)) (getPos i 1 (particleSystem w))
                (getPos i 2 (particleSystem w))
                (length (rigidBodies w)) 0 w Hwf Hi ltac:(lia)) as H.
  rewrite drop_0 in H.
  destruct H as (H1 & H2 & H3 & H4).
  split; [exact H1|]. split; [exact H2|]. split; [|exact H4].
  rewrite H3. reflexivity.
Qed.

(** The World-level reading of [acts_on], with the bodies kept. *)
Lemma integrateAt_acts dt i w :
  wf (particleSystem w) -> (i < numParticles (particleSystem w))%nat ->
  rigidBodies (integrateAt dt i w) = rigidBodies w
  /\ acts_on i
       (OneStep.integrateAt dt (params (particleSystem w))
          (densities (particleSystem w) !!! i) (forceAt i (particleSystem w))
          (rigidBodies w))
       (particleSystem w) (particleSystem (integrateAt dt i w)).
Proof.
  intros Hwf Hi. unfold integrateAt, OneStep.integrateAt. cbv zeta.
  destruct (_ <? 1); [split; [reflexivity | now apply acts_on_id]|].
  unfold onParticles. cbn [particleSystem rigidBodies].
  set (s := particleSystem w) in *.
  pose proof (eulerStep_acts dt i s Hwf Hi) as H1.
  set (s1 := eulerStep dt i s) in *.
  assert (Hp1 := acts_on_params _ _ _ _ H1).
  assert (Hn1 := acts_on_numParticles _ _ _ _ H1).
  pose proof (handleBoundaryCollision_acts i s1
                (acts_on_wf _ _ _ _ H1) ltac:(lia)) as H2.
  set (s2 := handleBoundaryCollision i s1) in *.
  assert (Hp2 := acts_on_params _ _ _ _ H2).
  assert (Hn2 := acts_on_numParticles _ _ _ _ H2).
  set (w2 := mkWorld s2 (rigidBodies w)).
  pose proof (handleRigidBodyCollisions_acts i w2
                (acts_on_wf _ _ _ _ H2) ltac:(cbn; lia)) as H3.
  destruct (handleRigidBodyCollisions_frame i w2) as [Hb3 _].
  split; [rewrite Hb3; reflexivity|].
  cbn [w2 particleSystem rigidBodies] in H3.
  rewrite Hp2, Hp1 in H3. rewrite Hp1 in H2.
  exact (acts_on_compose _ _ _ _ _ _ (acts_on_compose _ _ _ _ _ _ H1 H2) H3).
Qed.

Lemma forceAt_same_fields i s s' : same_fields s s' -> forceAt i s' = forceAt i s.
Proof. intros []. unfold forceAt, getForce. congruence. Qed.

(** The state after the first [n] turns of the loop of [integrate]. *)
Lemma integrate_prefix dt w n :
  wf (particleSystem w) -> (n <= numParticles (particleSystem w))%nat ->
  let w' := forRange n (integrateAt dt) w in
  wf (particleSystem w')
  /\ same_fields (particleSystem w) (particleSystem w')
  /\ rigidBodies w' = rigidBodies w
  /\ forall i,
       ((i < n)%nat ->
        particle i (particleSystem w')
        = OneStep.integrateAt dt (params (particleSystem w))
            (densities (particleSystem w) !!! i) (forceAt i (particleSystem w))
            (rigidBodies w) (particle i (particleSystem w)))
       /\ ((n <= i)%nat ->
           particle i (particleSystem w') = particle i (particleSystem w)).
Proof.
  intros Hwf. induction n as [|n IH]; intros Hn; cbv zeta.
  - cbn. split; [exact Hwf|]. split; [apply same_fields_refl|].
    split; [reflexivity|]. intros i. split; [lia | reflexivity].
  - rewrite forRange_S.
    destruct (IH ltac:(lia)) as (Hwf' & Hsf & Hb & Hparts). clear IH.
    set (w' := forRange n (integrateAt dt) w) in *.
    assert (Hn' : (n < numParticles (particleSystem w'))%nat)
      by (destruct Hsf; lia).
    destruct (integrateAt_acts dt n w' Hwf' Hn') as (Hb' & Hw2 & Hsf2 & Hn2 & Ho).
    split; [exact Hw2|]. split; [eapply same_fields_trans; eassumption|].
    split; [congruence|].
    intros i. split; intros Hi.
    + destruct (decide (i = n)) as [->|Hne].
      * rewrite Hn2. rewrite (proj2 (Hparts n)) by lia.
        rewrite (forceAt_same_fields n _ _ Hsf), Hb.
        destruct Hsf as [_ -> -> _ _]. reflexivity.
      * rewrite Ho by exact Hne. apply (Hparts i). lia.
    + rewrite Ho by lia. apply (Hparts i). lia.
Qed.

Lemma integrate_particle dt w i :
  wf (particleSystem w) -> (i < numParticles (particleSystem w))%nat ->
  particle i (particleSystem (integrate dt w))
  = OneStep.integrateAt dt (params (particleSystem w))
      (densities (particleSystem w) !!! i) (forceAt i (particleSystem w))
      (rigidBodies w) (particle i (particleSystem w)).
Proof.
  intros Hwf Hi. unfold integrate.
  destruct (integrate_prefix dt w (numParticles (particleSystem w)) Hwf ltac:(lia))
    as (_ & _ & _ & H).
  now apply H.
Qed.

Lemma One_handleBoundaryCollision_inside prm q :
  in_box (boundMin prm) (boundMax prm) (pos q) ->
  One.handleBoundaryCollision prm q = q.
Proof.
  intros (Hx & Hy & Hz). unfold One.handleBoundaryCollision.
  assert (H1 : One.boundaryBottom prm q = q)
    by (unfold One.boundaryBottom; js_cases; (reflexivity || lra)).
  rewrite H1.
  assert (H2 : One.boundaryTop prm q = q)
    by (unfold One.boundaryTop; js_cases; (reflexivity || lra)).
  rewrite H2.
  assert (H3 : One.boundaryXMin prm q = q)
    by (unfold One.boundaryXMin; js_cases; (reflexivity || lra)).
  rewrite H3.
  assert (H4 : One.boundaryXMax prm q = q)
    by (unfold One.boundaryXMax; js_cases; (reflexivity || lra)).
  rewrite H4.
  assert (H5 : One.boundaryZMin prm q = q)
    by (unfold One.boundaryZMin; js_cases; (reflexivity || lra)).
  rewrite H5.
  unfold One.boundaryZMax; js_cases; (reflexivity || lra).
Qed.

(** C7.  The integration pass, for a particle [i] of a well-formed system.
    Density at or above the floor (1.0): the particle ends the pass as the
    boundary pass and then the rigid coupling pass leave the particle moved
    by [v += (force / density) * dt] then [x += v * dt] (the new velocity
    moves the position); with no body around and the moved particle inside
    the domain, that is the state it ends in.  Density below the floor: the
    particle's position and velocity are unchanged.  In both cases the
    particle count and the array sizes are kept (nothing is removed), and
    the pass is a total function (it cannot raise). *)
Theorem integrate_euler_or_skip (dt : R) (w : World) (i : nat) :
  wf (particleSystem w) ->
  (i < numParticles (particleSystem w))%nat ->
  let s := particleSystem w in
  let rho := densities s !!! i in
  let f := forceAt i s in
  let q := particle i s in
  let v' := mkVector3 (vx (vel q) + vx f / rho * dt)
                      (vy (vel q) + vy f / rho * dt)
                      (vz (vel q) + vz f / rho * dt) in
  let x' := mkVector3 (vx (pos q) + vx v' * dt)
                      (vy (pos q) + vy v' * dt)
                      (vz (pos q) + vz v' * dt) in
  let s' := particleSystem (integrate dt w) in
  (1 <= rho ->
     particle i s'
     = OneStep.handleRigidBodyCollisions (params s) (rigidBodies w)
         (One.handleBoundaryCollision (params s) (mkParticle x' v')))
  /\ (1 <= rho -> rigidBodies w = [] ->
      in_box (boundMin (params s)) (boundMax (params s)) x' ->
      particle i s' = mkParticle x' v')
  /\ (rho < 1 -> particle i s' = q)
  /\ numParticles s' = numParticles s
  /\ wf s'.
Proof.
  intros Hwf Hi s rho f q v' x' s'.
  assert (Hq : particle i s'
               = OneStep.integrateAt dt (params s) rho f (rigidBodies w) q)
    by now apply integrate_particle.
  destruct (integrate_prefix dt w (numParticles s) Hwf (le_n _))
    as (Hwf' & Hsf & _ & _).
  fold (integrate dt w) in Hwf', Hsf. fold s' in Hwf', Hsf.
  assert (Hfull : 1 <= rho ->
            particle i s'
            = OneStep.handleRigidBodyCollisions (params s) (rigidBodies w)
                (One.handleBoundaryCollision (params s) (mkParticle x' v'))).
  { intros Hrho. rewrite Hq. unfold OneStep.integrateAt.
    apply Rltb_false in Hrho. rewrite Hrho. reflexivity. }
  split; [|split; [|split; [|split]]].
  - exact Hfull.
  - intros Hrho Hnil Hbox. rewrite (Hfull Hrho), Hnil.
    cbn [OneStep.handleRigidBodyCollisions fold_left].
    now apply One_handleBoundaryCollision_inside.
  - intros Hrho. rewrite Hq. unfold OneStep.integrateAt.
    apply Rltb_true in Hrho. rewrite Hrho. reflexivity.
  - now destruct Hsf.
  - exact Hwf'.
Qed.

Lemma wf_sparseWorld : wf (particleSystem sparseWorld).
Proof. split; reflexivity. Qed.

Lemma integrate_euler_or_skip_witness :
  particle 1 (particleSystem (integrate (3 / 1000) sparseWorld))
  = particle 1 (particleSystem sparseWorld).
Proof.
  refine (proj1 (proj2 (proj2
    (integrate_euler_or_skip (3 / 1000) sparseWorld 1%nat wf_sparseWorld _))) _).
  - cbn. lia.
  - cbn. lra.
Defined.

Lemma rigid_coupling_pass_leaves_bodies_unchanged_witness :
  rigidBodies (handleRigidBodyCollisions 0 sparseWorld) = rigidBodies sparseWorld.
Proof.
  exact (proj1 (rigid_coupling_pass_leaves_bodies_unchanged 0%nat sparseWorld)).
Defined.

(** ** Density pass *)

Lemma PI_bounds : 31415 / 10000 < PI < 31421 / 10000.
Proof.
  pose proof (PI_2_3_7_ineq 1) as [Hlo Hhi].
  unfold sum_f_R0, tg_alt, PI_2_3_7_tg, Ratan_seq in Hlo, Hhi.
  cbn [Nat.mul Nat.add pow INR] in Hlo, Hhi.
  split; lra.
Qed.

Lemma separation_self s i : separation s i i = 0.
Proof.
  unfold separation. cbv zeta.
  replace (_ + _ + _) with 0 by ring. apply sqrt_0.
Qed.

Lemma densityStep_nondecreasing s i j d :
  0 < particleMass (params s) -> 0 < smoothingRadius (params s) ->
  d <= densityStep s i j d.
Proof.
  intros Hm Hh. unfold densityStep. cbv zeta. js_cases; [|lra].
  pose proof (poly6Kernel_nonneg (separation s i j) _ Hh) as Hk.
  pose proof (Rmult_le_pos _ _ (Rlt_le _ _ Hm) Hk). lra.
Qed.

Lemma densityStep_self s i d :
  0 < smoothingRadius (params s) ->
  densityStep s i i d = d + selfContribution (params s).
Proof.
  intros Hh. unfold densityStep, selfContribution. cbv zeta.
  rewrite separation_self. js_cases; [reflexivity | lra].
Qed.

(** The running sum after [n] neighbours. *)
Lemma densitySum_bound s i n :
  0 < particleMass (params s) -> 0 < smoothingRadius (params s) ->
  0 <= forRange n (densityStep s i) 0
  /\ ((i < n)%nat -> selfContribution (params s) <= forRange n (densityStep s i) 0).
Proof.
  intros Hm Hh. induction n as [|n [IH0 IHi]].
  - cbn. split; [lra | lia].
  - rewrite forRange_S.
    pose proof (densityStep_nondecreasing s i n
                  (forRange n (densityStep s i) 0) Hm Hh) as Hstep.
    split; [lra|]. intros Hi.
    destruct (decide (i = n)) as [->|Hne].
    + rewrite densityStep_self by exact Hh. lra.
    + specialize (IHi ltac:(lia)). lra.
Qed.

Lemma selfContribution_closed_form prm :
  0 < smoothingRadius prm ->
  selfContribution prm
  = particleMass prm * (315 / (64 * PI * smoothingRadius prm ^ 3)).
Proof. intros Hh. unfold selfContribution. now rewrite poly6Kernel_self. Qed.

Lemma selfContribution_pos prm :
  0 < particleMass prm -> 0 < smoothingRadius prm -> 0 < selfContribution prm.
Proof.
  intros Hm Hh. rewrite selfContribution_closed_form by exact Hh.
  apply Rmult_lt_0_compat; [exact Hm|].
  pose proof PI_RGT_0. pose proof (pow_pos_lt _ 3 Hh).
  apply Rdiv_lt_0_compat; [lra|].
  apply Rmult_lt_0_compat; lra.
Qed.

Lemma densityOf_ge_self s i :
  (i < numParticles s)%nat ->
  0 < particleMass (params s) -> 0 < smoothingRadius (params s) ->
  selfContribution (params s) <= densityOf s i.
Proof.
  intros Hi Hm Hh. unfold densityOf.
  now apply (densitySum_bound s i (numParticles s) Hm Hh).
Qed.

(** The density sum reads the particle count, the parameters and the
    positions only. *)
Lemma densityOf_ext s s' i :
  numParticles s' = numParticles s -> params s' = params s ->
  positions s' = positions s ->
  densityOf s' i = densityOf s i.
Proof.
  intros Hn Hp Hpos. unfold densityOf. rewrite Hn.
  assert (Hstep : forall j d, densityStep s' i j d = densityStep s i j d).
  { intros j d. unfold densityStep, separation, getPos. now rewrite Hp, Hpos. }
  unfold forRange. generalize (seq 0 (numParticles s)) 0.
  induction l as [|j l IH]; intros d; [reflexivity|].
  cbn. rewrite Hstep. apply IH.
Qed.

(** The state after the first [n] turns of the loop of [computeDensity]. *)
Lemma computeDensity_prefix s n :
  wf s -> (n <= numParticles s)%nat ->
  let s' := forRange n computeDensityAt s in
  wf s'
  /\ numParticles s' = numParticles s /\ params s' = params s
  /\ positions s' = positions s /\ velocities s' = velocities s
  /\ forces s' = forces s
  /\ forall i, (i < n)%nat ->
       densities s' !!! i = densityOf s i
       /\ pressures s' !!! i
          = stiffness (params s) * (densityOf s i - restDensity (params s)).
Proof.
  intros Hwf. induction n as [|n IH]; intros Hn; cbv zeta.
  - cbn. repeat split; try apply Hwf; lia.
  - rewrite forRange_S.
    destruct (IH ltac:(lia)) as (Hwf' & Hnp & Hp & Hpos & Hvel & Hf & Hd). clear IH.
    set (s' := forRange n computeDensityAt s) in *.
    unfold computeDensityAt. cbv zeta.
    rewrite (densityOf_ext s s' n Hnp Hp Hpos).
    split; [now apply wf_setPressure, wf_setDensity|].
    cbn [numParticles params positions velocities forces densities pressures
         setPressure setDensity].
    repeat split; try assumption.
    + destruct (decide (i = n)) as [->|Hne].
      * apply list_lookup_total_insert_eq. destruct Hwf'. lia.
      * rewrite list_lookup_total_insert_ne by congruence. apply Hd. lia.
    + destruct (decide (i = n)) as [->|Hne].
      * rewrite Hp. apply list_lookup_total_insert_eq. destruct Hwf'. lia.
      * rewrite list_lookup_total_insert_ne by congruence. apply Hd. lia.
Qed.

Lemma computeDensity_density s i :
  wf s -> (i < numParticles s)%nat ->
  densities (computeDensity s) !!! i = densityOf s i.
Proof.
  intros Hwf Hi. unfold computeDensity.
  destruct (computeDensity_prefix s (numParticles s) Hwf (le_n _))
    as (_ & _ & _ & _ & _ & _ & H).
  now apply H.
Qed.

(** The self-term under the default parameters is about 12.53. *)
Lemma selfContribution_default :
  1253 / 100 < selfContribution defaultParams < 1254 / 100.
Proof.
  rewrite selfContribution_closed_form by (cbn; lra).
  cbn [particleMass smoothingRadius defaultParams].
  pose proof PI_bounds as [Hlo Hhi].
  replace (1 * (315 / (64 * PI * (5 / 10) ^ 3))) with (315 / 8 * / PI)
    by (field; lra).
  assert (Hinv_hi : / PI < / (31415 / 10000))
    by (apply Rinv_lt_contravar; [apply Rmult_lt_0_compat|]; lra).
  assert (Hinv_lo : / (31421 / 10000) < / PI)
    by (apply Rinv_lt_contravar; [apply Rmult_lt_0_compat|]; lra).
  replace (/ (31415 / 10000)) with (10000 / 31415) in Hinv_hi by (field; lra).
  replace (/ (31421 / 10000)) with (10000 / 31421) in Hinv_lo by (field; lra).
  split; lra.
Qed.

(** The force pass writes the force array only. *)
Lemma computeForces_frame s :
  numParticles (computeForces s) = numParticles s
  /\ params (computeForces s) = params s
  /\ positions (computeForces s) = positions s
  /\ velocities (computeForces s) = velocities s
  /\ densities (computeForces s) = densities s
  /\ pressures (computeForces s) = pressures s.
Proof.
  unfold computeForces.
  apply (forRange_invariant
           (fun s' => numParticles s' = numParticles s
                      /\ params s' = params s
                      /\ positions s' = positions s
                      /\ velocities s' = velocities s
                      /\ densities s' = densities s
                      /\ pressures s' = pressures s)).
  - intros i s' _ H. exact H.
  - repeat split.
Qed.

(** C10, as amended.  After the density pass of a well-formed system with
    particle mass [m > 0] and smoothing radius [h > 0], the density of every
    particle is the sum the pass computes, is at least the self-term
    [m * W(0, h) = m * 315 / (64 PI h^3)], and is strictly positive.  With
    [m = 1] and [h = 0.5] (the defaults) the self-term lies between 12.53
    and 12.54, so when [integrate] runs, after the force pass, no particle
    has a density below the floor 1.0: the skip branch is not taken. *)
Theorem density_at_least_self_contribution (s : ParticleSystem) (i : nat) :
  wf s ->
  (i < numParticles s)%nat ->
  0 < particleMass (params s) ->
  0 < smoothingRadius (params s) ->
  let m := particleMass (params s) in
  let h := smoothingRadius (params s) in
  let d := densities (computeDensity s) !!! i in
  d = densityOf s i
  /\ m * poly6Kernel 0 h = m * (315 / (64 * PI * h ^ 3))
  /\ m * (315 / (64 * PI * h ^ 3)) <= d
  /\ 0 < d
  /\ (m = 1 -> h = 5 / 10 ->
      1253 / 100 < m * (315 / (64 * PI * h ^ 3)) < 1254 / 100
      /\ (densities (computeForces (computeDensity s)) !!! i <? 1) = false).
Proof.
  intros Hwf Hi Hm Hh m h d.
  assert (Hd : d = densityOf s i) by now apply computeDensity_density.
  pose proof (densityOf_ge_self s i Hi Hm Hh) as Hge.
  pose proof (selfContribution_pos (params s) Hm Hh) as Hpos.
  pose proof (selfContribution_closed_form (params s) Hh) as Hcf.
  fold m h in Hcf.
  split; [exact Hd|].
  split; [exact Hcf|].
  split; [rewrite <- Hcf, Hd; exact Hge|].
  split; [rewrite Hd; lra|].
  intros Hm1 Hh1.
  assert (Hdef : selfContribution (params s) = selfContribution defaultParams).
  { unfold selfContribution. fold m h. rewrite Hm1, Hh1. reflexivity. }
  pose proof selfContribution_default as Hb. rewrite <- Hdef, Hcf in Hb.
  split; [exact Hb|].
  destruct (computeForces_frame (computeDensity s)) as (_ & _ & _ & _ & -> & _).
  apply Rltb_false. fold d. rewrite Hd. lra.
Qed.

Lemma density_at_least_self_contribution_witness :
  0 < densities (computeDensity twoParticles) !!! 0%nat.
Proof.
  refine (proj1 (proj2 (proj2 (proj2
    (density_at_least_self_contribution twoParticles 0%nat wf_twoParticles _ _ _))))).
  - cbn. lia.
  - cbn. lra.
  - cbn. lra.
Defined.

(** C10, as stated, fails on its figure: under the default parameters the
    self-term is not about 802 (that is the normalisation
    [315 / (64 PI h^9)]; the self-term multiplies it by [h^6]). *)
Lemma self_contribution_is_not_802 :
  ~ (801 <= particleMass defaultParams
            * poly6Kernel 0 (smoothingRadius defaultParams) <= 803).
Proof.
  pose proof selfContribution_default as H. unfold selfContribution in H. lra.
Qed.

(** ** Rigid coupling: the sphere test *)

Lemma sqrt_sqr_pos (x : R) : 0 <= x -> sqrt (x * x) = x.
Proof. apply sqrt_square. Qed.

Lemma droppedSphere_radius c : vx (size (droppedSphere c)) = 8 / 10.
Proof. cbn. lra. Qed.

Lemma wf_overlapWorld : wf (particleSystem overlapWorld).
Proof. split; reflexivity. Qed.

(** ** The single-precision store *)

Lemma powerRZ_2_pos (e : Z) : 0 < powerRZ 2 e.
Proof. apply powerRZ_lt. lra. Qed.

Lemma powerRZ_2_exp (e : Z) : powerRZ 2 e = exp (IZR e * ln 2).
Proof. rewrite powerRZ_Rpower by lra. reflexivity. Qed.

Lemma ln_2_pos : 0 < ln 2.
Proof. rewrite <- ln_1. apply ln_increasing; lra. Qed.

(** [binade] is the floor of the binary logarithm. *)
Lemma binade_bounds (x : R) :
  x <> 0 -> powerRZ 2 (binade x) <= Rabs x < powerRZ 2 (binade x + 1).
Proof.
  intros Hx. pose proof (Rabs_pos_lt x Hx) as Hpos. pose proof ln_2_pos as H2.
  unfold binade. set (L := ln (Rabs x) / ln 2).
  destruct (base_Int_part L) as [Hlo Hhi].
  assert (HL : L * ln 2 = ln (Rabs x)) by (unfold L; field; lra).
  assert (Hx' : Rabs x = exp (L * ln 2)) by (rewrite HL; symmetry; now apply exp_ln).
  rewrite !powerRZ_2_exp, plus_IZR, Hx'.
  split.
  - destruct Hlo as [Hlo | Hlo].
    + left. apply exp_increasing. apply Rmult_lt_compat_r; lra.
    + right. now rewrite Hlo.
  - apply exp_increasing. apply Rmult_lt_compat_r; lra.
Qed.

Lemma binade_eq (x : R) (e : Z) :
  powerRZ 2 e <= Rabs x < powerRZ 2 (e + 1) -> binade x = e.
Proof.
  intros [Hlo Hhi]. pose proof ln_2_pos as H2.
  assert (Hpos : 0 < Rabs x) by (pose proof (powerRZ_2_pos e); lra).
  unfold binade. symmetry. apply Int_part_spec.
  rewrite !powerRZ_2_exp, plus_IZR in *.
  rewrite <- (exp_ln (Rabs x) Hpos) in Hlo, Hhi.
  assert (H1 : IZR e * ln 2 <= ln (Rabs x)).
  { destruct Hlo as [Hlo | Hlo]; [left; now apply exp_lt_inv|].
    right. now apply exp_inv. }
  assert (H3 : ln (Rabs x) < (IZR e + 1) * ln 2) by now apply exp_lt_inv.
  split.
  - apply Rmult_lt_reg_r with (ln 2); [lra|].
    replace ((ln (Rabs x) / ln 2 - 1) * ln 2) with (ln (Rabs x) - ln 2)
      by (field; lra).
    lra.
  - apply Rmult_le_reg_r with (ln 2); [lra|].
    replace (ln (Rabs x) / ln 2 * ln 2) with (ln (Rabs x)) by (field; lra).
    lra.
Qed.

Lemma quantum_pos (x : R) : 0 < quantum x.
Proof. apply powerRZ_2_pos. Qed.

(** Rounding to the nearest integer is off by at most one half. *)
Lemma roundTiesToEven_error (y : R) : Rabs (IZR (roundTiesToEven y) - y) <= 1 / 2.
Proof.
  unfold roundTiesToEven. cbv zeta.
  destruct (base_Int_part y) as [Hlo Hhi].
  destruct (y - IZR (Int_part y) <? 1 / 2) eqn:E1.
  - apply Rltb_true in E1. apply Rabs_le. lra.
  - apply Rltb_false in E1.
    destruct (1 / 2 <? y - IZR (Int_part y)) eqn:E2.
    + apply Rltb_true in E2. rewrite plus_IZR. apply Rabs_le. lra.
    + apply Rltb_false in E2.
      destruct (Z.even (Int_part y)); rewrite ?plus_IZR; apply Rabs_le; lra.
Qed.

(** A number less than one half from an integer rounds to it. *)
Lemma roundTiesToEven_eq (y : R) (m : Z) :
  IZR m - 1 / 2 < y < IZR m + 1 / 2 -> roundTiesToEven y = m.
Proof.
  intros [Hlo Hhi]. unfold roundTiesToEven. cbv zeta.
  destruct (base_Int_part y) as [Flo Fhi].
  set (f := Int_part y) in *.
  assert (Hf : (f = m - 1 \/ f = m)%Z).
  { assert (H1 : IZR (m - 2) < IZR f) by (rewrite minus_IZR; lra).
    assert (H2 : IZR f < IZR (m + 1)) by (rewrite plus_IZR; lra).
    apply lt_IZR in H1, H2. lia. }
  destruct Hf as [Hf | Hf]; rewrite Hf in *.
  - rewrite minus_IZR in *.
    assert (E1 : (y - (IZR m - 1) <? 1 / 2) = false) by (apply Rltb_false; lra).
    assert (E2 : (1 / 2 <? y - (IZR m - 1)) = true) by (apply Rltb_true; lra).
    rewrite E1, E2. lia.
  - assert (E1 : (y - IZR m <? 1 / 2) = true) by (apply Rltb_true; lra).
    rewrite E1. reflexivity.
Qed.

(** The stored value is within half a quantum of the value written. *)
Lemma fround_quantum (x : R) : Rabs (fround x - x) <= quantum x / 2.
Proof.
  pose proof (quantum_pos x) as Hq.
  pose proof (roundTiesToEven_error (x / quantum x)) as H.
  unfold fround.
  replace (IZR (roundTiesToEven (x / quantum x)) * quantum x - x)
    with ((IZR (roundTiesToEven (x / quantum x)) - x / quantum x) * quantum x)
    by (field; lra).
  rewrite Rabs_mult, (Rabs_pos_eq (quantum x)) by lra.
  apply Rle_trans with (1 / 2 * quantum x); [|lra].
  apply Rmult_le_compat_r; lra.
Qed.

Lemma fround_0 : fround 0 = 0.
Proof.
  unfold fround. replace (0 / quantum 0) with 0 by (unfold Rdiv; ring).
  rewrite (roundTiesToEven_eq 0 0); [ring | simpl; lra].
Qed.

(** The rounding error of a store: one part in [2 ^ 24] of the value, or
    [2 ^ -150] where the value is below the normal range. *)
Lemma fround_error (x : R) :
  Rabs (fround x - x) <= Rabs x / 2 ^ 24 + / 2 ^ 150.
Proof.
  assert (H150 : 0 < / 2 ^ 150) by (apply Rinv_0_lt_compat, pow_lt; lra).
  destruct (Req_dec x 0) as [-> | Hx].
  { rewrite fround_0, Rminus_diag, Rabs_R0. unfold Rdiv. rewrite Rmult_0_l. lra. }
  pose proof (fround_quantum x) as H.
  assert (Hq : quantum x <= Rabs x / 2 ^ 23 + / 2 ^ 149).
  { assert (H23 : 0 < / 2 ^ 23) by (apply Rinv_0_lt_compat, pow_lt; lra).
    assert (H149 : 0 < / 2 ^ 149) by (apply Rinv_0_lt_compat, pow_lt; lra).
    pose proof (Rabs_pos x) as Hx0.
    assert (Hx23 : 0 <= Rabs x / 2 ^ 23) by (apply Rmult_le_pos; lra).
    unfold quantum.
    destruct (Z.max_spec (binade x) (-126)) as [[Hlt ->] | [Hle ->]].
    - change (powerRZ 2 (-126 - 23)) with (/ 2 ^ 149). lra.
    - destruct (binade_bounds x Hx) as [Hlo _].
      replace (binade x - 23)%Z with (binade x + - 23)%Z by lia.
      rewrite powerRZ_add by lra.
      change (powerRZ 2 (-23)) with (/ 2 ^ 23).
      apply Rle_trans with (Rabs x * / 2 ^ 23); [|unfold Rdiv; lra].
      apply Rmult_le_compat_r; lra. }
  replace (Rabs x / 2 ^ 24 + / 2 ^ 150)
    with ((Rabs x / 2 ^ 23 + / 2 ^ 149) / 2)
    by (simpl; field).
  lra.
Qed.

(** The stored value, from the binade of the value written and the
    multiple of the quantum nearest to it. *)
Lemma fround_eq (x : R) (e m : Z) (q : R) :
  (-126 <= e)%Z ->
  powerRZ 2 e <= Rabs x < powerRZ 2 (e + 1) ->
  q = powerRZ 2 (e - 23) ->
  (IZR m - 1 / 2) * q < x < (IZR m + 1 / 2) * q ->
  fround x = IZR m * q.
Proof.
  intros He Hb Hq [Hlo Hhi].
  pose proof (binade_eq x e Hb) as Hbin.
  unfold fround, quantum. rewrite Hbin.
  rewrite Z.max_l by lia. rewrite <- Hq.
  assert (Hq0 : 0 < q) by (rewrite Hq; apply powerRZ_2_pos).
  rewrite (roundTiesToEven_eq (x / q) m); [reflexivity|].
  split.
  - apply Rmult_lt_reg_r with q; [lra|].
    replace (x / q * q) with x by (field; lra). lra.
  - apply Rmult_lt_reg_r with q; [lra|].
    replace (x / q * q) with x by (field; lra). lra.
Qed.

(** ** Rigid coupling on the stored arrays: the sphere test *)

(** What the sphere test leaves in the slots of a particle inside the
    sphere, off its centre. *)
Lemma Stored_sphereTest_inside i dx dy dz body s :
  wf s -> (i < numParticles s)%nat ->
  let c := position body in
  let r := vx (size body) in
  let d := sqrt (dx * dx + dy * dy + dz * dz) in
  let v := vel (particle i s) in
  let dot := vx v * (dx / d) + vy v * (dy / d) + vz v * (dz / d) in
  0 < d < r ->
  particle i (Stored.sphereTest i dx dy dz body s)
  = mkParticle
      (mkVector3 (fround (vx c + dx / d * r)) (fround (vy c + dy / d * r))
                 (fround (vz c + dz / d * r)))
      (if dot <? 0 then
         mkVector3
           (fround (fround (vx v - 2 * dot * (dx / d)) * damping (params s)))
           (fround (fround (vy v - 2 * dot * (dy / d)) * damping (params s)))
           (fround (fround (vz v - 2 * dot * (dz / d)) * damping (params s)))
       else v).
Proof.
  intros Hwf Hi c r d v dot [Hd0 Hdr].
  unfold Stored.sphereTest. cbv zeta. fold r d.
  assert (Hin : (d <? r) && (d >? 0) = true).
  { apply andb_true_iff. split; [now apply Rltb_true | now apply Rgtb_true]. }
  rewrite Hin. unfold Stored.setPos, Stored.setVel.
  rewrite !getVel_setPos.
  change (getVel i 0 s * (dx / d) + getVel i 1 s * (dy / d)
          + getVel i 2 s * (dz / d)) with dot.
  destruct (dot <? 0); unfold particle; arr_simpl;
    cbn [params setPos setVel]; reflexivity.
Qed.

(** The stored pass against a single sphere-tested body. *)
Lemma Stored_single_sphere_pass i w body :
  rigidBodies w = [body] ->
  type body = sphere ->
  let s := particleSystem w in
  particleSystem (Stored.handleRigidBodyCollisions i w)
  = Stored.sphereTest i
      (getPos i 0 s - vx (position body)) (getPos i 1 s - vy (position body))
      (getPos i 2 s - vz (position body)) body s.
Proof.
  intros Hb Ht s.
  unfold Stored.handleRigidBodyCollisions, forBodies. cbv zeta.
  rewrite Hb. cbn [length forBodiesFrom]. rewrite Hb. cbn [lookup list_lookup].
  unfold Stored.collideWithBody. cbv zeta. rewrite Ht. reflexivity.
Qed.

(** *** Norms and rounding errors *)

Lemma length_nonneg (a : Vector3) : 0 <= Vec.length a.
Proof. apply sqrt_pos. Qed.

Lemma length_sqr (a : Vector3) :
  Vec.length a * Vec.length a = vx a * vx a + vy a * vy a + vz a * vz a.
Proof. apply norm_sqr. Qed.

Lemma le_of_sqr_le (x y : R) : 0 <= y -> x * x <= y * y -> x <= y.
Proof.
  intros Hy H. destruct (Rle_or_lt x y) as [Hle | Hlt]; [exact Hle|].
  exfalso. assert (0 < x) by lra.
  assert (y * y < x * x); [|lra].
  apply Rle_lt_trans with (y * x).
  - apply Rmult_le_compat_l; lra.
  - apply Rmult_lt_compat_r; lra.
Qed.

Lemma Rabs_sqr_eq (x : R) : Rabs x * Rabs x = x * x.
Proof.
  unfold Rabs. destruct (Rcase_abs x); ring.
Qed.

(** Each component is at most the length. *)
Lemma component_le_length (a : Vector3) :
  Rabs (vx a) <= Vec.length a /\ Rabs (vy a) <= Vec.length a
  /\ Rabs (vz a) <= Vec.length a.
Proof.
  pose proof (length_nonneg a) as H0. pose proof (length_sqr a) as Hs.
  pose proof (Rle_0_sqr (vx a)) as Hx. pose proof (Rle_0_sqr (vy a)) as Hy.
  pose proof (Rle_0_sqr (vz a)) as Hz. unfold Rsqr in *.
  repeat split; apply le_of_sqr_le; try assumption; rewrite Rabs_sqr_eq; lra.
Qed.

(** The length is at most the sum of the components. *)
Lemma length_le_sum (a : Vector3) :
  Vec.length a <= Rabs (vx a) + Rabs (vy a) + Rabs (vz a).
Proof.
  pose proof (Rabs_pos (vx a)) as Hx. pose proof (Rabs_pos (vy a)) as Hy.
  pose proof (Rabs_pos (vz a)) as Hz.
  apply le_of_sqr_le; [lra|]. rewrite length_sqr.
  rewrite <- (Rabs_sqr_eq (vx a)), <- (Rabs_sqr_eq (vy a)), <- (Rabs_sqr_eq (vz a)).
  pose proof (Rmult_le_pos _ _ Hx Hy). pose proof (Rmult_le_pos _ _ Hx Hz).
  pose proof (Rmult_le_pos _ _ Hy Hz).
  lra.
Qed.

(** Cauchy-Schwarz. *)
Lemma dot_le_lengths (a b : Vector3) :
  Vec.dot a b <= Vec.length a * Vec.length b.
Proof.
  pose proof (length_nonneg a) as Ha. pose proof (length_nonneg b) as Hb.
  apply le_of_sqr_le; [now apply Rmult_le_pos|].
  replace (Vec.length a * Vec.length b * (Vec.length a * Vec.length b))
    with ((Vec.length a * Vec.length a) * (Vec.length b * Vec.length b)) by ring.
  rewrite !length_sqr. unfold Vec.dot.
  pose proof (Rle_0_sqr (vx a * vy b - vy a * vx b)) as H1.
  pose proof (Rle_0_sqr (vy a * vz b - vz a * vy b)) as H2.
  pose proof (Rle_0_sqr (vz a * vx b - vx a * vz b)) as H3.
  unfold Rsqr in *. lra.
Qed.

Lemma length_add_le (a b : Vector3) :
  Vec.length (Vec.add a b) <= Vec.length a + Vec.length b.
Proof.
  pose proof (length_nonneg a) as Ha. pose proof (length_nonneg b) as Hb.
  apply le_of_sqr_le; [lra|]. rewrite length_sqr.
  pose proof (dot_le_lengths a b) as Hd. unfold Vec.dot in Hd.
  pose proof (length_sqr a) as Hsa. pose proof (length_sqr b) as Hsb.
  unfold Vec.add. cbn [vx vy vz]. lra.
Qed.

(** Two vectors are at least as far apart as their lengths are. *)
Lemma length_sub_ge (a b : Vector3) :
  Rabs (Vec.length a - Vec.length b) <= Vec.length (Vec.sub a b).
Proof.
  assert (H1 : Vec.length a <= Vec.length (Vec.sub a b) + Vec.length b).
  { replace a with (Vec.add (Vec.sub a b) b) at 1.
    - apply length_add_le.
    - apply Vector3_eq; cbn [Vec.add Vec.sub vx vy vz]; ring. }
  assert (H2 : Vec.length b <= Vec.length (Vec.sub a b) + Vec.length a).
  { replace (Vec.length (Vec.sub a b)) with (Vec.length (Vec.sub b a)).
    - replace b with (Vec.add (Vec.sub b a) a) at 1.
      + apply length_add_le.
      + apply Vector3_eq; cbn [Vec.add Vec.sub vx vy vz]; ring.
    - unfold Vec.length, Vec.sub. cbn [vx vy vz]. f_equal. ring. }
  apply Rabs_le. lra.
Qed.

Lemma pow2_24 : 2 ^ 24 = 16777216.
Proof. lra. Qed.

Lemma inv_pow2_150_small : 0 < / 2 ^ 150 <= / 10 ^ 9.
Proof.
  split; [apply Rinv_0_lt_compat, pow_lt; lra|].
  apply Rinv_le_contravar; [apply pow_lt; lra|].
  replace (2 ^ 150) with ((2 ^ 10) ^ 15) by (rewrite <- pow_mult; reflexivity).
  apply Rle_trans with ((2 ^ 10) ^ 3).
  - replace (2 ^ 10) with 1024 by lra. lra.
  - apply Rle_pow; [lra | lia].
Qed.

(** A store of a value of magnitude at most [V]. *)
Lemma fround_error_le (x V : R) :
  Rabs x <= V -> Rabs (fround x - x) <= V / 2 ^ 24 + / 2 ^ 150.
Proof.
  intros H. pose proof (fround_error x) as He. rewrite pow2_24 in *.
  unfold Rdiv in *. lra.
Qed.

(** The reflected component, stored, then damped and stored again. *)
Lemma fround_twice_error (a d V : R) :
  Rabs a <= V -> 0 <= d ->
  Rabs (fround (fround a * d) - a * d)
  <= (1 + d) * (3 * V / 2 ^ 24 + 3 / 2 ^ 150).
Proof.
  intros Ha Hd.
  pose proof inv_pow2_150_small as [He0 He1].
  pose proof (Rabs_pos a) as Ha0.
  pose proof (fround_error_le a V Ha) as H1.
  set (E := V / 2 ^ 24 + / 2 ^ 150) in *.
  assert (HE : 0 <= E) by (pose proof (Rabs_pos (fround a - a)); lra).
  assert (Hf1 : Rabs (fround a) <= V + E).
  { replace (fround a) with (a + (fround a - a)) by ring.
    eapply Rle_trans; [apply Rabs_triang|]. lra. }
  assert (Hf1d : Rabs (fround a * d) <= (V + E) * d).
  { rewrite Rabs_mult, (Rabs_pos_eq d) by lra.
    apply Rmult_le_compat_r; lra. }
  pose proof (fround_error_le (fround a * d) _ Hf1d) as H2.
  assert (H3 : Rabs (fround a * d - a * d) <= E * d).
  { replace (fround a * d - a * d) with ((fround a - a) * d) by ring.
    rewrite Rabs_mult, (Rabs_pos_eq d) by lra.
    apply Rmult_le_compat_r; lra. }
  replace (fround (fround a * d) - a * d)
    with ((fround (fround a * d) - fround a * d) + (fround a * d - a * d)) by ring.
  eapply Rle_trans; [apply Rabs_triang|].
  assert (HX : (V + E) / 2 ^ 24 + E <= 3 * V / 2 ^ 24 + 3 / 2 ^ 150).
  { unfold E. rewrite pow2_24. unfold Rdiv. lra. }
  assert (HdX : d * ((V + E) / 2 ^ 24 + E)
                <= d * (3 * V / 2 ^ 24 + 3 / 2 ^ 150))
    by (apply Rmult_le_compat_l; lra).
  assert (Hsum : (V + E) * d / 2 ^ 24 + / 2 ^ 150 + E * d
                 = d * ((V + E) / 2 ^ 24 + E) + / 2 ^ 150)
    by (unfold Rdiv; ring).
  assert (H0 : / 2 ^ 150 <= 3 * V / 2 ^ 24 + 3 / 2 ^ 150).
  { rewrite pow2_24. unfold Rdiv. lra. }
  lra.
Qed.

(** *** The stored values at a concrete input *)

Lemma fround_eq_pos (x : R) (e m : Z) (q : R) :
  (-126 <= e)%Z ->
  powerRZ 2 e <= x < powerRZ 2 (e + 1) ->
  q = powerRZ 2 (e - 23) ->
  (IZR m - 1 / 2) * q < x < (IZR m + 1 / 2) * q ->
  fround x = IZR m * q.
Proof.
  intros He Hb Hq Hm. pose proof (powerRZ_2_pos e).
  apply (fround_eq x e m q); try assumption.
  rewrite Rabs_pos_eq by lra. exact Hb.
Qed.

Lemma fround_eq_neg (x : R) (e m : Z) (q : R) :
  (-126 <= e)%Z ->
  powerRZ 2 e <= - x < powerRZ 2 (e + 1) ->
  q = powerRZ 2 (e - 23) ->
  (IZR m - 1 / 2) * q < - x < (IZR m + 1 / 2) * q ->
  fround x = - (IZR m * q).
Proof.
  intros He Hb Hq Hm. pose proof (powerRZ_2_pos e).
  assert (Hq0 : 0 < q) by (rewrite Hq; apply powerRZ_2_pos).
  replace (- (IZR m * q)) with (IZR (- m) * q) by (rewrite opp_IZR; ring).
  apply (fround_eq x e (- m) q); try assumption.
  - rewrite Rabs_left by lra. exact Hb.
  - rewrite opp_IZR. lra.
Qed.

Lemma sqrt_between (x lo hi : R) :
  0 <= lo -> 0 < hi -> lo * lo < x < hi * hi -> lo < sqrt x < hi.
Proof.
  intros Hlo Hhi [H1 H2].
  assert (Hx : 0 <= x) by (pose proof (Rle_0_sqr lo); unfold Rsqr in *; lra).
  split.
  - rewrite <- (sqrt_square lo Hlo). apply sqrt_lt_1_alt. split; [|exact H1].
    pose proof (Rle_0_sqr lo). unfold Rsqr in *. lra.
  - rewrite <- (sqrt_square hi) by lra. apply sqrt_lt_1_alt. lra.
Qed.

Lemma grazing_distance :
  433012701892 / 10 ^ 12
  < sqrt (1 / 4 * (1 / 4) + 1 / 4 * (1 / 4) + 1 / 4 * (1 / 4))
  < 433012701893 / 10 ^ 12.
Proof. apply sqrt_between; lra. Qed.

Lemma wf_grazingWorld : wf (particleSystem grazingWorld).
Proof. split; reflexivity. Qed.

(** What the pass stores for the particle of [grazingWorld]: the position
    0.46188020706..., the velocity (0.60000002384..., -0.60000002384...,
    -1.8626451769...e-10). *)
Lemma grazingWorld_stored :
  particle 0 (particleSystem (Stored.handleRigidBodyCollisions 0 grazingWorld))
  = mkParticle
      (mkVector3 (15498128 / 2 ^ 25) (15498128 / 2 ^ 25) (15498128 / 2 ^ 25))
      (mkVector3 (10066330 / 2 ^ 24) (- (10066330 / 2 ^ 24))
                 (- (13421773 / 2 ^ 56))).
Proof.
  pose proof grazing_distance as HL.
  pose proof (norm_sqr (1 / 4) (1 / 4) (1 / 4)) as HLL.
  set (L := sqrt (1 / 4 * (1 / 4) + 1 / 4 * (1 / 4) + 1 / 4 * (1 / 4))) in *.
  rewrite (Stored_single_sphere_pass 0 grazingWorld
             (droppedSphere (mkVector3 0 0 0)) eq_refl eq_refl).
  cbv zeta.
  change (getPos 0 0 (particleSystem grazingWorld)) with (1 / 4).
  change (getPos 0 1 (particleSystem grazingWorld)) with (1 / 4).
  change (getPos 0 2 (particleSystem grazingWorld)) with (1 / 4).
  change (position (droppedSphere (mkVector3 0 0 0))) with (mkVector3 0 0 0).
  cbn [vx vy vz]. replace (1 / 4 - 0) with (1 / 4) by lra.
  pose proof (Stored_sphereTest_inside 0 (1 / 4) (1 / 4) (1 / 4)
                (droppedSphere (mkVector3 0 0 0)) (particleSystem grazingWorld)
                wf_grazingWorld ltac:(cbn; lia)) as H.
  cbv zeta in H. rewrite droppedSphere_radius in H. fold L in H.
  rewrite H by lra. clear H.
  change (position (droppedSphere (mkVector3 0 0 0))) with (mkVector3 0 0 0).
  change (vel (particle 0 (particleSystem grazingWorld)))
    with (mkVector3 1 (-1) (- / 2 ^ 30)).
  change (damping (params (particleSystem grazingWorld))) with (6 / 10).
  cbn [vx vy vz].
  (* the normal: each component is t = 1 / sqrt 3 *)
  set (t := 1 / 4 / L).
  assert (Ht : 5773502691 / 10 ^ 10 < t < 5773502692 / 10 ^ 10).
  { assert (Hinv : 23094010767 / 10 ^ 10 < / L < 23094010768 / 10 ^ 10).
    { split; apply Rmult_lt_reg_r with L; try lra;
        rewrite Rinv_l by lra; lra. }
    unfold t, Rdiv. lra. }
  assert (Htt : t * t = 1 / 3).
  { unfold t. replace (1 / 4 / L * (1 / 4 / L)) with (1 / 16 / (L * L))
      by (field; lra).
    rewrite HLL. lra. }
  set (dot := 1 * t + -1 * t + - / 2 ^ 30 * t).
  assert (Hdot : (dot <? 0) = true).
  { apply Rltb_true. unfold dot. lra. }
  rewrite Hdot.
  assert (Hx : 1 - 2 * dot * t = 1 + 2 / 3 / 2 ^ 30).
  { replace (1 - 2 * dot * t) with (1 + 2 * / 2 ^ 30 * (t * t))
      by (unfold dot; ring).
    rewrite Htt. lra. }
  assert (Hy : -1 - 2 * dot * t = - (1 - 2 / 3 / 2 ^ 30)).
  { replace (-1 - 2 * dot * t) with (-1 + 2 * / 2 ^ 30 * (t * t))
      by (unfold dot; ring).
    rewrite Htt. lra. }
  assert (Hz : - / 2 ^ 30 - 2 * dot * t = - (1 / 3 / 2 ^ 30)).
  { replace (- / 2 ^ 30 - 2 * dot * t)
      with (- / 2 ^ 30 + 2 * / 2 ^ 30 * (t * t))
      by (unfold dot; ring).
    rewrite Htt. lra. }
  rewrite Hx, Hy, Hz.
  (* the six stores *)
  assert (Fp : fround (0 + t * (8 / 10)) = 15498128 / 2 ^ 25).
  { rewrite (fround_eq_pos _ (-2) 15498128 (/ 2 ^ 25));
      [unfold Rdiv; reflexivity | lia | simpl; lra | reflexivity | lra]. }
  assert (Fx1 : fround (1 + 2 / 3 / 2 ^ 30) = 1).
  { rewrite (fround_eq_pos _ 0 8388608 (/ 2 ^ 23));
      [lra | lia | simpl; lra | reflexivity | lra]. }
  assert (Fx2 : fround (1 * (6 / 10)) = 10066330 / 2 ^ 24).
  { rewrite (fround_eq_pos _ (-1) 10066330 (/ 2 ^ 24));
      [unfold Rdiv; reflexivity | lia | simpl; lra | reflexivity | lra]. }
  assert (Fy1 : fround (- (1 - 2 / 3 / 2 ^ 30)) = - (1)).
  { rewrite (fround_eq_neg _ (-1) 16777216 (/ 2 ^ 24));
      [lra | lia | simpl; lra | reflexivity | lra]. }
  assert (Fy2 : fround (- (1) * (6 / 10)) = - (10066330 / 2 ^ 24)).
  { rewrite (fround_eq_neg _ (-1) 10066330 (/ 2 ^ 24));
      [unfold Rdiv; reflexivity | lia | simpl; lra | reflexivity | lra]. }
  assert (Fz1 : fround (- (1 / 3 / 2 ^ 30)) = - (11184811 / 2 ^ 55)).
  { rewrite (fround_eq_neg _ (-32) 11184811 (/ 2 ^ 55));
      [unfold Rdiv; reflexivity | lia | simpl; lra | reflexivity | lra]. }
  assert (Fz2 : fround (- (11184811 / 2 ^ 55) * (6 / 10))
                = - (13421773 / 2 ^ 56)).
  { rewrite (fround_eq_neg _ (-33) 13421773 (/ 2 ^ 56));
      [unfold Rdiv; reflexivity | lia | simpl; lra | reflexivity | lra]. }
  rewrite Fp, Fx1, Fx2, Fy1, Fy2, Fz1, Fz2. reflexivity.
Qed.

(** The unit normal of the sphere test. *)
Lemma unit_normal (dx dy dz : R) :
  let d := sqrt (dx * dx + dy * dy + dz * dz) in
  0 < d ->
  dx / d * (dx / d) + dy / d * (dy / d) + dz / d * (dz / d) = 1.
Proof.
  intros d Hd. pose proof (norm_sqr dx dy dz) as Hsq. fold d in Hsq.
  replace (dx / d * (dx / d) + dy / d * (dy / d) + dz / d * (dz / d))
    with ((dx * dx + dy * dy + dz * dz) / (d * d)) by (field; lra).
  rewrite <- Hsq. field. lra.
Qed.

Lemma length_unit (n : Vector3) :
  vx n * vx n + vy n * vy n + vz n * vz n = 1 -> Vec.length n = 1.
Proof.
  intros H. unfold Vec.length. rewrite H. apply sqrt_1.
Qed.

(** C4, as amended.  A sphere of radius 0.8 and density 2700 at rest is the
    only body; particle [i] is inside it, at a positive distance [d < 0.8]
    from its centre [c]; the damping coefficient is not negative.  The
    fluid-to-rigid collision pass stores, as the position of the particle,
    the binary32 rounding of the point [s] of the sphere's surface on the
    radius through the old position.  The distance of the stored position
    from the centre is the radius to within [(1 + |c|) / 10^6]; it can be
    less than the radius.  The component of the stored velocity along the
    contact normal [n] is at least [- (1 + damping) (1 + |v|) / 10^6], where
    [v] is the velocity before the pass; it can be negative. *)
Theorem sphere_pass_stores_rounded_surface_point
    (w : World) (i : nat) (c : Vector3) :
  wf (particleSystem w) ->
  (i < numParticles (particleSystem w))%nat ->
  rigidBodies w = [droppedSphere c] ->
  0 <= damping (params (particleSystem w)) ->
  let p := pos (particle i (particleSystem w)) in
  let v := vel (particle i (particleSystem w)) in
  let d := Vec.length (Vec.sub p c) in
  0 < d < 8 / 10 ->
  let n := mkVector3 (vx (Vec.sub p c) / d) (vy (Vec.sub p c) / d)
                     (vz (Vec.sub p c) / d) in
  let s := Vec.add c (Vec.multiplyScalar n (8 / 10)) in
  let q' := particle i (particleSystem (Stored.handleRigidBodyCollisions i w)) in
  pos q' = mkVector3 (fround (vx s)) (fround (vy s)) (fround (vz s))
  /\ Vec.length (Vec.sub s c) = 8 / 10
  /\ Rabs (Vec.length (Vec.sub (pos q') c) - 8 / 10)
     <= (1 + Vec.length c) / 10 ^ 6
  /\ - ((1 + damping (params (particleSystem w))) * (1 + Vec.length v) / 10 ^ 6)
     <= Vec.dot (vel q') n.
Proof.
  intros Hwf Hi Hb Hdamp p v d Hd n s q'.
  pose proof inv_pow2_150_small as [He0 He1].
  assert (He9 : / 10 ^ 9 = 1 / 1000000000) by lra.
  set (dx := getPos i 0 (particleSystem w) - vx c).
  set (dy := getPos i 1 (particleSystem w) - vy c).
  set (dz := getPos i 2 (particleSystem w) - vz c).
  assert (Hdd : d = sqrt (dx * dx + dy * dy + dz * dz)) by reflexivity.
  assert (Hn : n = mkVector3 (dx / d) (dy / d) (dz / d)) by reflexivity.
  assert (Hnn : vx n * vx n + vy n * vy n + vz n * vz n = 1).
  { rewrite Hn. cbn [vx vy vz]. rewrite Hdd. apply unit_normal.
    rewrite <- Hdd. lra. }
  pose proof (length_unit n Hnn) as Hn1.
  destruct (component_le_length n) as (Hnx & Hny & Hnz). rewrite Hn1 in *.
  (* what the pass stores *)
  assert (Hq : q' = mkParticle
                 (mkVector3 (fround (vx s)) (fround (vy s)) (fround (vz s)))
                 (if Vec.dot v n <? 0 then
                    mkVector3
                      (fround (fround (vx v - 2 * Vec.dot v n * vx n)
                               * damping (params (particleSystem w))))
                      (fround (fround (vy v - 2 * Vec.dot v n * vy n)
                               * damping (params (particleSystem w))))
                      (fround (fround (vz v - 2 * Vec.dot v n * vz n)
                               * damping (params (particleSystem w))))
                  else v)).
  { unfold q'.
    rewrite (Stored_single_sphere_pass i w (droppedSphere c) Hb eq_refl).
    cbv zeta.
    change (position (droppedSphere c)) with c. fold dx dy dz.
    pose proof (Stored_sphereTest_inside i dx dy dz (droppedSphere c)
                  (particleSystem w) Hwf Hi) as H.
    cbv zeta in H. rewrite droppedSphere_radius in H.
    rewrite <- Hdd in H. apply H. exact Hd. }
  (* the point written is on the surface *)
  assert (Hs : Vec.length (Vec.sub s c) = 8 / 10).
  { unfold s, Vec.length, Vec.sub, Vec.add, Vec.multiplyScalar.
    cbn [vx vy vz].
    replace (_ + _ + _)
      with (8 / 10 * (8 / 10) * (vx n * vx n + vy n * vy n + vz n * vz n))
      by ring.
    rewrite Hnn, Rmult_1_r. apply sqrt_sqr_pos. lra. }
  rewrite Hq. cbn [pos vel].
  split; [reflexivity|]. split; [exact Hs|]. split.
  - (* the stored position is close to the surface *)
    set (p' := mkVector3 (fround (vx s)) (fround (vy s)) (fround (vz s))).
    rewrite <- Hs.
    eapply Rle_trans; [apply length_sub_ge|].
    eapply Rle_trans; [apply length_le_sum|].
    cbn [Vec.sub p' vx vy vz].
    replace (fround (vx s) - vx c - (vx s - vx c)) with (fround (vx s) - vx s) by ring.
    replace (fround (vy s) - vy c - (vy s - vy c)) with (fround (vy s) - vy s) by ring.
    replace (fround (vz s) - vz c - (vz s - vz c)) with (fround (vz s) - vz s) by ring.
    destruct (component_le_length c) as (Hcx & Hcy & Hcz).
    pose proof (length_nonneg c) as Hc0.
    assert (Hbound : forall ck nk,
              Rabs ck <= Vec.length c -> Rabs nk <= 1 ->
              Rabs (ck + nk * (8 / 10)) <= Vec.length c + 8 / 10).
    { intros ck nk Hck Hnk. eapply Rle_trans; [apply Rabs_triang|].
      rewrite Rabs_mult, (Rabs_pos_eq (8 / 10)) by lra. lra. }
    pose proof (fround_error_le (vx s) _ (Hbound _ _ Hcx Hnx)) as Ex.
    pose proof (fround_error_le (vy s) _ (Hbound _ _ Hcy Hny)) as Ey.
    pose proof (fround_error_le (vz s) _ (Hbound _ _ Hcz Hnz)) as Ez.
    rewrite pow2_24 in *. unfold Rdiv in *.
    replace (10 ^ 6) with 1000000 by lra. lra.
  - (* the stored velocity is not inward, up to the rounding *)
    pose proof (length_nonneg v) as Hv0.
    set (dmp := damping (params (particleSystem w))) in *.
    assert (Hslack : 0 <= (1 + dmp) * (1 + Vec.length v) / 10 ^ 6).
    { apply Rmult_le_pos; [apply Rmult_le_pos; lra|].
      left. apply Rinv_0_lt_compat, pow_lt. lra. }
    destruct (Vec.dot v n <? 0) eqn:E;
      [apply Rltb_true in E | apply Rltb_false in E; lra].
    set (dot := Vec.dot v n) in *.
    set (a := mkVector3 (vx v - 2 * dot * vx n) (vy v - 2 * dot * vy n)
                        (vz v - 2 * dot * vz n)).
    assert (Ha : Vec.length a = Vec.length v).
    { unfold Vec.length. f_equal. unfold a. cbn [vx vy vz].
      replace ((vx v - 2 * dot * vx n) * (vx v - 2 * dot * vx n)
               + (vy v - 2 * dot * vy n) * (vy v - 2 * dot * vy n)
               + (vz v - 2 * dot * vz n) * (vz v - 2 * dot * vz n))
        with (vx v * vx v + vy v * vy v + vz v * vz v
              - 4 * dot * (vx v * vx n + vy v * vy n + vz v * vz n)
              + 4 * dot * dot * (vx n * vx n + vy n * vy n + vz n * vz n))
        by ring.
      rewrite Hnn. change (vx v * vx n + vy v * vy n + vz v * vz n) with dot.
      ring. }
    destruct (component_le_length a) as (Hax & Hay & Haz). rewrite Ha in *.
    cbn [a vx vy vz] in Hax, Hay, Haz.
    pose proof (fround_twice_error _ dmp _ Hax Hdamp) as Ex.
    pose proof (fround_twice_error _ dmp _ Hay Hdamp) as Ey.
    pose proof (fround_twice_error _ dmp _ Haz Hdamp) as Ez.
    set (fx := fround (fround (vx v - 2 * dot * vx n) * dmp)) in *.
    set (fy := fround (fround (vy v - 2 * dot * vy n) * dmp)) in *.
    set (fz := fround (fround (vz v - 2 * dot * vz n) * dmp)) in *.
    unfold Vec.dot. cbn [vx vy vz].
    change (vx n) with (dx / d) in *. change (vy n) with (dy / d) in *.
    change (vz n) with (dz / d) in *.
    set (nx := dx / d) in *. set (ny := dy / d) in *. set (nz := dz / d) in *.
    assert (Hexact : 0 <= (vx v - 2 * dot * nx) * dmp * nx
                          + (vy v - 2 * dot * ny) * dmp * ny
                          + (vz v - 2 * dot * nz) * dmp * nz).
    { replace (_ + _ + _)
        with (dmp * (vx v * nx + vy v * ny + vz v * nz
                     - 2 * dot * (nx * nx + ny * ny + nz * nz))) by ring.
      rewrite Hnn. change (vx v * nx + vy v * ny + vz v * nz) with dot.
      replace (dmp * (dot - 2 * dot * 1)) with (dmp * (- dot)) by ring.
      apply Rmult_le_pos; lra. }
    assert (Hterm : forall f e k B,
              Rabs (f - e) <= B -> Rabs k <= 1 -> e * k - B <= f * k).
    { intros f e k B Hfe Hk.
      assert (H1 : Rabs ((f - e) * k) <= B).
      { rewrite Rabs_mult. pose proof (Rabs_pos (f - e)). pose proof (Rabs_pos k).
        apply Rle_trans with (Rabs (f - e) * 1); [|lra].
        apply Rmult_le_compat_l; lra. }
      pose proof (Rle_abs (- ((f - e) * k))) as H2.
      rewrite Rabs_Ropp in H2. lra. }
    pose proof (Hterm _ _ _ _ Ex Hnx) as Tx.
    pose proof (Hterm _ _ _ _ Ey Hny) as Ty.
    pose proof (Hterm _ _ _ _ Ez Hnz) as Tz.
    set (K := 3 * Vec.length v / 2 ^ 24 + 3 / 2 ^ 150) in *.
    assert (HK : 3 * K <= (1 + Vec.length v) / 10 ^ 6).
    { unfold K. rewrite pow2_24. unfold Rdiv.
      replace (10 ^ 6) with 1000000 by lra. lra. }
    assert (HM : (1 + dmp) * (3 * K) <= (1 + dmp) * ((1 + Vec.length v) / 10 ^ 6))
      by (apply Rmult_le_compat_l; lra).
    replace ((1 + dmp) * (1 + Vec.length v) / 10 ^ 6)
      with ((1 + dmp) * ((1 + Vec.length v) / 10 ^ 6))
      by (unfold Rdiv; ring).
    lra.
Qed.

Lemma grazingWorld_overlap :
  0 < Vec.length (Vec.sub (pos (particle 0 (particleSystem grazingWorld)))
                          (mkVector3 0 0 0)) < 8 / 10.
Proof.
  unfold Vec.length, Vec.sub.
  change (pos (particle 0 (particleSystem grazingWorld)))
    with (mkVector3 (1 / 4) (1 / 4) (1 / 4)).
  cbn [vx vy vz]. apply sqrt_between; lra.
Qed.

Lemma sphere_pass_stores_rounded_surface_point_witness :
  Rabs (Vec.length
          (Vec.sub (pos (particle 0 (particleSystem
                                       (Stored.handleRigidBodyCollisions 0
                                          grazingWorld))))
                   (mkVector3 0 0 0)) - 8 / 10)
  <= (1 + Vec.length (mkVector3 0 0 0)) / 10 ^ 6.
Proof.
  refine (proj1 (proj2 (proj2
    (sphere_pass_stores_rounded_surface_point grazingWorld 0%nat
       (mkVector3 0 0 0) wf_grazingWorld _ eq_refl _ grazingWorld_overlap)))).
  - cbn. lia.
  - cbn. lra.
Defined.

(** C4, as stated, fails on the stored arrays.  The particle of
    [grazingWorld] ends the pass at 0.46188020706... on each axis, at
    distance 0.79999998564... from the centre of the sphere: inside it, not
    strictly outside.  Its stored velocity has the component
    -1.8626451769...e-10 / sqrt 3 along the contact normal: inward. *)
Lemma stored_particle_ends_inside_sphere_moving_inward :
  ~ (vx (size (droppedSphere (mkVector3 0 0 0)))
     < Vec.length
         (Vec.sub (pos (particle 0 (particleSystem
                                      (Stored.handleRigidBodyCollisions 0
                                         grazingWorld))))
                  (position (droppedSphere (mkVector3 0 0 0)))))
  /\ ~ (0 <= Vec.dot
               (vel (particle 0 (particleSystem
                                   (Stored.handleRigidBodyCollisions 0
                                      grazingWorld))))
               (Vec.normalize
                  (Vec.sub (pos (particle 0 (particleSystem grazingWorld)))
                           (position (droppedSphere (mkVector3 0 0 0)))))).
Proof.
  rewrite grazingWorld_stored, droppedSphere_radius.
  change (position (droppedSphere (mkVector3 0 0 0))) with (mkVector3 0 0 0).
  cbn [pos vel]. split.
  - unfold Vec.length, Vec.sub. cbn [vx vy vz].
    match goal with
    | |- ~ (_ < sqrt ?x) =>
        assert (H : 0 < sqrt x < 7999999857 / 10 ^ 10)
          by (apply sqrt_between; lra)
    end.
    lra.
  - pose proof grazingWorld_overlap as Hd.
    change (pos (particle 0 (particleSystem grazingWorld)))
      with (mkVector3 (1 / 4) (1 / 4) (1 / 4)) in *.
    unfold Vec.normalize. cbv zeta.
    set (l := Vec.length (Vec.sub (mkVector3 (1 / 4) (1 / 4) (1 / 4))
                                  (mkVector3 0 0 0))) in *.
    assert (E : (l =? 0) = false) by (apply Reqb_false; lra).
    rewrite E. unfold Vec.dot, Vec.sub. cbn [vx vy vz].
    assert (Hinv : 0 < / l) by (apply Rinv_0_lt_compat; lra).
    replace (10066330 / 2 ^ 24 * ((1 / 4 - 0) / l)
             + - (10066330 / 2 ^ 24) * ((1 / 4 - 0) / l)
             + - (13421773 / 2 ^ 56) * ((1 / 4 - 0) / l))
      with (- (13421773 / 2 ^ 56 * (1 / 4)) * / l)
      by (unfold Rdiv; ring).
    assert (Hk : 0 < 13421773 / 2 ^ 56 * (1 / 4)) by lra.
    pose proof (Rmult_lt_0_compat _ _ Hk Hinv). lra.
Qed.

(** The rounding goes either way: the particle of [overlapWorld], 0.4 from
    the centre on the x axis and moving towards it at speed 1, is stored at
    0.80000001192..., outside the sphere, with the velocity
    0.60000002384... away from it. *)
Lemma overlapWorld_stored :
  particle 0 (particleSystem (Stored.handleRigidBodyCollisions 0 overlapWorld))
  = mkParticle (mkVector3 (13421773 / 2 ^ 24) 0 0)
               (mkVector3 (10066330 / 2 ^ 24) 0 0).
Proof.
  rewrite (Stored_single_sphere_pass 0 overlapWorld
             (droppedSphere (mkVector3 0 0 0)) eq_refl eq_refl).
  cbv zeta.
  change (getPos 0 0 (particleSystem overlapWorld)) with (4 / 10).
  change (getPos 0 1 (particleSystem overlapWorld)) with 0.
  change (getPos 0 2 (particleSystem overlapWorld)) with 0.
  change (position (droppedSphere (mkVector3 0 0 0))) with (mkVector3 0 0 0).
  cbn [vx vy vz]. rewrite !Rminus_0_r.
  assert (Hd : sqrt (4 / 10 * (4 / 10) + 0 * 0 + 0 * 0) = 4 / 10).
  { replace (4 / 10 * (4 / 10) + 0 * 0 + 0 * 0) with (4 / 10 * (4 / 10)) by ring.
    apply sqrt_sqr_pos. lra. }
  pose proof (Stored_sphereTest_inside 0 (4 / 10) 0 0
                (droppedSphere (mkVector3 0 0 0)) (particleSystem overlapWorld)
                wf_overlapWorld ltac:(cbn; lia)) as H.
  cbv zeta in H. rewrite droppedSphere_radius, Hd in H.
  rewrite H by lra. clear H.
  change (position (droppedSphere (mkVector3 0 0 0))) with (mkVector3 0 0 0).
  change (vel (particle 0 (particleSystem overlapWorld)))
    with (mkVector3 (-1) 0 0).
  change (damping (params (particleSystem overlapWorld))) with (6 / 10).
  cbn [vx vy vz].
  replace (4 / 10 / (4 / 10)) with 1 by (field; lra).
  replace (0 / (4 / 10)) with 0 by (unfold Rdiv; ring).
  replace (-1 * 1 + 0 * 0 + 0 * 0) with (-1) by ring.
  assert (Hdot : (-1 <? 0) = true) by (apply Rltb_true; lra).
  rewrite Hdot.
  replace (0 + 1 * (8 / 10)) with (8 / 10) by ring.
  replace (0 + 0 * (8 / 10)) with 0 by ring.
  replace (-1 - 2 * -1 * 1) with 1 by ring.
  replace (0 - 2 * -1 * 0) with 0 by ring.
  rewrite fround_0. replace (0 * (6 / 10)) with 0 by ring. rewrite fround_0.
  assert (Fp : fround (8 / 10) = 13421773 / 2 ^ 24).
  { rewrite (fround_eq_pos _ (-1) 13421773 (/ 2 ^ 24));
      [unfold Rdiv; reflexivity | lia | simpl; lra | reflexivity | lra]. }
  assert (F1 : fround 1 = 1).
  { rewrite (fround_eq_pos _ 0 8388608 (/ 2 ^ 23));
      [lra | lia | simpl; lra | reflexivity | lra]. }
  assert (F2 : fround (1 * (6 / 10)) = 10066330 / 2 ^ 24).
  { rewrite (fround_eq_pos _ (-1) 10066330 (/ 2 ^ 24));
      [unfold Rdiv; reflexivity | lia | simpl; lra | reflexivity | lra]. }
  rewrite Fp, F1, F2. reflexivity.
Qed.

Lemma overlapWorld_stored_outside :
  8 / 10
  < Vec.length
      (Vec.sub (pos (particle 0 (particleSystem
                                   (Stored.handleRigidBodyCollisions 0
                                      overlapWorld))))
               (mkVector3 0 0 0)).
Proof.
  rewrite overlapWorld_stored. unfold Vec.length, Vec.sub. cbn [pos vx vy vz].
  match goal with
  | |- _ < sqrt ?x =>
      assert (H : 80000001 / 10 ^ 8 < sqrt x < 1)
        by (apply sqrt_between; lra)
  end.
  lra.
Qed.

(** ** Rigid coupling: the body types without a branch *)

Lemma collideWithBody_uncoupled i px py pz body w :
  coupledType (type body) = false ->
  collideWithBody i px py pz body w = w.
Proof.
  unfold collideWithBody. cbv zeta. destruct (type body); cbn; congruence.
Qed.

Lemma forBodiesFrom_uncoupled i px py pz n : forall k w,
  Forall (fun body => coupledType (type body) = false) (rigidBodies w) ->
  forBodiesFrom (collideWithBody i px py pz) n k w = w.
Proof.
  induction n as [|n IH]; intros k w Hall; cbn [forBodiesFrom]; [reflexivity|].
  destruct (rigidBodies w !! k) as [body|] eqn:Hk; [|reflexivity].
  rewrite collideWithBody_uncoupled.
  - now apply IH.
  - exact (proj1 (Forall_lookup _ _) Hall k body Hk).
Qed.

(** C2 fails on the code.  The pass has a branch for four type tags only:
    sphere, cylinder and torus take the sphere test, cube the axis-aligned
    test.  Cone, boat, hollow-sphere, hollow-cube and hollow-cylinder take
    no test: a pass over bodies of these types returns the state it was
    given, wherever the particle is. *)
Theorem uncoupled_body_types_are_skipped (i : nat) (w : World) :
  Forall (fun body => coupledType (type body) = false) (rigidBodies w) ->
  coupledType cone = false
  /\ coupledType boat = false
  /\ coupledType hollow_sphere = false
  /\ coupledType hollow_cube = false
  /\ coupledType hollow_cylinder = false
  /\ handleRigidBodyCollisions i w = w.
Proof.
  intros Hall. repeat split.
  unfold handleRigidBodyCollisions, forBodies. cbv zeta.
  now apply forBodiesFrom_uncoupled.
Qed.

Lemma uncoupled_body_types_are_skipped_witness :
  handleRigidBodyCollisions 0 coneWorld = coneWorld.
Proof.
  refine (proj2 (proj2 (proj2 (proj2 (proj2
    (uncoupled_body_types_are_skipped 0%nat coneWorld _)))))).
  repeat constructor.
Defined.

(** ** Per-step update: buoyancy and drag *)

Lemma applyBuoyancy_velocity dt gravity fluidDensity b :
  velocity (applyBuoyancy dt gravity fluidDensity b)
  = mkVector3 (vx (velocity b))
      (vy (velocity b)
       + gravity * (1 - fluidDensity / density b * (8 / 10)) * dt)
      (vz (velocity b)).
Proof. reflexivity. Qed.

Lemma applyDrag_velocity dt fluidDensity b :
  velocity (applyDrag dt fluidDensity b)
  = Vec.multiplyScalar (velocity b)
      (1 - 1 / 100 * Rmin (fluidDensity / 1000) 2 * dt * 60).
Proof. reflexivity. Qed.

(** C8, as amended.  [update] starts, for the body it is called on, with the
    buoyancy step, the drag step and the move, before the pairwise
    collisions.  For a body of density [rho_b > 0] the buoyancy step adds
    [g * (1 - 0.8 * (rho_f / rho_b)) * dt] to the vertical velocity and
    leaves the other two components; the drag step then scales the whole
    velocity by [1 - 0.01 * min (rho_f / 1000, 2) * dt * 60].  The ambient
    fluid density thus reaches the body through two channels, the buoyancy
    factor and the drag factor. *)
Theorem update_applies_buoyancy_then_drag
    (applyEuler : Euler -> Vector3 -> Vector3)
    (self : nat) (dt gravity : R) (boundMin boundMax : Vector3)
    (damping fluidDensity : R) (allBodies : list RigidBody) (b : RigidBody) :
  allBodies !! self = Some b ->
  0 < density b ->
  let buoyancyFactor := fluidDensity / density b in
  let dragFactor := Rmin (fluidDensity / 1000) 2 in
  update applyEuler self dt gravity boundMin boundMax damping fluidDensity allBodies
  = alter (fun b' => boundaryHandling applyEuler boundMin boundMax (spin dt b')) self
      (checkObjectCollisions self
         (alter (fun b' => moveBody dt
                   (applyDrag dt fluidDensity
                      (applyBuoyancy dt gravity fluidDensity b')))
                self allBodies))
  /\ alter (fun b' => moveBody dt
               (applyDrag dt fluidDensity
                  (applyBuoyancy dt gravity fluidDensity b')))
            self allBodies !! self
     = Some (moveBody dt
               (applyDrag dt fluidDensity (applyBuoyancy dt gravity fluidDensity b)))
  /\ vy (velocity (applyBuoyancy dt gravity fluidDensity b))
     = vy (velocity b) + gravity * (1 - 8 / 10 * buoyancyFactor) * dt
  /\ vx (velocity (applyBuoyancy dt gravity fluidDensity b)) = vx (velocity b)
  /\ vz (velocity (applyBuoyancy dt gravity fluidDensity b)) = vz (velocity b)
  /\ velocity (applyDrag dt fluidDensity (applyBuoyancy dt gravity fluidDensity b))
     = Vec.multiplyScalar
         (mkVector3 (vx (velocity b))
            (vy (velocity b) + gravity * (1 - 8 / 10 * buoyancyFactor) * dt)
            (vz (velocity b)))
         (1 - 1 / 100 * dragFactor * dt * 60).
Proof.
  intros Hself Hdens buoyancyFactor dragFactor.
  split; [reflexivity|].
  split; [rewrite list_lookup_alter_eq, Hself; reflexivity|].
  rewrite applyDrag_velocity, applyBuoyancy_velocity. cbn [vx vy vz].
  unfold buoyancyFactor, dragFactor.
  repeat split; try reflexivity; try ring.
  f_equal. f_equal. ring.
Qed.

Lemma update_applies_buoyancy_then_drag_witness :
  vy (velocity (applyBuoyancy (3 / 1000) (- (98 / 10)) 1000
                  (droppedSphere (mkVector3 0 10 0))))
  = vy (velocity (droppedSphere (mkVector3 0 10 0)))
    + - (98 / 10)
      * (1 - 8 / 10 * (1000 / density (droppedSphere (mkVector3 0 10 0))))
      * (3 / 1000).
Proof.
  refine (proj1 (proj2 (proj2
    (update_applies_buoyancy_then_drag noRotation 0%nat (3 / 1000) (- (98 / 10))
       (mkVector3 (-8) (-5) (-8)) (mkVector3 8 12 8) (6 / 10) 1000
       [droppedSphere (mkVector3 0 10 0)] (droppedSphere (mkVector3 0 10 0))
       eq_refl _)))).
  cbn. lra.
Defined.

(** C8, as stated, fails on its last part: the buoyancy factor is not the
    only way the fluid reaches the body.  Water around a body of density
    2000 and a fluid of density 500 around a body of density 1000 give the
    same buoyancy factor, 0.5; the two bodies, otherwise equal and moving
    alike, leave the buoyancy and drag steps with different velocities. *)
Lemma buoyancy_factor_is_not_the_sole_channel :
  ~ (1000 / density (movingSphere 2000 (mkVector3 1 0 0))
     = 500 / density (movingSphere 1000 (mkVector3 1 0 0))
     -> velocity (applyDrag (3 / 1000) 1000
                    (applyBuoyancy (3 / 1000) (- (98 / 10)) 1000
                       (movingSphere 2000 (mkVector3 1 0 0))))
        = velocity (applyDrag (3 / 1000) 500
                      (applyBuoyancy (3 / 1000) (- (98 / 10)) 500
                         (movingSphere 1000 (mkVector3 1 0 0))))).
Proof.
  intros H.
  assert (Hf : 1000 / density (movingSphere 2000 (mkVector3 1 0 0))
               = 500 / density (movingSphere 1000 (mkVector3 1 0 0)))
    by (cbn; lra).
  specialize (H Hf).
  rewrite !applyDrag_velocity, !applyBuoyancy_velocity in H.
  apply (f_equal vx) in H. cbn [vx vy vz Vec.multiplyScalar movingSphere
    setVelocity velocity] in H.
  assert (H1 : Rmin (1000 / 1000) 2 = 1).
  { replace (1000 / 1000) with 1 by lra. apply Rmin_left. lra. }
  assert (H2 : Rmin (500 / 1000) 2 = 500 / 1000) by (apply Rmin_left; lra).
  rewrite H1, H2 in H. lra.
Qed.

(** ** Pairwise collision: two equal spheres head-on *)

Lemma length_along_x (e a b : R) :
  sqrt (e * e + (a - a) * (a - a) + (b - b) * (b - b)) = Rabs e.
Proof.
  replace (_ + _ + _) with (Rsqr e) by (unfold Rsqr; ring).
  apply sqrt_Rsqr_abs.
Qed.

Lemma length_x_axis (e : R) : sqrt (e * e + 0 * 0 + 0 * 0) = Rabs e.
Proof.
  replace (_ + _ + _) with (Rsqr e) by (unfold Rsqr; ring).
  apply sqrt_Rsqr_abs.
Qed.

Lemma RigidBody_eq (a b : RigidBody) :
  type a = type b -> position a = position b -> size a = size b ->
  baseSize a = baseSize b -> scale a = scale b -> velocity a = velocity b ->
  angularVelocity a = angularVelocity b ->
  physicalRotation a = physicalRotation b ->
  rotationX a = rotationX b -> rotationY a = rotationY b ->
  rotationZ a = rotationZ b -> density a = density b ->
  a = b.
Proof. destruct a, b; cbn; intros; subst; reflexivity. Qed.

(** [n] is a sign. *)
Lemma sign_cases (n : R) : n * n = 1 -> n = 1 \/ n = -1.
Proof.
  intros H. assert (H' : (n - 1) * (n + 1) = 0) by (ring_simplify; lra).
  apply Rmult_integral in H'. destruct H'; [left | right]; lra.
Qed.

Lemma along_onAxis (a : Axis) (t u v : R) : along a (onAxis a t u v) = t.
Proof. destruct a; reflexivity. Qed.

Lemma length_sub_onAxis (a : Axis) (t t' u v : R) :
  Vec.length (Vec.sub (onAxis a t u v) (onAxis a t' u v)) = Rabs (t - t').
Proof.
  destruct a; unfold Vec.length, Vec.sub; cbn [onAxis vx vy vz];
    match goal with
    | |- sqrt ?e = _ => replace e with (Rsqr (t - t')) by (unfold Rsqr; ring)
    end; apply sqrt_Rsqr_abs.
Qed.

Lemma length_onAxis (a : Axis) (e : R) :
  Vec.length (onAxis a e 0 0) = Rabs e.
Proof.
  destruct a; unfold Vec.length; cbn [onAxis vx vy vz];
    match goal with
    | |- sqrt ?x = _ => replace x with (Rsqr e) by (unfold Rsqr; ring)
    end; apply sqrt_Rsqr_abs.
Qed.

Lemma Rabs_sign_mult (n e : R) : n * n = 1 -> 0 <= e -> Rabs (n * e) = e.
Proof.
  intros Hn He. destruct (sign_cases n Hn) as [-> | ->].
  - rewrite Rmult_1_l. now apply Rabs_pos_eq.
  - replace (-1 * e) with (- e) by ring. rewrite Rabs_Ropp. now apply Rabs_pos_eq.
Qed.

(** The callback for two equal spheres on a line parallel to the axis [a],
    [this] at [xo + n * D] with velocity [- n * s], [other] at [xo] with
    velocity [n * s]: overlapping, centres at least 0.001 apart. *)
Lemma collidePair_head_on (a : Axis) (r dens dens' s xo D y z n : R) :
  n * n = 1 -> 0 < s -> 1 / 1000 <= D -> D < r + r ->
  collidePair
    (sphereAt r dens (onAxis a (xo + n * D) y z) (onAxis a (- n * s) 0 0))
    (sphereAt r dens' (onAxis a xo y z) (onAxis a (n * s) 0 0))
  = (sphereAt r dens
       (onAxis a (xo + n * D + n * ((r + r - D) * (5 / 10))) y z)
       (onAxis a (restitution * (n * s)) 0 0),
     sphereAt r dens'
       (onAxis a (xo - n * ((r + r - D) * (5 / 10))) y z)
       (onAxis a (- restitution * (n * s)) 0 0)).
Proof.
  intros Hn Hs HD Hov.
  assert (Hlen : Vec.length (Vec.sub (onAxis a (xo + n * D) y z) (onAxis a xo y z)) = D).
  { rewrite length_sub_onAxis.
    replace (xo + n * D - xo) with (n * D) by ring.
    apply Rabs_sign_mult; [assumption | lra]. }
  assert (Hvt : Vec.length (onAxis a (- n * s) 0 0) = s).
  { rewrite length_onAxis.
    replace (- n * s) with (- (n * s)) by ring. rewrite Rabs_Ropp.
    apply Rabs_sign_mult; [assumption | lra]. }
  assert (Hvo : Vec.length (onAxis a (n * s) 0 0) = s).
  { rewrite length_onAxis. apply Rabs_sign_mult; [assumption | lra]. }
  assert (Hnorm : Vec.normalize (Vec.sub (onAxis a (xo + n * D) y z) (onAxis a xo y z))
                  = onAxis a n 0 0).
  { unfold Vec.normalize. cbv zeta. rewrite Hlen.
    destruct (D =? 0) eqn:E; [apply Reqb_true in E; lra|].
    destruct a; unfold Vec.sub; cbn [onAxis vx vy vz];
      apply Vector3_eq; cbn [vx vy vz]; field; lra. }
  unfold collidePair, collisionRadius. cbv zeta.
  cbn [sphereAt type position velocity size angularVelocity isRoundType
       setPosition setVelocity setAngularVelocity scaleAngular vx vy vz].
  rewrite Hlen, Hnorm, Hvt, Hvo.
  assert (E1 : (D <? 1 / 1000) = false) by (apply Rltb_false; lra).
  assert (E2 : (D <? r + r) = true) by (apply Rltb_true; lra).
  assert (E3 : (s + s >? 0) = true) by (apply Rgtb_true; lra).
  rewrite E1, E2, E3.
  assert (Hvan : Vec.dot (Vec.sub (onAxis a (- n * s) 0 0) (onAxis a (n * s) 0 0))
                         (onAxis a n 0 0) = - (2 * s)).
  { replace (- (2 * s)) with (- (2 * s) * (n * n)) by (rewrite Hn; ring).
    destruct a; unfold Vec.dot, Vec.sub; cbn [onAxis vx vy vz]; ring. }
  rewrite Hvan.
  assert (E4 : (- (2 * s) <? 0) = true) by (apply Rltb_true; lra).
  rewrite E4. cbn [orb].
  assert (Htan : Vec.sub (Vec.sub (onAxis a (- n * s) 0 0) (onAxis a (n * s) 0 0))
                         (Vec.multiplyScalar (onAxis a n 0 0) (- (2 * s)))
                 = onAxis a 0 0 0).
  { destruct a; apply Vector3_eq;
      cbn [onAxis Vec.sub Vec.multiplyScalar vx vy vz]; ring. }
  rewrite Htan.
  assert (Hl0 : Vec.length (onAxis a 0 0 0) = 0).
  { rewrite length_onAxis. apply Rabs_R0. }
  rewrite Hl0.
  assert (E5 : (0 * (3 / 10) >? 1 / 1000) = false) by (apply Rgtb_false; lra).
  rewrite E5.
  unfold restitution.
  destruct a;
    (apply pair_equal_spec; split; apply RigidBody_eq; try reflexivity;
     apply Vector3_eq;
     cbn [onAxis sphereAt type position velocity size angularVelocity
          setPosition setVelocity setAngularVelocity scaleAngular
          Vec.add Vec.sub Vec.multiplyScalar Vec.cross Vec.zero vx vy vz];
     field; lra).
Qed.

(** Bodies whose centres are at least the sum of their collision radii
    apart are left as they are. *)
Lemma collidePair_apart this other :
  collisionRadius this + collisionRadius other
  <= Vec.length (Vec.sub (position this) (position other)) ->
  collidePair this other = (this, other).
Proof.
  intros H. unfold collidePair. cbv zeta.
  destruct (_ <? 1 / 1000); [reflexivity|].
  apply Rltb_false in H. rewrite H. reflexivity.
Qed.

(** Bodies whose centres are less than 0.001 apart are left as they are. *)
Lemma collidePair_too_close this other :
  Vec.length (Vec.sub (position this) (position other)) < 1 / 1000 ->
  collidePair this other = (this, other).
Proof.
  intros H. unfold collidePair. cbv zeta.
  apply Rltb_true in H. rewrite H. reflexivity.
Qed.

Section HeadOn.

(** Two spheres of radius [r] and density [dens] on a line parallel to the
    axis [a], the first at [x1] moving at speed [s] in the positive
    direction, the second at [x2 > x1] moving at speed [s] in the negative
    direction. *)
Variables (a : Axis) (r dens s x1 x2 y z : R).

Let D := x2 - x1.
Let A := sphereAt r dens (onAxis a x1 y z) (onAxis a s 0 0).
Let B := sphereAt r dens (onAxis a x2 y z) (onAxis a (- s) 0 0).
Let A' := sphereAt r dens (onAxis a (x1 - (r + r - D) / 2) y z)
            (onAxis a (- (restitution * s)) 0 0).
Let B' := sphereAt r dens (onAxis a (x2 + (r + r - D) / 2) y z)
            (onAxis a (restitution * s) 0 0).

Hypothesis Hs : 0 < s.
Hypothesis Hfar : 1 / 1000 <= D.
Hypothesis Hoverlap : D < r + r.

Lemma collidePair_left_right : collidePair A B = (A', B').
Proof.
  pose proof (collidePair_head_on a r dens dens s x2 D y z (-1)
                ltac:(ring) Hs Hfar Hoverlap) as H.
  unfold A, B, A', B'.
  replace (onAxis a x1 y z) with (onAxis a (x2 + -1 * D) y z)
    by (unfold D; f_equal; ring).
  replace (onAxis a s 0 0) with (onAxis a (- -1 * s) 0 0) by (f_equal; ring).
  replace (onAxis a (- s) 0 0) with (onAxis a (-1 * s) 0 0) by (f_equal; ring).
  rewrite H. f_equal; unfold sphereAt; f_equal; f_equal; unfold D; field.
Qed.

Lemma collidePair_right_left : collidePair B A = (B', A').
Proof.
  pose proof (collidePair_head_on a r dens dens s x1 D y z 1
                ltac:(ring) Hs Hfar Hoverlap) as H.
  unfold A, B, A', B'.
  replace (onAxis a x2 y z) with (onAxis a (x1 + 1 * D) y z)
    by (unfold D; f_equal; ring).
  replace (onAxis a (- s) 0 0) with (onAxis a (- (1) * s) 0 0) by (f_equal; ring).
  replace (onAxis a s 0 0) with (onAxis a (1 * s) 0 0) by (f_equal; ring).
  rewrite H. f_equal; unfold sphereAt; f_equal; f_equal; unfold D; field.
Qed.

Lemma resolved_apart :
  collidePair A' B' = (A', B') /\ collidePair B' A' = (B', A').
Proof.
  assert (Hr : 0 < r + r) by (unfold D in *; lra).
  split; apply collidePair_apart;
    unfold A', B', sphereAt, collisionRadius;
    cbn [type size position isRoundType vx vy vz];
    rewrite length_sub_onAxis.
  - replace (x1 - (r + r - D) / 2 - (x2 + (r + r - D) / 2)) with (- (r + r))
      by (unfold D; field).
    rewrite Rabs_Ropp, Rabs_pos_eq; lra.
  - replace (x2 + (r + r - D) / 2 - (x1 - (r + r - D) / 2)) with (r + r)
      by (unfold D; field).
    rewrite Rabs_pos_eq; lra.
Qed.

Lemma checkObjectCollisions_first : checkObjectCollisions 0 [A; B] = [A'; B'].
Proof.
  unfold checkObjectCollisions, forRange. cbn [length seq fold_left].
  unfold collideWith at 2. cbn [Nat.eqb].
  unfold collideWith. cbn [Nat.eqb lookup list_lookup].
  rewrite collidePair_left_right. reflexivity.
Qed.

Lemma checkObjectCollisions_second : checkObjectCollisions 1 [A; B] = [A'; B'].
Proof.
  unfold checkObjectCollisions, forRange. cbn [length seq fold_left].
  unfold collideWith at 2. cbn [Nat.eqb lookup list_lookup].
  rewrite collidePair_right_left. cbn [insert list_insert].
  unfold collideWith. cbn [Nat.eqb]. reflexivity.
Qed.

Lemma checkObjectCollisions_resolved k :
  checkObjectCollisions k [A'; B'] = [A'; B'].
Proof.
  destruct resolved_apart as [H1 H2].
  unfold checkObjectCollisions, forRange. cbn [length seq fold_left].
  destruct k as [|[|k]].
  - unfold collideWith at 2. cbn [Nat.eqb].
    unfold collideWith. cbn [Nat.eqb lookup list_lookup]. rewrite H1. reflexivity.
  - unfold collideWith at 2. cbn [Nat.eqb lookup list_lookup]. rewrite H2.
    cbn [insert list_insert]. unfold collideWith. cbn [Nat.eqb]. reflexivity.
  - unfold collideWith. cbn [Nat.eqb lookup list_lookup]. reflexivity.
Qed.

Lemma collisionPass_first : collisionPass [A; B] = [A'; B'].
Proof.
  unfold collisionPass, forRange. cbn [length seq fold_left].
  rewrite checkObjectCollisions_first. apply checkObjectCollisions_resolved.
Qed.

Lemma collisionPass_resolved : collisionPass [A'; B'] = [A'; B'].
Proof.
  unfold collisionPass, forRange. cbn [length seq fold_left].
  now rewrite !checkObjectCollisions_resolved.
Qed.

Lemma collisionPasses_head_on : collisionPasses [A; B] = [A'; B'].
Proof.
  unfold collisionPasses, forRange. cbn [seq fold_left].
  now rewrite collisionPass_first, !collisionPass_resolved.
Qed.

Lemma collisionPasses_head_on_swapped : collisionPasses [B; A] = [B'; A'].
Proof.
  destruct resolved_apart as [H1 H2].
  assert (Hfirst : checkObjectCollisions 0 [B; A] = [B'; A']).
  { unfold checkObjectCollisions, forRange. cbn [length seq fold_left].
    unfold collideWith at 2. cbn [Nat.eqb].
    unfold collideWith. cbn [Nat.eqb lookup list_lookup].
    rewrite collidePair_right_left. reflexivity. }
  assert (Hres : forall k, checkObjectCollisions k [B'; A'] = [B'; A']).
  { intros k. unfold checkObjectCollisions, forRange. cbn [length seq fold_left].
    destruct k as [|[|k]].
    - unfold collideWith at 2. cbn [Nat.eqb].
      unfold collideWith. cbn [Nat.eqb lookup list_lookup]. rewrite H2. reflexivity.
    - unfold collideWith at 2. cbn [Nat.eqb lookup list_lookup]. rewrite H1.
      cbn [insert list_insert]. unfold collideWith. cbn [Nat.eqb]. reflexivity.
    - unfold collideWith. cbn [Nat.eqb lookup list_lookup]. reflexivity. }
  assert (Hp1 : collisionPass [B; A] = [B'; A']).
  { unfold collisionPass, forRange. cbn [length seq fold_left].
    rewrite Hfirst. apply Hres. }
  assert (Hp2 : collisionPass [B'; A'] = [B'; A']).
  { unfold collisionPass, forRange. cbn [length seq fold_left].
    now rewrite !Hres. }
  unfold collisionPasses, forRange. cbn [seq fold_left].
  now rewrite Hp1, !Hp2.
Qed.

End HeadOn.

(** C5, as amended.  Two spheres of equal radius [r] and equal density, not
    spinning, centres on a coordinate axis [a] (x, y or z) or on a line
    parallel to it, at [x1 < x2] along that axis, overlapping
    ([x2 - x1 < 2 r]) with the centres at least 0.001 apart, approaching
    head-on at speed [s > 0] each, with no velocity across the axis.  One
    call of [checkObjectCollisions], on either sphere, and the three
    correction passes of the frame loop, in either order of the list, leave
    them with velocities [- 0.4 s] and [0.4 s] along the axis (equal in
    magnitude, opposite in sign, the restitution coefficient 0.4 times [s])
    and nothing across it. *)
Theorem head_on_spheres_rebound_with_restitution
    (a : Axis) (r dens s x1 x2 y z : R) :
  0 < s ->
  1 / 1000 <= x2 - x1 ->
  x2 - x1 < r + r ->
  let A := sphereAt r dens (onAxis a x1 y z) (onAxis a s 0 0) in
  let B := sphereAt r dens (onAxis a x2 y z) (onAxis a (- s) 0 0) in
  exists A' B',
    checkObjectCollisions 0 [A; B] = [A'; B']
    /\ checkObjectCollisions 1 [A; B] = [A'; B']
    /\ collisionPasses [A; B] = [A'; B']
    /\ collisionPasses [B; A] = [B'; A']
    /\ velocity A' = onAxis a (- (restitution * s)) 0 0
    /\ velocity B' = onAxis a (restitution * s) 0 0
    /\ restitution = 4 / 10
    /\ Rabs (along a (velocity A')) = 4 / 10 * s
    /\ Rabs (along a (velocity B')) = 4 / 10 * s
    /\ along a (velocity A') = - along a (velocity B').
Proof.
  intros Hs Hfar Hov A B.
  exists (sphereAt r dens (onAxis a (x1 - (r + r - (x2 - x1)) / 2) y z)
            (onAxis a (- (restitution * s)) 0 0)),
         (sphereAt r dens (onAxis a (x2 + (r + r - (x2 - x1)) / 2) y z)
            (onAxis a (restitution * s) 0 0)).
  split; [now apply checkObjectCollisions_first|].
  split; [now apply checkObjectCollisions_second|].
  split; [now apply collisionPasses_head_on|].
  split; [now apply collisionPasses_head_on_swapped|].
  cbn [sphereAt velocity]. rewrite !along_onAxis. unfold restitution.
  repeat split; try reflexivity.
  - rewrite Rabs_Ropp, Rabs_pos_eq; lra.
  - rewrite Rabs_pos_eq; lra.
Qed.

Lemma head_on_spheres_rebound_with_restitution_witness :
  exists A' B',
    collisionPasses
      [sphereAt (8 / 10) 2700 (mkVector3 0 0 0) (mkVector3 0 1 0);
       sphereAt (8 / 10) 2700 (mkVector3 0 1 0) (mkVector3 0 (- (1)) 0)]
    = [A'; B']
    /\ Rabs (vy (velocity A')) = 4 / 10 * 1
    /\ Rabs (vy (velocity B')) = 4 / 10 * 1
    /\ vy (velocity A') = - vy (velocity B').
Proof.
  destruct (head_on_spheres_rebound_with_restitution axisY (8 / 10) 2700 1 0 1 0 0
              ltac:(lra) ltac:(lra) ltac:(lra))
    as (A' & B' & _ & _ & H & _ & _ & _ & _ & HA & HB & HAB).
  exists A', B'. repeat split; assumption.
Defined.

(** C5, as stated, fails when the centres are less than 0.001 apart: the
    pair is skipped, and both spheres keep their speed. *)
Lemma close_centres_are_not_resolved :
  ~ (exists A' B',
       collisionPasses [closeLeft; closeRight] = [A'; B']
       /\ Rabs (vx (velocity A')) = restitution * 1
       /\ Rabs (vx (velocity B')) = restitution * 1
       /\ vx (velocity A') = - vx (velocity B')).
Proof.
  assert (H1 : collidePair closeLeft closeRight = (closeLeft, closeRight)).
  { apply collidePair_too_close.
    unfold closeLeft, closeRight, sphereAt, Vec.length, Vec.sub.
    cbn [position vx vy vz]. rewrite length_along_x.
    replace (0 - 1 / 2000) with (- (1 / 2000)) by ring.
    rewrite Rabs_Ropp, Rabs_pos_eq; lra. }
  assert (H2 : collidePair closeRight closeLeft = (closeRight, closeLeft)).
  { apply collidePair_too_close.
    unfold closeLeft, closeRight, sphereAt, Vec.length, Vec.sub.
    cbn [position vx vy vz]. rewrite length_along_x.
    rewrite Rabs_pos_eq; lra. }
  assert (Hk : forall k, checkObjectCollisions k [closeLeft; closeRight]
                         = [closeLeft; closeRight]).
  { intros k. unfold checkObjectCollisions, forRange. cbn [length seq fold_left].
    destruct k as [|[|k]].
    - unfold collideWith at 2. cbn [Nat.eqb].
      unfold collideWith. cbn [Nat.eqb lookup list_lookup]. rewrite H1. reflexivity.
    - unfold collideWith at 2. cbn [Nat.eqb lookup list_lookup]. rewrite H2.
      cbn [insert list_insert]. unfold collideWith. cbn [Nat.eqb]. reflexivity.
    - unfold collideWith. cbn [Nat.eqb lookup list_lookup]. reflexivity. }
  assert (Hp : collisionPasses [closeLeft; closeRight] = [closeLeft; closeRight]).
  { assert (Hp1 : collisionPass [closeLeft; closeRight] = [closeLeft; closeRight]).
    { unfold collisionPass, forRange. cbn [length seq fold_left].
      now rewrite !Hk. }
    unfold collisionPasses, forRange. cbn [seq fold_left].
    now rewrite !Hp1. }
  intros (A' & B' & Heq & HA & _).
  rewrite Hp in Heq. injection Heq as <- <-.
  unfold closeLeft, sphereAt, restitution in HA. cbn [velocity vx] in HA.
  rewrite Rabs_pos_eq in HA; lra.
Qed.

(** ** Further properties *)

(** ** Extras: the density and force passes on the arrays *)

Lemma wf_fillForces x s : wf s -> wf (fillForces x s).
Proof. intros []; split; cbn; rewrite ?length_replicate; assumption. Qed.

Lemma getForce_setForce_same i k x s :
  wf s -> (i < numParticles s)%nat -> (k < 3)%nat ->
  getForce i k (setForce i k x s) = x.
Proof.
  intros [] Hi Hk. unfold getForce, setForce. cbn.
  apply list_lookup_total_insert_eq. unfold idx. lia.
Qed.

Lemma getForce_setForce_diff i k j l x s :
  idx j l <> idx i k -> getForce j l (setForce i k x s) = getForce j l s.
Proof.
  intros Hne. unfold getForce, setForce. cbn.
  apply list_lookup_total_insert_ne. congruence.
Qed.

(** The force sum reads the particle count, the parameters, the positions,
    the velocities, the densities and the pressures, not the forces. *)
Lemma forceOf_ext s s' i :
  numParticles s' = numParticles s -> params s' = params s ->
  positions s' = positions s -> velocities s' = velocities s ->
  densities s' = densities s -> pressures s' = pressures s ->
  forceOf s' i = forceOf s i.
Proof.
  intros Hn Hp Hpos Hvel Hd Hpr. unfold forceOf. cbv zeta. rewrite Hn, Hp, Hd.
  assert (Hstep : forall j f, forceStep s' i j f = forceStep s i j f).
  { intros j f.
    unfold forceStep, pressureDelta, viscosityDelta, separation, getPos, getVel.
    now rewrite Hp, Hpos, Hvel, Hd, Hpr. }
  assert (Hsum : forRange (numParticles s) (forceStep s' i) Vec.zero
                 = forRange (numParticles s) (forceStep s i) Vec.zero).
  { unfold forRange. generalize (seq 0 (numParticles s)) Vec.zero.
    induction l as [|j l IH]; intros f; [reflexivity|].
    cbn. rewrite Hstep. apply IH. }
  now rewrite Hsum.
Qed.

(** The state after the first [n] turns of the loop of [computeForces]. *)
Lemma computeForces_prefix s n :
  wf s -> (n <= numParticles s)%nat ->
  let s' := forRange n computeForcesAt (fillForces 0 s) in
  wf s'
  /\ numParticles s' = numParticles s /\ params s' = params s
  /\ positions s' = positions s /\ velocities s' = velocities s
  /\ densities s' = densities s /\ pressures s' = pressures s
  /\ forall i, (i < n)%nat -> forceAt i s' = forceOf s i.
Proof.
  intros Hwf. induction n as [|n IH]; intros Hn; cbv zeta.
  - cbn. split; [now apply wf_fillForces|]. repeat split; lia.
  - rewrite forRange_S.
    destruct (IH ltac:(lia)) as (Hwf' & Hnp & Hp & Hpos & Hvel & Hd & Hpr & Hf).
    clear IH. set (s' := forRange n computeForcesAt (fillForces 0 s)) in *.
    unfold computeForcesAt. cbv zeta.
    rewrite (forceOf_ext s s' n Hnp Hp Hpos Hvel Hd Hpr).
    set (f := forceOf s n).
    assert (Hn' : (n < numParticles s')%nat) by lia.
    split; [now repeat apply wf_setForce|].
    split; [exact Hnp|]. split; [exact Hp|]. split; [exact Hpos|].
    split; [exact Hvel|]. split; [exact Hd|]. split; [exact Hpr|].
    intros i Hi. unfold forceAt.
    destruct (decide (i = n)) as [->|Hne].
    + rewrite (getForce_setForce_diff n 2 n 0) by (unfold idx; lia).
      rewrite (getForce_setForce_diff n 1 n 0) by (unfold idx; lia).
      rewrite getForce_setForce_same by (assumption || lia).
      rewrite (getForce_setForce_diff n 2 n 1) by (unfold idx; lia).
      rewrite getForce_setForce_same
        by (try apply wf_setForce; cbn [numParticles setForce]; assumption || lia).
      rewrite getForce_setForce_same
        by (repeat apply wf_setForce; cbn [numParticles setForce]; assumption || lia).
      apply Vector3_eq; reflexivity.
    + rewrite !getForce_setForce_diff by (unfold idx; lia).
      apply Hf. lia.
Qed.

Lemma computeForces_spec s :
  wf s ->
  wf (computeForces s)
  /\ forall i, (i < numParticles s)%nat -> forceAt i (computeForces s) = forceOf s i.
Proof.
  intros Hwf. unfold computeForces.
  destruct (computeForces_prefix s (numParticles s) Hwf (le_n _))
    as (H1 & _ & _ & _ & _ & _ & _ & H2).
  now split.
Qed.

Lemma computeDensity_spec s :
  wf s ->
  wf (computeDensity s)
  /\ numParticles (computeDensity s) = numParticles s
  /\ params (computeDensity s) = params s
  /\ positions (computeDensity s) = positions s
  /\ velocities (computeDensity s) = velocities s
  /\ forces (computeDensity s) = forces s.
Proof.
  intros Hwf. unfold computeDensity.
  destruct (computeDensity_prefix s (numParticles s) Hwf (le_n _))
    as (H1 & H2 & H3 & H4 & H5 & H6 & _).
  repeat split; try apply H1; assumption.
Qed.

(** X1.  One step of the particle system keeps the arrays well-formed, the
    particle count and the parameters, and returns the list of bodies it was
    given. *)
Theorem updateParticles_keeps_the_frame (dt : R) (w : World) :
  wf (particleSystem w) ->
  let w' := updateParticles dt w in
  wf (particleSystem w')
  /\ numParticles (particleSystem w') = numParticles (particleSystem w)
  /\ params (particleSystem w') = params (particleSystem w)
  /\ rigidBodies w' = rigidBodies w.
Proof.
  intros Hwf. unfold updateParticles. cbv zeta.
  destruct (computeDensity_spec _ Hwf) as (Hwf1 & Hn1 & Hp1 & _).
  set (s1 := computeDensity (particleSystem w)) in *.
  destruct (computeForces_spec s1 Hwf1) as (Hwf2 & _).
  destruct (computeForces_frame s1) as (Hn2 & Hp2 & _).
  set (w2 := onParticles computeForces (onParticles computeDensity w)).
  change (particleSystem w2) with (computeForces s1) in *.
  destruct (integrate_prefix dt w2 (numParticles (particleSystem w2)) Hwf2 (le_n _))
    as (Hwf3 & Hsf & Hb & _).
  fold (integrate dt w2) in Hwf3, Hsf, Hb.
  change (particleSystem w2) with (computeForces s1) in Hsf.
  destruct Hsf as [Hn3 Hp3 _ _ _].
  split; [exact Hwf3|]. split; [congruence|]. split; [congruence|].
  rewrite Hb. reflexivity.
Qed.

Lemma updateParticles_keeps_the_frame_witness :
  rigidBodies (updateParticles (3 / 1000) sparseWorld) = rigidBodies sparseWorld.
Proof.
  exact (proj2 (proj2 (proj2
    (updateParticles_keeps_the_frame (3 / 1000) sparseWorld wf_sparseWorld)))).
Defined.

(** X2.  After the density pass every particle's pressure is the equation of
    state of its density, [stiffness * (density - restDensity)], and the
    pass has written the densities and pressures only. *)
Theorem density_pass_equation_of_state (s : ParticleSystem) (i : nat) :
  wf s ->
  (i < numParticles s)%nat ->
  let s' := computeDensity s in
  pressures s' !!! i
  = stiffness (params s) * (densities s' !!! i - restDensity (params s))
  /\ positions s' = positions s
  /\ velocities s' = velocities s
  /\ forces s' = forces s
  /\ params s' = params s
  /\ numParticles s' = numParticles s.
Proof.
  intros Hwf Hi s'.
  destruct (computeDensity_prefix s (numParticles s) Hwf (le_n _))
    as (_ & H2 & H3 & H4 & H5 & H6 & H7).
  fold (computeDensity s) in *. fold s' in H2, H3, H4, H5, H6, H7.
  destruct (H7 i Hi) as [Hd Hp]. rewrite Hp, Hd.
  repeat split; assumption.
Qed.

Lemma density_pass_equation_of_state_witness :
  pressures (computeDensity twoParticles) !!! 0%nat
  = stiffness (params twoParticles)
    * (densities (computeDensity twoParticles) !!! 0%nat
       - restDensity (params twoParticles)).
Proof.
  refine (proj1 (density_pass_equation_of_state twoParticles 0%nat wf_twoParticles _)).
  cbn. lia.
Defined.

(** The density sum of a particle with no neighbour within [h]. *)
Lemma densitySum_isolated s i n :
  0 < smoothingRadius (params s) ->
  (forall j, (j < n)%nat -> j <> i ->
             smoothingRadius (params s) <= separation s i j) ->
  forRange n (densityStep s i) 0
  = if (i <? n)%nat then selfContribution (params s) else 0.
Proof.
  intros Hh. induction n as [|n IH]; intros Hfar; [reflexivity|].
  rewrite forRange_S, IH by (intros j Hj; apply Hfar; lia).
  destruct (decide (n = i)) as [->|Hne].
  - rewrite densityStep_self by exact Hh.
    rewrite (proj2 (Nat.ltb_ge i i)) by lia.
    rewrite (proj2 (Nat.ltb_lt i (S i))) by lia. lra.
  - unfold densityStep. cbv zeta.
    rewrite (proj2 (Rltb_false _ _)) by (apply Hfar; lia).
    destruct (Nat.ltb_spec i n), (Nat.ltb_spec i (S n)); (reflexivity || lia).
Qed.

Lemma forceSum_isolated s i n :
  (forall j, (j < n)%nat -> j <> i ->
             smoothingRadius (params s) <= separation s i j) ->
  forRange n (forceStep s i) Vec.zero = Vec.zero.
Proof.
  induction n as [|n IH]; intros Hfar; [reflexivity|].
  rewrite forRange_S, IH by (intros j Hj; apply Hfar; lia).
  unfold forceStep. destruct (Nat.eqb_spec i n) as [|Hne]; [reflexivity|].
  rewrite (proj2 (Rltb_false (separation s i n) (smoothingRadius (params s))))
    by (apply Hfar; lia).
  reflexivity.
Qed.

Lemma separation_ext s s' i j :
  positions s' = positions s -> separation s' i j = separation s i j.
Proof. intros H. unfold separation, getPos. now rewrite H. Qed.

(** X3.  A particle with no other particle within the smoothing radius
    leaves the density pass with the self-term [mass * W(0, h)] as density,
    and the force pass with gravity times that density as its only force:
    no pressure force, no viscosity force. *)
Theorem isolated_particle_density_and_force (s : ParticleSystem) (i : nat) :
  wf s ->
  (i < numParticles s)%nat ->
  0 < smoothingRadius (params s) ->
  (forall j, (j < numParticles s)%nat -> j <> i ->
             smoothingRadius (params s) <= separation s i j) ->
  let rho := particleMass (params s) * poly6Kernel 0 (smoothingRadius (params s)) in
  densities (computeDensity s) !!! i = rho
  /\ forceAt i (computeForces (computeDensity s))
     = mkVector3 0 (fluidGravity (params s) * rho) 0.
Proof.
  intros Hwf Hi Hh Hfar rho.
  assert (Hd : densities (computeDensity s) !!! i = rho).
  { rewrite computeDensity_density by assumption. unfold densityOf.
    rewrite densitySum_isolated by assumption.
    rewrite (proj2 (Nat.ltb_lt _ _)) by exact Hi. reflexivity. }
  split; [exact Hd|].
  destruct (computeDensity_spec s Hwf) as (Hwf1 & Hn1 & Hp1 & Hpos1 & _).
  destruct (computeForces_spec _ Hwf1) as (_ & Hf).
  rewrite Hf by lia. unfold forceOf. cbv zeta.
  rewrite forceSum_isolated.
  - rewrite Hd, Hp1. apply Vector3_eq; cbn [vx vy vz Vec.zero]; ring.
  - rewrite Hn1, Hp1. intros j Hj Hne.
    rewrite (separation_ext s (computeDensity s)) by exact Hpos1.
    now apply Hfar.
Qed.

Lemma isolated_particle_density_and_force_witness :
  densities (computeDensity (particleSystem sparseWorld)) !!! 0%nat
  = particleMass defaultParams * poly6Kernel 0 (smoothingRadius defaultParams).
Proof.
  refine (proj1 (isolated_particle_density_and_force
                   (particleSystem sparseWorld) 0%nat wf_sparseWorld _ _ _)).
  - cbn. lia.
  - cbn. lra.
  - cbn [particleSystem sparseWorld numParticles params smoothingRadius
         defaultParams].
    intros j Hj Hne. assert (j = 1%nat) as -> by lia.
    unfold separation, getPos, idx. cbn.
    replace ((0 - 1) * (0 - 1) + (0 - 0) * (0 - 0) + (0 - 0) * (0 - 0)) with 1
      by ring.
    rewrite sqrt_1. lra.
Defined.

(** ** Extras: the shape of the kernels *)

Lemma sq_mono (a b : R) : 0 <= a -> a <= b -> a * a <= b * b.
Proof. intros Ha Hab. apply Rmult_le_compat; lra. Qed.

Lemma cube_mono (a b : R) : 0 <= a -> a <= b -> a * a * a <= b * b * b.
Proof.
  intros Ha Hab. pose proof (sq_mono a b Ha Hab).
  apply Rmult_le_compat; try lra. apply sqr_nonneg.
Qed.

Lemma viscosityLaplacian_nonneg (r h : R) : 0 < h -> 0 <= viscosityLaplacian r h.
Proof.
  intros Hh. unfold viscosityLaplacian. js_cases; try lra.
  pose proof (spiky_coef_pos h Hh). apply Rmult_le_pos; lra.
Qed.

(** X4.  The density kernel and the viscosity Laplacian are never negative
    and never increase with the separation: for [0 <= r1 <= r2] the value at
    [r2] is at most the value at [r1], which is at most the value at 0. *)
Theorem kernels_nonnegative_and_decreasing (h r1 r2 : R) :
  0 < h ->
  0 <= r1 <= r2 ->
  0 <= poly6Kernel r2 h <= poly6Kernel r1 h
  /\ poly6Kernel r1 h <= poly6Kernel 0 h
  /\ 0 <= viscosityLaplacian r2 h <= viscosityLaplacian r1 h
  /\ viscosityLaplacian r1 h <= viscosityLaplacian 0 h.
Proof.
  intros Hh [H1 H12].
  pose proof (poly6_coef_pos h Hh) as Hc6.
  pose proof (spiky_coef_pos h Hh) as Hcv.
  assert (Hpoly : forall a b, 0 <= a <= b -> poly6Kernel b h <= poly6Kernel a h).
  { intros a b [Ha Hab].
    destruct (Rle_lt_dec b h) as [Hb|Hb].
    - rewrite !poly6Kernel_inside by lra.
      pose proof (sq_mono a b Ha Hab) as Hab2.
      assert (Hb0 : 0 <= b) by lra.
      pose proof (sq_mono b h Hb0 Hb) as Hbh2.
      assert (Hc1 : 0 <= h * h - b * b) by lra.
      assert (Hc2 : h * h - b * b <= h * h - a * a) by lra.
      pose proof (cube_mono _ _ Hc1 Hc2) as Hcube.
      set (c := 315 / (64 * PI * h ^ 9)) in *.
      replace (c * (h * h - b * b) * (h * h - b * b) * (h * h - b * b))
        with (c * ((h * h - b * b) * (h * h - b * b) * (h * h - b * b))) by ring.
      replace (c * (h * h - a * a) * (h * h - a * a) * (h * h - a * a))
        with (c * ((h * h - a * a) * (h * h - a * a) * (h * h - a * a))) by ring.
      apply Rmult_le_compat_l; lra.
    - rewrite (poly6Kernel_outside b h Hb). now apply poly6Kernel_nonneg. }
  assert (Hvisc : forall a b, 0 <= a <= b ->
                    viscosityLaplacian b h <= viscosityLaplacian a h).
  { intros a b [Ha Hab].
    destruct (Rle_lt_dec b h) as [Hb|Hb].
    - unfold viscosityLaplacian. js_cases; try lra.
      apply Rmult_le_compat_l; lra.
    - rewrite (viscosityLaplacian_outside b h Hb).
      now apply viscosityLaplacian_nonneg. }
  repeat split.
  - now apply poly6Kernel_nonneg.
  - apply Hpoly. lra.
  - apply Hpoly. lra.
  - now apply viscosityLaplacian_nonneg.
  - apply Hvisc. lra.
  - apply Hvisc. lra.
Qed.

Lemma kernels_nonnegative_and_decreasing_witness :
  0 <= poly6Kernel (1 / 2) 1 <= poly6Kernel (1 / 4) 1.
Proof.
  refine (proj1 (kernels_nonnegative_and_decreasing 1 (1 / 4) (1 / 2) _ _)); lra.
Defined.

Lemma spikyGradient_inside (rx ry rz h : R) :
  let r := sqrt (rx * rx + ry * ry + rz * rz) in
  0 < r <= h ->
  let k := 45 / (PI * h ^ 6) * ((h - r) * (h - r)) / r in
  0 <= k
  /\ spikyGradient rx ry rz h = mkVector3 (- k * rx) (- k * ry) (- k * rz).
Proof.
  intros r [Hr0 Hrh] k.
  assert (Hh : 0 < h) by lra.
  pose proof (spiky_coef_pos h Hh) as Hc. pose proof PI_RGT_0 as Hpi.
  pose proof (pow_pos_lt h 6 Hh) as Hh6.
  split.
  - unfold k. apply Rmult_le_pos; [|apply Rlt_le, Rinv_0_lt_compat; lra].
    apply Rmult_le_pos; [lra | apply sqr_nonneg].
  - unfold spikyGradient. cbv zeta. fold r.
    rewrite (proj2 (Rgtb_true r 0)) by lra.
    rewrite (proj2 (Rleb_true r h)) by lra. cbn [andb].
    apply Vector3_eq; cbn [vx vy vz]; unfold k; field; repeat split; lra.
Qed.

(** X5.  Inside the support ([0 < r <= h]) the spiky gradient is the offset
    scaled by a factor that is not positive, so it points from the particle
    towards its neighbour, and its length is [45 / (PI h^6) * (h - r)^2]. *)
Theorem spikyGradient_direction_and_length (rx ry rz h : R) :
  let r := sqrt (rx * rx + ry * ry + rz * rz) in
  0 < r <= h ->
  let k := 45 / (PI * h ^ 6) * ((h - r) * (h - r)) / r in
  0 <= k
  /\ spikyGradient rx ry rz h = mkVector3 (- k * rx) (- k * ry) (- k * rz)
  /\ Vec.length (spikyGradient rx ry rz h) = 45 / (PI * h ^ 6) * ((h - r) * (h - r)).
Proof.
  intros r Hr k.
  destruct (spikyGradient_inside rx ry rz h Hr) as [Hk Hg]. fold r k in Hk, Hg.
  destruct Hr as [Hr0 Hrh].
  assert (Hh : 0 < h) by lra.
  pose proof PI_RGT_0 as Hpi. pose proof (pow_pos_lt h 6 Hh) as Hh6.
  split; [exact Hk|]. split; [exact Hg|].
  rewrite Hg. unfold Vec.length. cbn [vx vy vz].
  replace (- k * rx * (- k * rx) + - k * ry * (- k * ry) + - k * rz * (- k * rz))
    with ((k * r) * (k * r)).
  - rewrite sqrt_sqr_pos by (apply Rmult_le_pos; lra).
    unfold k. field. split; lra.
  - pose proof (norm_sqr rx ry rz) as Hsq. fold r in Hsq.
    replace (k * r * (k * r)) with (k * k * (r * r)) by ring. rewrite Hsq. ring.
Qed.

Lemma spikyGradient_direction_and_length_witness :
  Vec.length (spikyGradient 1 0 0 2) = 45 / (PI * 2 ^ 6) * ((2 - 1) * (2 - 1)).
Proof.
  assert (H1 : sqrt (1 * 1 + 0 * 0 + 0 * 0) = 1).
  { replace (1 * 1 + 0 * 0 + 0 * 0) with 1 by ring. apply sqrt_1. }
  pose proof (spikyGradient_direction_and_length 1 0 0 2) as H.
  cbv zeta in H. rewrite H1 in H.
  exact (proj2 (proj2 (H ltac:(lra)))).
Defined.

(** X6.  Between two particles of non-negative pressure the pressure force
    is repulsive: the contribution accumulated onto [i] on account of [j]
    has a non-negative component along the offset from [j] to [i]. *)
Theorem pressure_force_is_repulsive (s : ParticleSystem) (i j : nat) :
  0 <= particleMass (params s) ->
  0 < separation s i j <= smoothingRadius (params s) ->
  densities s !!! i <> 0 ->
  densities s !!! j <> 0 ->
  0 <= pressures s !!! i ->
  0 <= pressures s !!! j ->
  let offset := mkVector3 (getPos i 0 s - getPos j 0 s)
                          (getPos i 1 s - getPos j 1 s)
                          (getPos i 2 s - getPos j 2 s) in
  0 <= Vec.dot (pressureContribution s i j) offset.
Proof.
  intros Hm Hsep Hdi Hdj Hpi Hpj offset.
  unfold pressureContribution, pressureDelta. cbv zeta.
  set (dx := getPos i 0 s - getPos j 0 s) in *.
  set (dy := getPos i 1 s - getPos j 1 s) in *.
  set (dz := getPos i 2 s - getPos j 2 s) in *.
  unfold separation in Hsep. cbv zeta in Hsep. fold dx dy dz in Hsep.
  destruct (spikyGradient_inside dx dy dz _ Hsep) as (Hk & ->).
  set (k := 45 / _ * _ / _) in *.
  set (T := particleMass (params s) * _).
  assert (HT : 0 <= T).
  { unfold T. apply Rmult_le_pos; [exact Hm|].
    assert (Hq : forall p d, 0 <= p -> d <> 0 -> 0 <= p / (d * d)).
    { intros p d Hp Hd. apply Rmult_le_pos; [exact Hp|].
      apply Rlt_le, Rinv_0_lt_compat.
      destruct (Rtotal_order d 0) as [?|[?|?]]; [|contradiction|]; nra. }
    pose proof (Hq _ _ Hpi Hdi). pose proof (Hq _ _ Hpj Hdj). lra. }
  unfold Vec.dot, Vec.sub, Vec.zero, offset. cbn [vx vy vz].
  replace (_ + _ + _) with (T * k * (dx * dx + dy * dy + dz * dz)) by ring.
  apply Rmult_le_pos; [apply Rmult_le_pos; assumption | apply sumsq_nonneg].
Qed.

Lemma pressure_force_is_repulsive_witness :
  0 <= Vec.dot (pressureContribution twoParticles 0 1)
               (mkVector3 (getPos 0 0 twoParticles - getPos 1 0 twoParticles)
                          (getPos 0 1 twoParticles - getPos 1 1 twoParticles)
                          (getPos 0 2 twoParticles - getPos 1 2 twoParticles)).
Proof.
  assert (Hsep : separation twoParticles 0 1 = 1).
  { unfold separation, getPos, idx. cbn.
    replace ((1 - 0) * (1 - 0) + (0 - 0) * (0 - 0) + (0 - 0) * (0 - 0)) with 1 by ring.
    apply sqrt_1. }
  apply (pressure_force_is_repulsive twoParticles 0%nat 1%nat).
  - cbn. lra.
  - rewrite Hsep. cbn. lra.
  - cbn. lra.
  - cbn. lra.
  - cbn. lra.
  - cbn. lra.
Defined.

(** ** Extras: the rigid coupling pass *)

Lemma collideWithBody_clear i px py pz body w :
  clearOfBody px py pz body -> collideWithBody i px py pz body w = w.
Proof.
  unfold clearOfBody, collideWithBody. cbv zeta. intros H.
  assert (Hid : forall f, (forall s, f s = s) -> onParticles f w = w).
  { intros f Hf. unfold onParticles. rewrite Hf. now destruct w. }
  destruct (type body); try reflexivity; apply Hid; intros s.
  - unfold sphereTest. cbv zeta. destruct H as [H|H].
    + rewrite (proj2 (Rltb_false _ _) H). reflexivity.
    + rewrite H. rewrite (proj2 (Rgtb_false 0 0)) by lra.
      now rewrite andb_false_r.
  - unfold cubeTest. cbv zeta. destruct H as [H|[H|H]].
    + rewrite (proj2 (Rltb_false _ _) H). reflexivity.
    + rewrite (proj2 (Rltb_false _ _) H). now rewrite andb_false_r.
    + rewrite (proj2 (Rltb_false _ _) H). now rewrite andb_false_r.
  - unfold sphereTest. cbv zeta. destruct H as [H|H].
    + rewrite (proj2 (Rltb_false _ _) H). reflexivity.
    + rewrite H. rewrite (proj2 (Rgtb_false 0 0)) by lra.
      now rewrite andb_false_r.
  - unfold sphereTest. cbv zeta. destruct H as [H|H].
    + rewrite (proj2 (Rltb_false _ _) H). reflexivity.
    + rewrite H. rewrite (proj2 (Rgtb_false 0 0)) by lra.
      now rewrite andb_false_r.
Qed.

Lemma forBodiesFrom_clear i px py pz n : forall k w,
  Forall (clearOfBody px py pz) (rigidBodies w) ->
  forBodiesFrom (collideWithBody i px py pz) n k w = w.
Proof.
  induction n as [|n IH]; intros k w Hall; cbn [forBodiesFrom]; [reflexivity|].
  destruct (rigidBodies w !! k) as [body|] eqn:Hk; [|reflexivity].
  rewrite collideWithBody_clear.
  - now apply IH.
  - exact (proj1 (Forall_lookup _ _) Hall k body Hk).
Qed.

(** X7.  The rigid coupling pass returns the state it was given when no body
    overlaps the particle: with an empty list of bodies, and with bodies
    that the particle is outside of or on the surface of.  A particle
    exactly at the centre of a sphere-tested body is left there too, since
    the radial direction is undefined. *)
Theorem rigid_coupling_pass_untouched_when_clear (i : nat) (w : World) :
  Forall (clearOfBody (getPos i 0 (particleSystem w))
                      (getPos i 1 (particleSystem w))
                      (getPos i 2 (particleSystem w)))
         (rigidBodies w) ->
  handleRigidBodyCollisions i w = w.
Proof.
  intros Hall. unfold handleRigidBodyCollisions, forBodies. cbv zeta.
  now apply forBodiesFrom_clear.
Qed.

Lemma rigid_coupling_pass_untouched_when_clear_witness :
  handleRigidBodyCollisions 0 sparseWorld = sparseWorld.
Proof.
  apply rigid_coupling_pass_untouched_when_clear.
  constructor; [|constructor]. unfold clearOfBody. cbn.
  left.
  replace ((0 - 0) * (0 - 0) + (0 - 10) * (0 - 10) + (0 - 0) * (0 - 0))
    with (10 * 10) by ring.
  rewrite sqrt_sqr_pos; lra.
Defined.

Lemma length_scale (v : Vector3) (k : R) :
  0 <= k -> Vec.length (Vec.multiplyScalar v k) = k * Vec.length v.
Proof.
  intros Hk. unfold Vec.length, Vec.multiplyScalar. cbn [vx vy vz].
  replace (vx v * k * (vx v * k) + vy v * k * (vy v * k) + vz v * k * (vz v * k))
    with ((k * k) * (vx v * vx v + vy v * vy v + vz v * vz v)) by ring.
  rewrite sqrt_mult by (try apply sqr_nonneg; apply sumsq_nonneg).
  now rewrite sqrt_sqr_pos.
Qed.

(** Mirroring a vector in the plane of unit normal [n] keeps its length. *)
Lemma length_reflect (v n : Vector3) :
  Vec.dot n n = 1 ->
  Vec.length (Vec.sub v (Vec.multiplyScalar n (2 * Vec.dot v n))) = Vec.length v.
Proof.
  intros Hn. unfold Vec.length. f_equal.
  unfold Vec.dot, Vec.sub, Vec.multiplyScalar in *. cbn [vx vy vz] in *.
  set (d := vx v * vx n + vy v * vy n + vz v * vz n).
  replace ((vx v - vx n * (2 * d)) * (vx v - vx n * (2 * d))
           + (vy v - vy n * (2 * d)) * (vy v - vy n * (2 * d))
           + (vz v - vz n * (2 * d)) * (vz v - vz n * (2 * d)))
    with (vx v * vx v + vy v * vy v + vz v * vz v
          - 4 * d * d
          + 4 * d * d * (vx n * vx n + vy n * vy n + vz n * vz n))
    by (unfold d; ring).
  rewrite Hn. ring.
Qed.

(** X8.  The sphere test never speeds a particle up when the damping
    coefficient lies in [[0, 1]]: a particle pushed out while moving inward
    leaves with its speed multiplied by the damping coefficient (the
    reflection itself keeps the speed), and in every other case the
    velocity is the one it came with. *)
Theorem sphere_test_scales_speed_by_damping
    (i : nat) (dx dy dz : R) (body : RigidBody) (s : ParticleSystem) :
  wf s ->
  (i < numParticles s)%nat ->
  0 <= damping (params s) <= 1 ->
  let v := vel (particle i s) in
  let v' := vel (particle i (sphereTest i dx dy dz body s)) in
  let d := sqrt (dx * dx + dy * dy + dz * dz) in
  let dot := vx v * (dx / d) + vy v * (dy / d) + vz v * (dz / d) in
  Vec.length v' <= Vec.length v
  /\ (0 < d < vx (size body) -> dot < 0 ->
      Vec.length v' = damping (params s) * Vec.length v)
  /\ (~ (0 < d < vx (size body) /\ dot < 0) -> v' = v).
Proof.
  intros Hwf Hi [Hd0 Hd1] v v' d dot.
  destruct (sphereTest_acts i dx dy dz body s Hwf Hi) as (_ & _ & Hq & _).
  unfold v'. rewrite Hq. fold v. clear Hq v'.
  unfold OneStep.sphereTest. cbv zeta. fold d. fold v. fold dot.
  pose proof (norm_nonneg (vx v) (vy v) (vz v)) as Hlen.
  fold (Vec.length v) in Hlen.
  destruct (d <? vx (size body)) eqn:E1;
    [apply Rltb_true in E1 | apply Rltb_false in E1];
    (destruct (d >? 0) eqn:E2; [apply Rgtb_true in E2 | apply Rgtb_false in E2]);
    cbn [andb];
    try (split; [apply Rle_refl|]; split; [intros [? ?] ?; lra | reflexivity]).
  destruct (dot <? 0) eqn:E3; [apply Rltb_true in E3 | apply Rltb_false in E3];
    cbn [vel];
    [|split; [apply Rle_refl|]; split; [intros [? ?] ?; lra | reflexivity]].
  set (n := mkVector3 (dx / d) (dy / d) (dz / d)).
  assert (Hnn : Vec.dot n n = 1).
  { unfold Vec.dot, n. cbn [vx vy vz].
    pose proof (norm_sqr dx dy dz) as Hsq. fold d in Hsq.
    replace (dx / d * (dx / d) + dy / d * (dy / d) + dz / d * (dz / d))
      with ((dx * dx + dy * dy + dz * dz) / (d * d)) by (field; lra).
    rewrite <- Hsq. field. lra. }
  assert (Hv : mkVector3 ((vx v - 2 * dot * (dx / d)) * damping (params s))
                         ((vy v - 2 * dot * (dy / d)) * damping (params s))
                         ((vz v - 2 * dot * (dz / d)) * damping (params s))
               = Vec.multiplyScalar
                   (Vec.sub v (Vec.multiplyScalar n (2 * Vec.dot v n)))
                   (damping (params s))).
  { apply Vector3_eq; unfold n, dot, Vec.multiplyScalar, Vec.sub, Vec.dot;
      cbn [vx vy vz]; ring. }
  rewrite Hv, length_scale by exact Hd0. rewrite length_reflect by exact Hnn.
  split; [|split; [reflexivity | intros Hno; exfalso; apply Hno; lra]].
  rewrite <- (Rmult_1_l (Vec.length v)) at 2.
  apply Rmult_le_compat_r; lra.
Qed.

Lemma sphere_test_scales_speed_by_damping_witness :
  Vec.length (vel (particle 0
     (sphereTest 0 (4 / 10) 0 0 (droppedSphere (mkVector3 0 0 0))
        (particleSystem overlapWorld))))
  <= Vec.length (vel (particle 0 (particleSystem overlapWorld))).
Proof.
  refine (proj1 (sphere_test_scales_speed_by_damping 0%nat (4 / 10) 0 0
                   (droppedSphere (mkVector3 0 0 0)) (particleSystem overlapWorld)
                   wf_overlapWorld _ _)).
  - cbn. lia.
  - cbn. lra.
Defined.

Lemma Rmin3_cases (a b c : R) :
  let m := Rmin (Rmin a b) c in
  m <= a /\ m <= b /\ m <= c /\ (m = a \/ m = b \/ m = c).
Proof.
  cbv zeta. unfold Rmin.
  destruct (Rle_dec a b); destruct (Rle_dec _ c); repeat split; try lra; auto.
Qed.

(** X9.  A particle strictly inside a cube is moved along one axis only, the
    axis of least penetration, onto the face of the cube on its side of the
    centre (the far face [c + h] when its offset is positive, the near face
    [c - h] otherwise): it is no longer strictly inside.  Its velocity
    changes on that axis only, to its magnitude times the damping
    coefficient, directed away from the centre on that side; so for a
    damping coefficient that is not negative it does not point back into
    the cube. *)
Theorem cube_test_pushes_to_nearest_face
    (i : nat) (body : RigidBody) (s : ParticleSystem) :
  wf s ->
  (i < numParticles s)%nat ->
  0 <= damping (params s) ->
  let p := pos (particle i s) in
  let v := vel (particle i s) in
  let c := position body in
  let dx := vx p - vx c in
  let dy := vy p - vy c in
  let dz := vz p - vz c in
  let hx := vx (size body) * (5 / 10) in
  let hy := vy (size body) * (5 / 10) in
  let hz := vz (size body) * (5 / 10) in
  Rabs dx < hx -> Rabs dy < hy -> Rabs dz < hz ->
  let p' := pos (particle i (cubeTest i dx dy dz body s)) in
  let v' := vel (particle i (cubeTest i dx dy dz body s)) in
  (hx - Rabs dx <= hy - Rabs dy /\ hx - Rabs dx <= hz - Rabs dz
   /\ (0 < dx -> vx p' = vx c + hx
                 /\ vx v' = Rabs (vx v) * damping (params s))
   /\ (dx <= 0 -> vx p' = vx c - hx
                  /\ vx v' = - (Rabs (vx v) * damping (params s)))
   /\ Rabs (vx p' - vx c) = hx /\ vy p' = vy p /\ vz p' = vz p
   /\ vy v' = vy v /\ vz v' = vz v
   /\ 0 <= vx v' * (vx p' - vx c))
  \/ (hy - Rabs dy <= hx - Rabs dx /\ hy - Rabs dy <= hz - Rabs dz
      /\ (0 < dy -> vy p' = vy c + hy
                    /\ vy v' = Rabs (vy v) * damping (params s))
      /\ (dy <= 0 -> vy p' = vy c - hy
                     /\ vy v' = - (Rabs (vy v) * damping (params s)))
      /\ Rabs (vy p' - vy c) = hy /\ vx p' = vx p /\ vz p' = vz p
      /\ vx v' = vx v /\ vz v' = vz v
      /\ 0 <= vy v' * (vy p' - vy c))
  \/ (hz - Rabs dz <= hx - Rabs dx /\ hz - Rabs dz <= hy - Rabs dy
      /\ (0 < dz -> vz p' = vz c + hz
                    /\ vz v' = Rabs (vz v) * damping (params s))
      /\ (dz <= 0 -> vz p' = vz c - hz
                     /\ vz v' = - (Rabs (vz v) * damping (params s)))
      /\ Rabs (vz p' - vz c) = hz /\ vx p' = vx p /\ vy p' = vy p
      /\ vx v' = vx v /\ vy v' = vy v
      /\ 0 <= vz v' * (vz p' - vz c)).
Proof.
  intros Hwf Hi Hdamp p v c dx dy dz hx hy hz Hx Hy Hz p' v'.
  destruct (cubeTest_acts i dx dy dz body s Hwf Hi) as (_ & _ & Hq & _).
  unfold p', v'. rewrite Hq. clear Hq p' v'.
  unfold OneStep.cubeTest. cbv zeta. fold hx hy hz c p v.
  rewrite (proj2 (Rltb_true _ _) Hx), (proj2 (Rltb_true _ _) Hy),
    (proj2 (Rltb_true _ _) Hz). cbn [andb].
  pose proof (Rmin3_cases (hx - Rabs dx) (hy - Rabs dy) (hz - Rabs dz))
    as (Hm1 & Hm2 & Hm3 & Hm).
  cbv zeta in Hm1, Hm2, Hm3, Hm.
  set (m := Rmin (Rmin (hx - Rabs dx) (hy - Rabs dy)) (hz - Rabs dz)) in *.
  pose proof (Rabs_pos dx) as Hax. pose proof (Rabs_pos dy) as Hay.
  pose proof (Rabs_pos dz) as Haz.
  set (k := damping (params s)) in *.
  assert (Hface : forall d h a o : R, 0 <= h -> 0 <= a ->
            let sign := if d >? 0 then 1 else -1 in
            (0 < d -> o + sign * h = o + h /\ a * sign * k = a * k)
            /\ (d <= 0 -> o + sign * h = o - h /\ a * sign * k = - (a * k))
            /\ Rabs (o + sign * h - o) = h
            /\ 0 <= a * sign * k * (o + sign * h - o)).
  { intros d h a o Hh Ha sign. unfold sign.
    assert (Hak : 0 <= a * k * h) by (repeat apply Rmult_le_pos; assumption).
    destruct (d >? 0) eqn:E; [apply Rgtb_true in E | apply Rgtb_false in E].
    - split; [intros _; split; ring|]. split; [intros ?; lra|].
      replace (o + 1 * h - o) with h by ring.
      split; [now apply Rabs_pos_eq|].
      replace (a * 1 * k * h) with (a * k * h) by ring. exact Hak.
    - split; [intros ?; lra|]. split; [intros _; split; ring|].
      replace (o + -1 * h - o) with (- h) by ring.
      split; [rewrite Rabs_Ropp; now apply Rabs_pos_eq|].
      replace (a * -1 * k * - h) with (a * k * h) by ring. exact Hak. }
  destruct (m =? hx - Rabs dx) eqn:E1;
    [apply Reqb_true in E1 | apply Reqb_false in E1].
  - left. cbn [pos vel setX vx vy vz].
    destruct (Hface dx hx (Rabs (vx v)) (vx c) ltac:(lra) (Rabs_pos _))
      as (F1 & F2 & F3 & F4).
    split; [lra|]. split; [lra|]. split; [exact F1|]. split; [exact F2|].
    split; [exact F3|]. repeat split; try reflexivity. exact F4.
  - destruct (m =? hy - Rabs dy) eqn:E2;
      [apply Reqb_true in E2 | apply Reqb_false in E2].
    + right; left. cbn [pos vel setY vx vy vz].
      destruct (Hface dy hy (Rabs (vy v)) (vy c) ltac:(lra) (Rabs_pos _))
        as (F1 & F2 & F3 & F4).
      split; [lra|]. split; [lra|]. split; [exact F1|]. split; [exact F2|].
      split; [exact F3|]. repeat split; try reflexivity. exact F4.
    + right; right. cbn [pos vel setZ vx vy vz].
      assert (E3 : m = hz - Rabs dz) by (destruct Hm as [?|[?|?]]; congruence).
      destruct (Hface dz hz (Rabs (vz v)) (vz c) ltac:(lra) (Rabs_pos _))
        as (F1 & F2 & F3 & F4).
      split; [lra|]. split; [lra|]. split; [exact F1|]. split; [exact F2|].
      split; [exact F3|]. repeat split; try reflexivity. exact F4.
Qed.

(** The particle 0.4 to the right of the centre of a cube of edge 1.5 ends
    on the right face. *)
Lemma cube_test_pushes_to_nearest_face_witness :
  vx (pos (particle 0
             (cubeTest 0 (4 / 10 - 0) (0 - 0) (0 - 0) droppedCube
                (particleSystem overlapWorld))))
  = 0 + 15 / 10 * (5 / 10).
Proof.
  pose proof (cube_test_pushes_to_nearest_face 0%nat droppedCube
                (particleSystem overlapWorld) wf_overlapWorld) as H.
  cbv zeta in H.
  change (pos (particle 0 (particleSystem overlapWorld)))
    with (mkVector3 (4 / 10) 0 0) in H.
  change (position droppedCube) with (mkVector3 0 0 0) in H.
  change (size droppedCube)
    with (Vec.multiplyScalar (mkVector3 (15 / 10) (15 / 10) (15 / 10)) 1) in H.
  cbn [vx vy vz Vec.multiplyScalar] in H.
  assert (Ha : Rabs (4 / 10 - 0) = 4 / 10)
    by (rewrite Rminus_0_r; apply Rabs_pos_eq; lra).
  assert (Hb : Rabs (0 - 0) = 0) by (rewrite Rminus_0_r; apply Rabs_R0).
  rewrite Ha, Hb in H.
  specialize (H ltac:(cbn; lia) ltac:(cbn; lra) ltac:(lra) ltac:(lra) ltac:(lra)).
  destruct H as [H|[H|H]].
  - destruct H as (_ & _ & Hpos & _).
    destruct (Hpos ltac:(lra)) as [Hp _]. rewrite Hp. lra.
  - destruct H as (Hc & _). lra.
  - destruct H as (Hc & _). lra.
Defined.

Lemma collidePair_velocity_sum this other :
  Vec.add (velocity (fst (collidePair this other)))
          (velocity (snd (collidePair this other)))
  = Vec.add (velocity this) (velocity other).
Proof.
  unfold collidePair. cbv zeta.
  destruct (_ <? 1 / 1000); [reflexivity|].
  destruct (_ <? _); [|reflexivity].
  destruct (_ || _); [|reflexivity].
  destruct (_ >? 1 / 1000); cbn; apply Vector3_eq; cbn; ring.
Qed.

Lemma totalVelocity_insert (l : list RigidBody) : forall i a a',
  l !! i = Some a ->
  totalVelocity (<[i := a']> l)
  = Vec.add (totalVelocity l) (Vec.sub (velocity a') (velocity a)).
Proof.
  induction l as [|b l IH]; intros [|i] a a' H; try discriminate.
  - injection H as ->. cbn. apply Vector3_eq; cbn; ring.
  - cbn in H.
    change (totalVelocity (<[S i:=a']> (b :: l)))
      with (Vec.add (velocity b) (totalVelocity (<[i:=a']> l))).
    change (totalVelocity (b :: l)) with (Vec.add (velocity b) (totalVelocity l)).
    rewrite (IH i a a' H). apply Vector3_eq; cbn; ring.
Qed.

Lemma collideWith_totalVelocity self k bodies :
  totalVelocity (collideWith self k bodies) = totalVelocity bodies.
Proof.
  unfold collideWith. destruct (Nat.eqb_spec k self) as [->|Hk]; [reflexivity|].
  destruct (bodies !! self) as [this|] eqn:Hs; [|reflexivity].
  destruct (bodies !! k) as [other|] eqn:Ho; [|reflexivity].
  pose proof (collidePair_velocity_sum this other) as Hsum.
  destruct (collidePair this other) as [this' other']. cbn [fst snd] in Hsum.
  rewrite (totalVelocity_insert _ k other other'),
    (totalVelocity_insert _ self this this' Hs).
  - apply (f_equal vx) in Hsum as Hx. apply (f_equal vy) in Hsum as Hy.
    apply (f_equal vz) in Hsum as Hz. cbn in Hx, Hy, Hz.
    apply Vector3_eq; cbn; lra.
  - rewrite list_lookup_insert_ne by congruence. exact Ho.
Qed.

Lemma checkObjectCollisions_totalVelocity self bodies :
  totalVelocity (checkObjectCollisions self bodies) = totalVelocity bodies.
Proof.
  unfold checkObjectCollisions.
  apply (forRange_invariant (fun l => totalVelocity l = totalVelocity bodies)).
  - intros k l _ Hl. now rewrite collideWith_totalVelocity.
  - reflexivity.
Qed.

Lemma collisionPass_totalVelocity bodies :
  totalVelocity (collisionPass bodies) = totalVelocity bodies.
Proof.
  unfold collisionPass.
  apply (forRange_invariant (fun l => totalVelocity l = totalVelocity bodies)).
  - intros k l _ Hl. now rewrite checkObjectCollisions_totalVelocity.
  - reflexivity.
Qed.

(** X10.  Collisions between bodies exchange linear velocity and never
    create any: a pairwise collision keeps the sum of the two velocities,
    and so the collision method of one body, and the three resolution
    passes of a frame, keep the sum of the velocities of all the bodies. *)
Theorem body_collisions_keep_total_velocity
    (this other : RigidBody) (self : nat) (bodies : list RigidBody) :
  Vec.add (velocity (fst (collidePair this other)))
          (velocity (snd (collidePair this other)))
  = Vec.add (velocity this) (velocity other)
  /\ totalVelocity (checkObjectCollisions self bodies) = totalVelocity bodies
  /\ totalVelocity (collisionPasses bodies) = totalVelocity bodies.
Proof.
  split; [apply collidePair_velocity_sum|].
  split; [apply checkObjectCollisions_totalVelocity|].
  unfold collisionPasses.
  apply (forRange_invariant (fun l => totalVelocity l = totalVelocity bodies)).
  - intros k l _ Hl. now rewrite collisionPass_totalVelocity.
  - reflexivity.
Qed.

Lemma normalize_unit (v : Vector3) :
  0 < Vec.length v -> Vec.dot (Vec.normalize v) (Vec.normalize v) = 1.
Proof.
  intros Hv. unfold Vec.normalize, Vec.dot. cbv zeta. cbn [vx vy vz].
  rewrite (proj2 (Reqb_false _ _)) by lra.
  pose proof (norm_sqr (vx v) (vy v) (vz v)) as Hsq.
  unfold Vec.length in *. set (l := sqrt _) in *.
  replace (vx v / l * (vx v / l) + vy v / l * (vy v / l) + vz v / l * (vz v / l))
    with ((vx v * vx v + vy v * vy v + vz v * vz v) / (l * l)) by (field; lra).
  rewrite <- Hsq. field. lra.
Qed.

Lemma normalize_scaled (v : Vector3) :
  0 < Vec.length v -> Vec.multiplyScalar (Vec.normalize v) (Vec.length v) = v.
Proof.
  intros Hv. unfold Vec.normalize, Vec.multiplyScalar. cbv zeta. cbn [vx vy vz].
  rewrite (proj2 (Reqb_false _ _)) by lra.
  apply Vector3_eq; cbn [vx vy vz]; field; lra.
Qed.

Lemma collidePair_positions this other :
  let diff := Vec.sub (position this) (position other) in
  let d := Vec.length diff in
  let minDistance := collisionRadius this + collisionRadius other in
  1 / 1000 <= d -> d < minDistance ->
  Vec.sub (position (fst (collidePair this other)))
          (position (snd (collidePair this other)))
  = Vec.add diff (Vec.multiplyScalar (Vec.normalize diff) (minDistance - d)).
Proof.
  intros diff d minDistance Hd Hov. unfold collidePair. cbv zeta.
  fold diff. fold d. fold minDistance.
  rewrite (proj2 (Rltb_false _ _)) by lra.
  rewrite (proj2 (Rltb_true _ _)) by lra.
  destruct (_ || _); [destruct (_ >? 1 / 1000)|];
    cbn; apply Vector3_eq; cbn; ring.
Qed.

(** X11.  Two bodies whose centres are at least 0.001 apart and closer than
    the sum of their collision radii are moved apart along the line of
    their centres until the distance is exactly that sum; their collision
    radii are the ones they had. *)
Theorem overlapping_bodies_are_moved_to_contact (this other : RigidBody) :
  let d := Vec.length (Vec.sub (position this) (position other)) in
  let minDistance := collisionRadius this + collisionRadius other in
  1 / 1000 <= d -> d < minDistance ->
  Vec.length (Vec.sub (position (fst (collidePair this other)))
                      (position (snd (collidePair this other))))
  = minDistance
  /\ collisionRadius (fst (collidePair this other)) = collisionRadius this
  /\ collisionRadius (snd (collidePair this other)) = collisionRadius other.
Proof.
  intros d minDistance Hd Hov. split.
  - rewrite collidePair_positions by assumption. fold d minDistance.
    set (diff := Vec.sub (position this) (position other)) in *.
    assert (Hpos : 0 < d) by lra.
    rewrite <- (normalize_scaled diff Hpos) at 1. fold d.
    replace (Vec.add (Vec.multiplyScalar (Vec.normalize diff) d)
               (Vec.multiplyScalar (Vec.normalize diff) (minDistance - d)))
      with (Vec.multiplyScalar (Vec.normalize diff) minDistance)
      by (apply Vector3_eq; cbn; ring).
    rewrite length_scale by lra.
    pose proof (normalize_unit diff Hpos) as Hn.
    unfold Vec.length. unfold Vec.dot in Hn. rewrite Hn, sqrt_1. ring.
  - destruct (collidePair_same_shape this other) as [[Ht Hs] [Ht' Hs']].
    unfold collisionRadius. now rewrite Ht, Hs, Ht', Hs'.
Qed.

Lemma overlapping_bodies_are_moved_to_contact_witness :
  Vec.length
    (Vec.sub
       (position (fst (collidePair
          (sphereAt (8 / 10) 2700 (mkVector3 0 0 0) (mkVector3 1 0 0))
          (sphereAt (8 / 10) 2700 (mkVector3 1 0 0) (mkVector3 (-1) 0 0)))))
       (position (snd (collidePair
          (sphereAt (8 / 10) 2700 (mkVector3 0 0 0) (mkVector3 1 0 0))
          (sphereAt (8 / 10) 2700 (mkVector3 1 0 0) (mkVector3 (-1) 0 0))))))
  = 8 / 10 + 8 / 10.
Proof.
  assert (Hd : Vec.length
                 (Vec.sub
                    (position (sphereAt (8 / 10) 2700 (mkVector3 0 0 0)
                                 (mkVector3 1 0 0)))
                    (position (sphereAt (8 / 10) 2700 (mkVector3 1 0 0)
                                 (mkVector3 (-1) 0 0)))) = 1).
  { unfold Vec.length. cbn.
    replace ((0 - 1) * (0 - 1) + (0 - 0) * (0 - 0) + (0 - 0) * (0 - 0)) with 1
      by ring.
    apply sqrt_1. }
  apply (overlapping_bodies_are_moved_to_contact
           (sphereAt (8 / 10) 2700 (mkVector3 0 0 0) (mkVector3 1 0 0))
           (sphereAt (8 / 10) 2700 (mkVector3 1 0 0) (mkVector3 (-1) 0 0)));
    rewrite Hd; cbn; lra.
Defined.

Lemma normalize_orthogonal (v n : Vector3) :
  Vec.dot v n = 0 -> Vec.dot (Vec.normalize v) n = 0.
Proof.
  intros H. unfold Vec.normalize, Vec.dot in *. cbv zeta. cbn [vx vy vz] in *.
  set (l := if _ =? 0 then 1 else _).
  assert (Hl : l <> 0).
  { unfold l. destruct (_ =? 0) eqn:E; [lra|]. now apply Reqb_false in E. }
  replace (vx v / l * vx n + vy v / l * vy n + vz v / l * vz n)
    with ((vx v * vx n + vy v * vy n + vz v * vz n) / l) by (field; exact Hl).
  rewrite H. field. exact Hl.
Qed.

Lemma dot_impulse (va vb n : Vector3) (k : R) :
  Vec.dot (Vec.sub (Vec.add va (Vec.multiplyScalar n k))
                   (Vec.sub vb (Vec.multiplyScalar n k))) n
  = Vec.dot (Vec.sub va vb) n + 2 * k * Vec.dot n n.
Proof. unfold Vec.dot, Vec.sub, Vec.add, Vec.multiplyScalar. cbn. ring. Qed.

Lemma dot_impulse_friction (va vb n u : Vector3) (k c : R) :
  Vec.dot (Vec.sub (Vec.add (Vec.add va (Vec.multiplyScalar n k))
                            (Vec.multiplyScalar u c))
                   (Vec.sub (Vec.sub vb (Vec.multiplyScalar n k))
                            (Vec.multiplyScalar u c))) n
  = Vec.dot (Vec.sub va vb) n + 2 * k * Vec.dot n n + 2 * c * Vec.dot u n.
Proof. unfold Vec.dot, Vec.sub, Vec.add, Vec.multiplyScalar. cbn. ring. Qed.

(** X12.  When the impulse of a pairwise collision is applied (the bodies
    approach each other along the line of their centres, or overlap by more
    than 0.1), the component of their relative velocity along that line
    comes out reversed and multiplied by the restitution 0.4; the friction
    acts across that line and does not change it.  When the impulse is not
    applied the two velocities are the ones the bodies came with. *)
Theorem impulse_reverses_normal_velocity (this other : RigidBody) :
  let diff := Vec.sub (position this) (position other) in
  let d := Vec.length diff in
  let minDistance := collisionRadius this + collisionRadius other in
  let normal := Vec.normalize diff in
  let along (a b : RigidBody) :=
    Vec.dot (Vec.sub (velocity a) (velocity b)) normal in
  1 / 1000 <= d -> d < minDistance ->
  ((along this other < 0 \/ minDistance - d > 1 / 10) ->
   along (fst (collidePair this other)) (snd (collidePair this other))
   = - restitution * along this other)
  /\ (0 <= along this other -> minDistance - d <= 1 / 10 ->
      velocity (fst (collidePair this other)) = velocity this
      /\ velocity (snd (collidePair this other)) = velocity other).
Proof.
  intros diff d minDistance normal along Hd Hov.
  assert (Hn : Vec.dot normal normal = 1) by (apply normalize_unit; fold d; lra).
  unfold along, collidePair. cbv zeta.
  fold diff. fold d. fold minDistance. fold normal.
  rewrite (proj2 (Rltb_false _ _)) by lra.
  rewrite (proj2 (Rltb_true _ _)) by lra.
  cbn [setPosition velocity].
  set (rel := Vec.sub (velocity this) (velocity other)).
  set (van := Vec.dot rel normal).
  split.
  - intros Himp.
    assert (Hb : (van <? 0) || (minDistance - d >? 1 / 10) = true).
    { destruct Himp as [H|H].
      - now rewrite (proj2 (Rltb_true _ _) H).
      - unfold Rgtb. rewrite (proj2 (Rltb_true _ _) H). apply orb_true_r. }
    rewrite Hb.
    set (tangent := Vec.sub rel (Vec.multiplyScalar normal van)).
    assert (Ht : Vec.dot tangent normal = 0).
    { unfold tangent, van, Vec.dot, Vec.sub, Vec.multiplyScalar in *.
      cbn [vx vy vz] in *.
      set (q := vx rel * vx normal + vy rel * vy normal + vz rel * vz normal).
      replace ((vx rel - vx normal * q) * vx normal
               + (vy rel - vy normal * q) * vy normal
               + (vz rel - vz normal * q) * vz normal)
        with (q - q * (vx normal * vx normal + vy normal * vy normal
                       + vz normal * vz normal)) by (unfold q; ring).
      rewrite Hn. ring. }
    pose proof (normalize_orthogonal tangent normal Ht) as Hf.
    set (u := Vec.normalize tangent) in *.
    unfold restitution.
    destruct (_ >? 1 / 1000); cbn [fst snd velocity setVelocity scaleAngular
                                     setAngularVelocity].
    + rewrite dot_impulse_friction. fold rel. fold van. rewrite Hn, Hf. lra.
    + rewrite dot_impulse. fold rel. fold van. rewrite Hn. lra.
  - intros Hsep Hsmall.
    rewrite (proj2 (Rltb_false _ _)) by lra.
    unfold Rgtb. rewrite (proj2 (Rltb_false _ _)) by lra.
    cbn. split; reflexivity.
Qed.

Lemma impulse_reverses_normal_velocity_witness :
  Vec.dot
    (Vec.sub
       (velocity (fst (collidePair
          (sphereAt (8 / 10) 2700 (mkVector3 0 0 0) (mkVector3 1 0 0))
          (sphereAt (8 / 10) 2700 (mkVector3 1 0 0) (mkVector3 (-1) 0 0)))))
       (velocity (snd (collidePair
          (sphereAt (8 / 10) 2700 (mkVector3 0 0 0) (mkVector3 1 0 0))
          (sphereAt (8 / 10) 2700 (mkVector3 1 0 0) (mkVector3 (-1) 0 0))))))
    (Vec.normalize (Vec.sub (mkVector3 0 0 0) (mkVector3 1 0 0)))
  = - restitution
    * Vec.dot (Vec.sub (mkVector3 1 0 0) (mkVector3 (-1) 0 0))
        (Vec.normalize (Vec.sub (mkVector3 0 0 0) (mkVector3 1 0 0))).
Proof.
  assert (Hd : Vec.length
                 (Vec.sub
                    (position (sphereAt (8 / 10) 2700 (mkVector3 0 0 0)
                                 (mkVector3 1 0 0)))
                    (position (sphereAt (8 / 10) 2700 (mkVector3 1 0 0)
                                 (mkVector3 (-1) 0 0)))) = 1).
  { unfold Vec.length. cbn.
    replace ((0 - 1) * (0 - 1) + (0 - 0) * (0 - 0) + (0 - 0) * (0 - 0)) with 1
      by ring.
    apply sqrt_1. }
  refine (proj1 (impulse_reverses_normal_velocity
                   (sphereAt (8 / 10) 2700 (mkVector3 0 0 0) (mkVector3 1 0 0))
                   (sphereAt (8 / 10) 2700 (mkVector3 1 0 0) (mkVector3 (-1) 0 0))
                   _ _) (or_intror _));
    rewrite Hd; cbn; lra.
Defined.

Lemma collideWith_notInContact self k bodies :
  pairwise notInContact bodies -> collideWith self k bodies = bodies.
Proof.
  intros H. unfold collideWith.
  destruct (Nat.eqb_spec k self) as [->|Hk]; [reflexivity|].
  destruct (bodies !! self) as [this|] eqn:Hs; [|reflexivity].
  destruct (bodies !! k) as [other|] eqn:Ho; [|reflexivity].
  assert (Hp : collidePair this other = (this, other)).
  { destruct (H self k this other ltac:(congruence) Hs Ho) as [Hc|Hc].
    - now apply collidePair_too_close.
    - now apply collidePair_apart. }
  rewrite Hp. rewrite (list_insert_id bodies self this Hs).
  now apply list_insert_id.
Qed.

Lemma checkObjectCollisions_notInContact self bodies :
  pairwise notInContact bodies -> checkObjectCollisions self bodies = bodies.
Proof.
  intros H. unfold checkObjectCollisions.
  apply (forRange_invariant (fun l => l = bodies)); [|reflexivity].
  intros k l _ ->. now apply collideWith_notInContact.
Qed.

Lemma collisionPass_notInContact bodies :
  pairwise notInContact bodies -> collisionPass bodies = bodies.
Proof.
  intros H. unfold collisionPass.
  apply (forRange_invariant (fun l => l = bodies)); [|reflexivity].
  intros k l _ ->. now apply checkObjectCollisions_notInContact.
Qed.

(** X13.  Bodies none of which is in contact with another (every two have
    their centres at least the sum of their collision radii apart, or less
    than 0.001 apart) are left exactly as they are by the collision method
    of each body and by the three resolution passes of a frame. *)
Theorem bodies_not_in_contact_are_left_alone
    (self : nat) (bodies : list RigidBody) :
  pairwise notInContact bodies ->
  checkObjectCollisions self bodies = bodies
  /\ collisionPasses bodies = bodies.
Proof.
  intros H. split; [now apply checkObjectCollisions_notInContact|].
  unfold collisionPasses.
  apply (forRange_invariant (fun l => l = bodies)); [|reflexivity].
  intros k l _ ->. now apply collisionPass_notInContact.
Qed.

Lemma bodies_not_in_contact_are_left_alone_witness :
  collisionPasses [droppedSphere (mkVector3 0 0 0); droppedSphere (mkVector3 5 0 0)]
  = [droppedSphere (mkVector3 0 0 0); droppedSphere (mkVector3 5 0 0)].
Proof.
  apply (bodies_not_in_contact_are_left_alone 0).
  assert (Hd : forall e, sqrt (e * e + (0 - 0) * (0 - 0) + (0 - 0) * (0 - 0)) = Rabs e).
  { intros e. rewrite <- (length_x_axis e). f_equal. ring. }
  intros [|[|i]] [|[|j]] a b Hij Ha Hb; try congruence; try discriminate;
    injection Ha as <-; injection Hb as <-; right;
    unfold Vec.length, collisionRadius; cbn; rewrite Hd.
  - rewrite Rabs_left by lra. lra.
  - rewrite Rabs_right by lra. lra.
Defined.

Lemma slower_refl v : slower v v.
Proof. unfold slower. repeat split; apply Rle_refl. Qed.

Lemma slower_trans a b c : slower a b -> slower b c -> slower a c.
Proof. unfold slower. intros (? & ? & ?) (? & ? & ?). repeat split; lra. Qed.

Lemma Rabs_scaled (x k : R) : Rabs k <= 1 -> Rabs (x * k) <= Rabs x.
Proof.
  intros Hk. rewrite Rabs_mult. pose proof (Rabs_pos x). pose proof (Rabs_pos k).
  nra.
Qed.

Lemma Rabs_flipped (x k : R) : Rabs k <= 1 -> Rabs (- x * k) <= Rabs x.
Proof.
  intros Hk. replace (- x * k) with (x * - k) by ring.
  apply Rabs_scaled. now rewrite Rabs_Ropp.
Qed.

Lemma Rabs_small (k : R) : -1 <= k <= 1 -> Rabs k <= 1.
Proof. intros H. apply Rabs_le. lra. Qed.

Lemma slower_length v' v : slower v' v -> Vec.length v' <= Vec.length v.
Proof.
  intros (Hx & Hy & Hz). unfold Vec.length. apply sqrt_le_1_alt.
  pose proof (Rabs_pos (vx v')). pose proof (Rabs_pos (vy v')).
  pose proof (Rabs_pos (vz v')).
  assert (Hsq : forall a b, 0 <= Rabs a -> Rabs a <= Rabs b -> a * a <= b * b).
  { intros a b Ha Hab. pose proof (Rsqr_abs a) as Ea. pose proof (Rsqr_abs b) as Eb.
    unfold Rsqr in Ea, Eb. rewrite Ea, Eb. now apply sq_mono. }
  pose proof (Hsq _ _ (Rabs_pos _) Hx).
  pose proof (Hsq _ _ (Rabs_pos _) Hy).
  pose proof (Hsq _ _ (Rabs_pos _) Hz). lra.
Qed.

Lemma velocity_land t f b :
  velocity (land t f b)
  = mkVector3 (vx (velocity b) * (8 / 10)) (- vy (velocity b) * (2 / 10))
      (vz (velocity b) * (8 / 10)).
Proof. unfold land. cbv zeta. js_cases; reflexivity. Qed.

Lemma land_slower t f b : slower (velocity (land t f b)) (velocity b).
Proof.
  rewrite velocity_land. unfold slower. cbn [vx vy vz].
  repeat split; [apply Rabs_scaled | apply Rabs_flipped | apply Rabs_scaled];
    apply Rabs_small; lra.
Qed.

Section BodySpeed.

Variable applyEuler : Euler -> Vector3 -> Vector3.

Lemma floorRound_slower r lo b :
  type (floorRound r lo b) = type b
  /\ slower (velocity (floorRound r lo b)) (velocity b).
Proof.
  unfold floorRound. destruct (_ <? _); [|split; [reflexivity | apply slower_refl]].
  cbv zeta. rewrite type_land. split; [reflexivity|].
  apply (slower_trans _ _ _ (land_slower _ _ _)), slower_refl.
Qed.

Lemma floorCylinder_slower r lo b :
  type (floorCylinder r lo b) = type b
  /\ slower (velocity (floorCylinder r lo b)) (velocity b).
Proof.
  unfold floorCylinder. cbv zeta.
  destruct (_ <? _); [|split; [reflexivity | apply slower_refl]].
  destruct (isMovingSlowly _);
    cbn [type velocity scaleAngular setAngularVelocity setPhysicalRotation];
    rewrite type_land; (split; [reflexivity|]);
    apply (slower_trans _ _ _ (land_slower _ _ _)), slower_refl.
Qed.

Lemma floorBox_slower e lo b :
  type (floorBox applyEuler e lo b) = type b
  /\ slower (velocity (floorBox applyEuler e lo b)) (velocity b).
Proof.
  unfold floorBox. cbv zeta.
  destruct (_ <? _); [|split; [reflexivity | apply slower_refl]].
  destruct (isMovingSlowly _); [destruct (_ <? _)|];
    cbn [type velocity scaleAngular setAngularVelocity setPhysicalRotation
           setPositionY setPosition];
    rewrite type_land; (split; [reflexivity|]);
    apply (slower_trans _ _ _ (land_slower _ _ _)), slower_refl.
Qed.

Lemma ceiling_slower r hi b :
  type (ceiling r hi b) = type b
  /\ slower (velocity (ceiling r hi b)) (velocity b).
Proof.
  unfold ceiling. unfold Rgtb.
  destruct (_ <? _); [|split; [reflexivity | apply slower_refl]].
  split; [reflexivity|]. unfold slower. cbn.
  repeat split; try apply Rle_refl. apply Rabs_flipped, Rabs_small. lra.
Qed.

Lemma wallsX_slower r k lo hi b :
  type (wallsX r k lo hi b) = type b
  /\ slower (velocity (wallsX r k lo hi b)) (velocity b).
Proof.
  assert (Hk : Rabs (3 / 10) <= 1) by (apply Rabs_small; lra).
  unfold wallsX, Rgtb. cbv zeta.
  destruct (_ <? _); destruct (_ <? _); (split; [reflexivity|]);
    unfold slower; cbn; repeat split; try apply Rle_refl.
  - eapply Rle_trans; [apply Rabs_flipped, Hk|]. apply Rabs_flipped, Hk.
  - apply Rabs_flipped, Hk.
  - apply Rabs_flipped, Hk.
Qed.

Lemma wallsZ_slower r k lo hi b :
  type (wallsZ r k lo hi b) = type b
  /\ slower (velocity (wallsZ r k lo hi b)) (velocity b).
Proof.
  assert (Hk : Rabs (3 / 10) <= 1) by (apply Rabs_small; lra).
  unfold wallsZ, Rgtb. cbv zeta.
  destruct (_ <? _); destruct (_ <? _); (split; [reflexivity|]);
    unfold slower; cbn; repeat split; try apply Rle_refl.
  - eapply Rle_trans; [apply Rabs_flipped, Hk|]. apply Rabs_flipped, Hk.
  - apply Rabs_flipped, Hk.
  - apply Rabs_flipped, Hk.
Qed.

Lemma boundaryHandling_slower lo hi b :
  slower (velocity (boundaryHandling applyEuler lo hi b)) (velocity b).
Proof.
  unfold boundaryHandling. cbv zeta.
  set (e := effectiveRadius applyEuler b).
  set (r := vx (size b)).
  set (b1 := if isRoundType (type b) then floorRound r lo b
             else if isCylinderType (type b) then floorCylinder r lo b
             else floorBox applyEuler e lo b).
  assert (H1 : type b1 = type b /\ slower (velocity b1) (velocity b)).
  { unfold b1. destruct (isRoundType _); [apply floorRound_slower|].
    destruct (isCylinderType _); [apply floorCylinder_slower | apply floorBox_slower]. }
  destruct H1 as [Ht1 Hs1]. rewrite Ht1.
  set (b2 := if isRadialType (type b) then ceiling r hi b1 else ceiling (vy e) hi b1).
  assert (H2 : type b2 = type b /\ slower (velocity b2) (velocity b)).
  { unfold b2. destruct (isRadialType _);
      match goal with |- context [ceiling ?q hi b1] =>
        destruct (ceiling_slower q hi b1) as [Ht Hs] end;
      (split; [congruence | exact (slower_trans _ _ _ Hs Hs1)]). }
  destruct H2 as [Ht2 Hs2]. rewrite Ht2.
  set (b3 := if isRadialType (type b) then wallsX r (2 / 10) lo hi b2
             else wallsX (vx e) (3 / 10) lo hi b2).
  assert (H3 : type b3 = type b /\ slower (velocity b3) (velocity b)).
  { unfold b3. destruct (isRadialType _);
      match goal with |- context [wallsX ?q ?k lo hi b2] =>
        destruct (wallsX_slower q k lo hi b2) as [Ht Hs] end;
      (split; [congruence | exact (slower_trans _ _ _ Hs Hs2)]). }
  destruct H3 as [Ht3 Hs3]. rewrite Ht3.
  destruct (isRadialType _);
    match goal with |- context [wallsZ ?q ?k lo hi b3] =>
      destruct (wallsZ_slower q k lo hi b3) as [Ht Hs] end;
    exact (slower_trans _ _ _ Hs Hs3).
Qed.

End BodySpeed.

(** X14.  The boundary handling that ends [update] never speeds a body up:
    whatever walls the body touches, no component of its velocity grows in
    magnitude, and so neither does its speed. *)
Theorem body_boundary_handling_never_speeds_up
    (applyEuler : Euler -> Vector3 -> Vector3) (lo hi : Vector3) (b : RigidBody) :
  slower (velocity (boundaryHandling applyEuler lo hi b)) (velocity b)
  /\ Vec.length (velocity (boundaryHandling applyEuler lo hi b))
     <= Vec.length (velocity b).
Proof.
  split; [|apply slower_length]; apply boundaryHandling_slower.
Qed.

Lemma floorRound_clear r lo b :
  vy lo <= vy (position b) - r -> floorRound r lo b = b.
Proof. intros H. unfold floorRound. now rewrite (proj2 (Rltb_false _ _)) by lra. Qed.

Lemma floorCylinder_clear r lo b :
  vy lo <= vy (position b) - r -> floorCylinder r lo b = b.
Proof.
  intros H. unfold floorCylinder. now rewrite (proj2 (Rltb_false _ _)) by lra.
Qed.

Lemma floorBox_clear applyEuler e lo b :
  vy lo <= vy (position b) - vy e -> floorBox applyEuler e lo b = b.
Proof. intros H. unfold floorBox. now rewrite (proj2 (Rltb_false _ _)) by lra. Qed.

Lemma ceiling_clear r hi b :
  vy (position b) + r <= vy hi -> ceiling r hi b = b.
Proof.
  intros H. unfold ceiling, Rgtb. now rewrite (proj2 (Rltb_false _ _)) by lra.
Qed.

Lemma wallsX_clear r k lo hi b :
  vx lo <= vx (position b) - r -> vx (position b) + r <= vx hi ->
  wallsX r k lo hi b = b.
Proof.
  intros H1 H2. unfold wallsX, Rgtb. cbv zeta.
  rewrite (proj2 (Rltb_false (vx (position b) - r) (vx lo))) by lra.
  now rewrite (proj2 (Rltb_false _ _)) by lra.
Qed.

Lemma wallsZ_clear r k lo hi b :
  vz lo <= vz (position b) - r -> vz (position b) + r <= vz hi ->
  wallsZ r k lo hi b = b.
Proof.
  intros H1 H2. unfold wallsZ, Rgtb. cbv zeta.
  rewrite (proj2 (Rltb_false (vz (position b) - r) (vz lo))) by lra.
  now rewrite (proj2 (Rltb_false _ _)) by lra.
Qed.

Lemma boundaryHandling_clear
    (applyEuler : Euler -> Vector3 -> Vector3) (lo hi : Vector3) (b : RigidBody) :
  let e := halfExtent applyEuler b in
  vx lo <= vx (position b) - vx e -> vx (position b) + vx e <= vx hi ->
  vy lo <= vy (position b) - vy e -> vy (position b) + vy e <= vy hi ->
  vz lo <= vz (position b) - vz e -> vz (position b) + vz e <= vz hi ->
  boundaryHandling applyEuler lo hi b = b.
Proof.
  unfold halfExtent, boundaryHandling. cbv zeta.
  pose proof (isRadialType_split (type b)) as Hrad.
  set (e := effectiveRadius applyEuler b).
  set (r := vx (size b)).
  destruct (isRoundType (type b)) eqn:Hround;
    [|destruct (isCylinderType (type b)) eqn:Hcyl];
    cbn [orb] in Hrad; rewrite Hrad; cbn [vx vy vz];
    intros Hx1 Hx2 Hy1 Hy2 Hz1 Hz2.
  - rewrite (floorRound_clear r lo b Hy1), Hrad.
    rewrite (ceiling_clear r hi b Hy2), Hrad.
    rewrite (wallsX_clear r _ lo hi b Hx1 Hx2), Hrad.
    apply (wallsZ_clear r _ lo hi b Hz1 Hz2).
  - rewrite (floorCylinder_clear r lo b Hy1), Hrad.
    rewrite (ceiling_clear r hi b Hy2), Hrad.
    rewrite (wallsX_clear r _ lo hi b Hx1 Hx2), Hrad.
    apply (wallsZ_clear r _ lo hi b Hz1 Hz2).
  - rewrite (floorBox_clear applyEuler e lo b Hy1), Hrad.
    rewrite (ceiling_clear (vy e) hi b Hy2), Hrad.
    rewrite (wallsX_clear (vx e) _ lo hi b Hx1 Hx2), Hrad.
    apply (wallsZ_clear (vz e) _ lo hi b Hz1 Hz2).
Qed.

(** X15.  A body that keeps its half-extent away from all six walls is
    returned by the boundary handling exactly as it came: position,
    velocity, spin and rotation. *)
Theorem body_clear_of_the_walls_is_left_alone
    (applyEuler : Euler -> Vector3 -> Vector3) (lo hi : Vector3) (b : RigidBody) :
  let e := halfExtent applyEuler b in
  vx lo <= vx (position b) - vx e -> vx (position b) + vx e <= vx hi ->
  vy lo <= vy (position b) - vy e -> vy (position b) + vy e <= vy hi ->
  vz lo <= vz (position b) - vz e -> vz (position b) + vz e <= vz hi ->
  boundaryHandling applyEuler lo hi b = b.
Proof. apply boundaryHandling_clear. Qed.

Lemma body_clear_of_the_walls_is_left_alone_witness :
  boundaryHandling noRotation (mkVector3 (-8) (-5) (-8)) (mkVector3 8 12 8)
    (droppedSphere (mkVector3 0 10 0))
  = droppedSphere (mkVector3 0 10 0).
Proof.
  apply (body_clear_of_the_walls_is_left_alone noRotation); cbn; lra.
Defined.

(** ** No escape: a body that does not fit the domain *)







Lemma Rabs_bounce (x k : R) : 0 <= k <= 1 -> Rabs (Rabs x * k) <= Rabs x.
Proof.
  intros Hk. eapply Rle_trans; [apply Rabs_scaled, Rabs_small; lra|].
  rewrite Rabs_Rabsolu. apply Rle_refl.
Qed.

Lemma Rabs_bounce_back (x k : R) : 0 <= k <= 1 -> Rabs (- Rabs x * k) <= Rabs x.
Proof.
  intros Hk. eapply Rle_trans; [apply Rabs_flipped, Rabs_small; lra|].
  rewrite Rabs_Rabsolu. apply Rle_refl.
Qed.

Lemma One_handleBoundaryCollision_slower prm q :
  0 <= damping prm <= 1 ->
  slower (vel (One.handleBoundaryCollision prm q)) (vel q).
Proof.
  intros Hd. unfold One.handleBoundaryCollision.
  assert (H95 : forall x, Rabs (x * (95 / 100)) <= Rabs x)
    by (intros x; apply Rabs_scaled, Rabs_small; lra).
  assert (H1 : slower (vel (One.boundaryBottom prm q)) (vel q)).
  { unfold One.boundaryBottom. destruct (_ <? _); [|apply slower_refl].
    unfold slower. cbn. repeat split; auto using Rabs_bounce. }
  set (q1 := One.boundaryBottom prm q) in *.
  assert (H2 : slower (vel (One.boundaryTop prm q1)) (vel q1)).
  { unfold One.boundaryTop, Rgtb. destruct (_ <? _); [|apply slower_refl].
    unfold slower. cbn. repeat split; auto using Rabs_bounce_back, Rle_refl. }
  set (q2 := One.boundaryTop prm q1) in *.
  assert (H3 : slower (vel (One.boundaryXMin prm q2)) (vel q2)).
  { unfold One.boundaryXMin. destruct (_ <? _); [|apply slower_refl].
    unfold slower. cbn. repeat split; auto using Rabs_bounce, Rle_refl. }
  set (q3 := One.boundaryXMin prm q2) in *.
  assert (H4 : slower (vel (One.boundaryXMax prm q3)) (vel q3)).
  { unfold One.boundaryXMax, Rgtb. destruct (_ <? _); [|apply slower_refl].
    unfold slower. cbn. repeat split; auto using Rabs_bounce_back, Rle_refl. }
  set (q4 := One.boundaryXMax prm q3) in *.
  assert (H5 : slower (vel (One.boundaryZMin prm q4)) (vel q4)).
  { unfold One.boundaryZMin. destruct (_ <? _); [|apply slower_refl].
    unfold slower. cbn. repeat split; auto using Rabs_bounce, Rle_refl. }
  set (q5 := One.boundaryZMin prm q4) in *.
  assert (H6 : slower (vel (One.boundaryZMax prm q5)) (vel q5)).
  { unfold One.boundaryZMax, Rgtb. destruct (_ <? _); [|apply slower_refl].
    unfold slower. cbn. repeat split; auto using Rabs_bounce_back, Rle_refl. }
  exact (slower_trans _ _ _ H6 (slower_trans _ _ _ H5 (slower_trans _ _ _ H4
           (slower_trans _ _ _ H3 (slower_trans _ _ _ H2 H1))))).
Qed.

(** X16.  In a domain that is not empty and for a damping coefficient in
    [[0, 1]], the boundary pass of a particle is idempotent on that
    particle (a particle it has put back is inside, and a second pass
    changes neither its position nor its velocity), and it never makes a
    component of the velocity larger in magnitude. *)
Theorem particle_boundary_pass_settles_and_slows (i : nat) (s : ParticleSystem) :
  wf s -> (i < numParticles s)%nat ->
  vx (boundMin (params s)) <= vx (boundMax (params s)) ->
  vy (boundMin (params s)) <= vy (boundMax (params s)) ->
  vz (boundMin (params s)) <= vz (boundMax (params s)) ->
  0 <= damping (params s) <= 1 ->
  particle i (handleBoundaryCollision i (handleBoundaryCollision i s))
  = particle i (handleBoundaryCollision i s)
  /\ slower (vel (particle i (handleBoundaryCollision i s))) (vel (particle i s))
  /\ Vec.length (vel (particle i (handleBoundaryCollision i s)))
     <= Vec.length (vel (particle i s)).
Proof.
  intros Hwf Hi Hx Hy Hz Hd.
  pose proof (handleBoundaryCollision_acts i s Hwf Hi) as H1.
  pose proof (acts_on_params _ _ _ _ H1) as Hp.
  pose proof (acts_on_numParticles _ _ _ _ H1) as Hn.
  pose proof (acts_on_wf _ _ _ _ H1) as Hwf1.
  destruct H1 as (_ & _ & Hq & _).
  set (s1 := handleBoundaryCollision i s) in *.
  pose proof (handleBoundaryCollision_acts i s1 Hwf1 ltac:(lia))
    as (_ & _ & Hq2 & _).
  rewrite Hq2, Hp, Hq.
  split; [|split].
  - apply One_handleBoundaryCollision_inside.
    now apply One_handleBoundaryCollision_in_box.
  - now apply One_handleBoundaryCollision_slower.
  - now apply slower_length, One_handleBoundaryCollision_slower.
Qed.

Lemma particle_boundary_pass_settles_and_slows_witness :
  particle 0 (handleBoundaryCollision 0 (handleBoundaryCollision 0 twoParticles))
  = particle 0 (handleBoundaryCollision 0 twoParticles)
  /\ slower (vel (particle 0 (handleBoundaryCollision 0 twoParticles)))
       (vel (particle 0 twoParticles))
  /\ Vec.length (vel (particle 0 (handleBoundaryCollision 0 twoParticles)))
     <= Vec.length (vel (particle 0 twoParticles)).
Proof.
  apply (particle_boundary_pass_settles_and_slows 0 twoParticles wf_twoParticles);
    cbn; (lia || lra).
Defined.

Lemma same_build_refl b : same_build b b.
Proof. unfold same_build. repeat split; reflexivity. Qed.

Lemma same_build_trans a b c : same_build a b -> same_build b c -> same_build a c.
Proof.
  unfold same_build. intros (?&?&?&?&?&?&?&?) (?&?&?&?&?&?&?&?).
  repeat split; congruence.
Qed.

Lemma same_builds_refl (l : list RigidBody) : Forall2 same_build l l.
Proof. induction l; constructor; auto using same_build_refl. Qed.

Lemma same_builds_trans (l1 l2 l3 : list RigidBody) :
  Forall2 same_build l1 l2 -> Forall2 same_build l2 l3 -> Forall2 same_build l1 l3.
Proof.
  intros H12 H23.
  eapply Forall2_trans; [|exact H12|exact H23].
  intros a b c. apply same_build_trans.
Qed.

Lemma same_builds_insert (l : list RigidBody) i a a' :
  l !! i = Some a -> same_build a a' -> Forall2 same_build l (<[i := a']> l).
Proof.
  intros Hl Ha. rewrite <- (list_insert_id l i a) at 1 by exact Hl.
  apply Forall2_insert; [apply same_builds_refl | exact Ha].
Qed.

Lemma same_builds_alter (f : RigidBody -> RigidBody) (l : list RigidBody) i :
  (forall b, same_build b (f b)) -> Forall2 same_build l (alter f i l).
Proof.
  intros Hf. revert i. induction l as [|a l IH]; intros [|i]; cbn;
    constructor; auto using same_build_refl, same_builds_refl.
Qed.

Lemma collidePair_same_build this other :
  same_build this (fst (collidePair this other))
  /\ same_build other (snd (collidePair this other)).
Proof.
  unfold collidePair. cbv zeta.
  repeat match goal with
  | |- context [if ?c then _ else _] => destruct c
  end; cbn [fst snd]; split; unfold same_build; repeat split; reflexivity.
Qed.

Lemma collideWith_same_builds self k (bodies : list RigidBody) :
  Forall2 same_build bodies (collideWith self k bodies).
Proof.
  unfold collideWith.
  destruct (Nat.eqb_spec k self) as [->|Hne]; [apply same_builds_refl|].
  destruct (bodies !! self) as [this|] eqn:Hs; [|apply same_builds_refl].
  destruct (bodies !! k) as [other|] eqn:Hk; [|apply same_builds_refl].
  destruct (collidePair_same_build this other) as [H1 H2].
  destruct (collidePair this other) as [this' other']. cbn [fst snd] in *.
  eapply same_builds_trans with (<[self := this']> bodies).
  - now apply (same_builds_insert bodies self this).
  - apply (same_builds_insert _ k other); [|exact H2].
    rewrite list_lookup_insert_ne by congruence. exact Hk.
Qed.

Lemma checkObjectCollisions_same_builds self (bodies : list RigidBody) :
  Forall2 same_build bodies (checkObjectCollisions self bodies).
Proof.
  unfold checkObjectCollisions.
  apply (forRange_invariant (Forall2 same_build bodies)).
  - intros k l _ Hl. eapply same_builds_trans; [exact Hl|].
    apply collideWith_same_builds.
  - apply same_builds_refl.
Qed.

Lemma collisionPasses_same_builds (bodies : list RigidBody) :
  Forall2 same_build bodies (collisionPasses bodies).
Proof.
  unfold collisionPasses.
  apply (forRange_invariant (Forall2 same_build bodies));
    [|apply same_builds_refl].
  intros _ l _ Hl. eapply same_builds_trans; [exact Hl|].
  unfold collisionPass.
  apply (forRange_invariant (Forall2 same_build l)); [|apply same_builds_refl].
  intros k l' _ Hl'. eapply same_builds_trans; [exact Hl'|].
  apply checkObjectCollisions_same_builds.
Qed.

Lemma land_same_build t f b : same_build b (land t f b).
Proof.
  unfold land. cbv zeta. destruct (_ >? _); unfold same_build; repeat split; reflexivity.
Qed.

Lemma same_build_setPosition a b p :
  same_build a b -> same_build a (setPosition p b).
Proof. intros H. exact H. Qed.

Lemma same_build_setVelocity a b v :
  same_build a b -> same_build a (setVelocity v b).
Proof. intros H. exact H. Qed.

Lemma same_build_setAngularVelocity a b v :
  same_build a b -> same_build a (setAngularVelocity v b).
Proof. intros H. exact H. Qed.

Lemma same_build_setPhysicalRotation a b e :
  same_build a b -> same_build a (setPhysicalRotation e b).
Proof. intros H. exact H. Qed.

Lemma same_build_land a b t f : same_build a b -> same_build a (land t f b).
Proof. intros H. eapply same_build_trans; [exact H | apply land_same_build]. Qed.

Ltac same_build_steps :=
  cbv zeta;
  unfold setPositionX, setPositionY, setPositionZ, setVelocityX, setVelocityY,
    setVelocityZ, setAngularX, setAngularZ, scaleAngular;
  repeat match goal with
  | |- same_build ?a ?a => apply same_build_refl
  | |- same_build _ (land _ _ _) => apply same_build_land
  | |- same_build _ (setPosition _ _) => apply same_build_setPosition
  | |- same_build _ (setVelocity _ _) => apply same_build_setVelocity
  | |- same_build _ (setAngularVelocity _ _) => apply same_build_setAngularVelocity
  | |- same_build _ (setPhysicalRotation _ _) =>
      apply same_build_setPhysicalRotation
  end.

Section BodyBuild.

Variable applyEuler : Euler -> Vector3 -> Vector3.

Lemma floorRound_same_build r lo b : same_build b (floorRound r lo b).
Proof. unfold floorRound. destruct (_ <? _); same_build_steps. Qed.

Lemma floorCylinder_same_build r lo b : same_build b (floorCylinder r lo b).
Proof.
  unfold floorCylinder. cbv zeta.
  destruct (_ <? _); [destruct (isMovingSlowly _)|]; same_build_steps.
Qed.

Lemma floorBox_same_build e lo b : same_build b (floorBox applyEuler e lo b).
Proof.
  unfold floorBox. cbv zeta.
  destruct (_ <? _); [destruct (isMovingSlowly _); [destruct (_ <? _)|]|];
    same_build_steps.
Qed.

Lemma ceiling_same_build r hi b : same_build b (ceiling r hi b).
Proof. unfold ceiling. destruct (_ >? _); same_build_steps. Qed.

Lemma wallsX_same_build r k lo hi b : same_build b (wallsX r k lo hi b).
Proof.
  unfold wallsX. cbv zeta. destruct (_ >? _); destruct (_ <? _); same_build_steps.
Qed.

Lemma wallsZ_same_build r k lo hi b : same_build b (wallsZ r k lo hi b).
Proof.
  unfold wallsZ. cbv zeta. destruct (_ >? _); destruct (_ <? _); same_build_steps.
Qed.

Lemma boundaryHandling_same_build lo hi b :
  same_build b (boundaryHandling applyEuler lo hi b).
Proof.
  unfold boundaryHandling. cbv zeta.
  repeat match goal with
  | |- same_build _ (if ?c then _ else _) => destruct c
  | |- same_build _ (wallsZ _ _ _ _ _) =>
      eapply same_build_trans; [|apply wallsZ_same_build]
  | |- same_build _ (wallsX _ _ _ _ _) =>
      eapply same_build_trans; [|apply wallsX_same_build]
  | |- same_build _ (ceiling _ _ _) =>
      eapply same_build_trans; [|apply ceiling_same_build]
  | |- same_build _ (floorRound _ _ _) => apply floorRound_same_build
  | |- same_build _ (floorCylinder _ _ _) => apply floorCylinder_same_build
  | |- same_build _ (floorBox _ _ _ _) => apply floorBox_same_build
  end.
Qed.

Lemma update_same_builds self dt gravity lo hi damping fluidDensity
    (bodies : list RigidBody) :
  Forall2 same_build bodies
    (update applyEuler self dt gravity lo hi damping fluidDensity bodies).
Proof.
  unfold update. cbv zeta.
  set (l1 := alter _ self bodies).
  assert (H1 : Forall2 same_build bodies l1).
  { apply same_builds_alter. intros b.
    unfold moveBody, applyDrag, applyBuoyancy. same_build_steps. }
  eapply same_builds_trans; [exact H1|].
  eapply same_builds_trans; [apply checkObjectCollisions_same_builds|].
  apply same_builds_alter. intros b.
  eapply same_build_trans; [|apply boundaryHandling_same_build].
  unfold spin. same_build_steps.
Qed.

End BodyBuild.

Lemma updateParticles_rigidBodies dt w :
  rigidBodies (updateParticles dt w) = rigidBodies w.
Proof.
  unfold updateParticles, integrate. cbv zeta.
  set (w2 := onParticles computeForces (onParticles computeDensity w)).
  change (rigidBodies w) with (rigidBodies w2).
  apply (forRange_invariant (fun w' => rigidBodies w' = rigidBodies w2));
    [|reflexivity].
  intros i w' _ Hw'. unfold integrateAt. cbv zeta.
  destruct (_ <? 1); [exact Hw'|].
  destruct (handleRigidBodyCollisions_frame i
              (onParticles (handleBoundaryCollision i)
                 (onParticles (eulerStep dt i) w'))) as [-> _].
  exact Hw'.
Qed.

Lemma animate_same_builds applyEuler objectGravity w :
  Forall2 same_build (rigidBodies w)
    (rigidBodies (animate applyEuler objectGravity w)).
Proof.
  unfold animate. cbv zeta. rewrite updateParticles_rigidBodies.
  cbn [rigidBodies particleSystem].
  eapply same_builds_trans; [|apply collisionPasses_same_builds].
  unfold updateBodies.
  apply (forRange_invariant (Forall2 same_build (rigidBodies w)));
    [|apply same_builds_refl].
  intros k l _ Hl. eapply same_builds_trans; [exact Hl|].
  apply update_same_builds.
Qed.

(** X17.  A frame changes how the bodies move, never what they are: after
    [animate] the list holds as many bodies as before and each one has the
    type, size, base size, scale, user rotation and density it had. *)
Theorem frame_keeps_the_build_of_every_body
    (applyEuler : Euler -> Vector3 -> Vector3) (objectGravity : R) (w : World) :
  Forall2 same_build (rigidBodies w)
    (rigidBodies (animate applyEuler objectGravity w))
  /\ length (rigidBodies (animate applyEuler objectGravity w))
     = length (rigidBodies w).
Proof.
  split; [apply animate_same_builds|].
  symmetry. eapply Forall2_length, animate_same_builds.
Qed.

Lemma initParticle_acts random c i s :
  wf s -> (i < numParticles s)%nat ->
  acts_on i (fun _ => initialParticle random c i) s (initParticle random c i s).
Proof.
  intros Hwf Hi. unfold initParticle, initialParticle. acts_on_start.
  acts_on_finish.
Qed.

Lemma initParticle_prefix random c s n :
  wf s -> (n <= numParticles s)%nat ->
  let s' := forRange n (initParticle random c) s in
  wf s' /\ same_fields s s'
  /\ (forall i, (i < n)%nat -> particle i s' = initialParticle random c i)
  /\ (forall i, (n <= i)%nat -> particle i s' = particle i s).
Proof.
  intros Hwf. induction n as [|n IH]; intros Hn; cbv zeta.
  - unfold forRange. cbn [seq fold_left].
    split; [exact Hwf|]. split; [apply same_fields_refl|].
    split; [intros i Hi; lia | reflexivity].
  - rewrite forRange_S. destruct (IH ltac:(lia)) as (Hwf' & Hsf & Hlo & Hhi).
    set (s' := forRange n (initParticle random c) s) in *.
    assert (Hn' : (n < numParticles s')%nat)
      by (rewrite (same_numParticles _ _ Hsf); lia).
    destruct (initParticle_acts random c n s' Hwf' Hn') as (Hwf2 & Hsf2 & Hq & Ho).
    split; [exact Hwf2|]. split; [eapply same_fields_trans; eassumption|].
    split.
    + intros i Hi. destruct (decide (i = n)) as [->|Hne]; [exact Hq|].
      rewrite Ho by exact Hne. apply Hlo. lia.
    + intros i Hi. rewrite Ho by lia. apply Hhi. lia.
Qed.

Lemma initParticleArrays_spec random s :
  let s' := initParticleArrays random s in
  wf s' /\ numParticles s' = numParticles s /\ params s' = params s
  /\ densities s' = replicate (numParticles s) 0
  /\ pressures s' = replicate (numParticles s) 0
  /\ forces s' = replicate (numParticles s * 3) 0
  /\ forall i, (i < numParticles s)%nat ->
       particle i s' = initialParticle random (cubeSize (numParticles s)) i.
Proof.
  unfold initParticleArrays. cbv zeta.
  set (s0 := mkParticleSystem _ _ _ _ _ _ _).
  assert (Hwf0 : wf s0) by (split; cbn; apply length_replicate).
  destruct (initParticle_prefix random (cubeSize (numParticles s)) s0
              (numParticles s) Hwf0 (le_n _)) as (Hwf & Hsf & Hlo & _).
  destruct Hsf as [Hn Hp Hd Hpr Hf].
  split; [exact Hwf|]. split; [exact Hn|]. split; [exact Hp|].
  split; [exact Hd|]. split; [exact Hpr|]. split; [exact Hf|]. exact Hlo.
Qed.

Lemma jsCeil_above (x : R) : x <= IZR (jsCeil x).
Proof.
  unfold jsCeil. rewrite opp_IZR.
  destruct (base_Int_part (- x)) as [H _]. lra.
Qed.

Lemma cubeRoot_pos (n : nat) : (0 < n)%nat -> 0 < cubeRoot n.
Proof.
  intros Hn. unfold cubeRoot.
  assert (H : 0 < INR n) by (apply lt_0_INR; exact Hn).
  rewrite (proj2 (Reqb_false _ _)) by lra. unfold Rpower. apply exp_pos.
Qed.

Lemma cubeRoot_cubed (n : nat) :
  (0 < n)%nat -> cubeRoot n * cubeRoot n * cubeRoot n = INR n.
Proof.
  intros Hn. unfold cubeRoot.
  assert (H : 0 < INR n) by (apply lt_0_INR; exact Hn).
  rewrite (proj2 (Reqb_false _ _)) by lra.
  rewrite <- !Rpower_plus.
  replace (1 / 3 + 1 / 3 + 1 / 3) with 1 by field.
  now apply Rpower_1.
Qed.

Lemma INR_cubeSize (n : nat) :
  (0 < n)%nat -> cubeRoot n <= INR (cubeSize n).
Proof.
  intros Hn. unfold cubeSize.
  pose proof (jsCeil_above (cubeRoot n)) as Hc.
  pose proof (cubeRoot_pos n Hn) as Hp.
  assert (Hz : (0 <= jsCeil (cubeRoot n))%Z).
  { apply le_IZR. lra. }
  rewrite INR_IZR_INZ, Z2Nat.id by exact Hz. exact Hc.
Qed.

Lemma cubeSize_pos (n : nat) : (0 < n)%nat -> (0 < cubeSize n)%nat.
Proof.
  intros Hn. apply INR_lt. cbn [INR].
  pose proof (INR_cubeSize n Hn). pose proof (cubeRoot_pos n Hn). lra.
Qed.

Lemma cubeSize_holds_all (n : nat) :
  (n <= cubeSize n * cubeSize n * cubeSize n)%nat.
Proof.
  destruct n as [|n]; [lia|].
  assert (Hn : (0 < S n)%nat) by lia.
  apply INR_le. rewrite !mult_INR, <- (cubeRoot_cubed (S n) Hn).
  pose proof (INR_cubeSize (S n) Hn) as Hc.
  pose proof (cubeRoot_pos (S n) Hn) as Hp.
  set (x := cubeRoot (S n)) in *. set (c := INR (cubeSize (S n))) in *.
  apply Rmult_le_compat; try lra.
  - apply Rmult_le_pos; lra.
  - apply Rmult_le_compat; lra.
Qed.

Lemma lattice_index_inj (c i j : nat) :
  (i mod c = j mod c)%nat ->
  ((i mod (c * c)) / c = (j mod (c * c)) / c)%nat ->
  (i / (c * c) = j / (c * c))%nat ->
  i = j.
Proof.
  intros H1 H2 H3.
  assert (Hm : forall a, ((a mod (c * c)) mod c = a mod c)%nat).
  { intros a. rewrite Nat.Div0.mod_mul_r.
    rewrite (Nat.mul_comm c), Nat.Div0.mod_add. apply Nat.Div0.mod_mod. }
  pose proof (Nat.div_mod_eq i (c * c)) as Ei.
  pose proof (Nat.div_mod_eq j (c * c)) as Ej.
  pose proof (Nat.div_mod_eq (i mod (c * c)) c) as Fi.
  pose proof (Nat.div_mod_eq (j mod (c * c)) c) as Fj.
  rewrite Hm in Fi, Fj. rewrite Ei, Ej, Fi, Fj, H1, H2, H3. reflexivity.
Qed.

Lemma INR_apart (a b : nat) : a <> b -> 1 <= Rabs (INR a - INR b).
Proof.
  intros Hab. destruct (Nat.lt_total a b) as [H|[H|H]]; [|contradiction|].
  - assert (H' : INR (S a) <= INR b) by (apply le_INR; lia).
    rewrite S_INR in H'. rewrite Rabs_left; lra.
  - assert (H' : INR (S b) <= INR a) by (apply le_INR; lia).
    rewrite S_INR in H'. rewrite Rabs_right; lra.
Qed.

(** X18.  [initParticleArrays], and with it the constructor and [reset],
    leaves a well-formed particle system whatever the arrays were before:
    the five arrays have the sizes the particle count asks for, the count
    and the parameters are kept, the densities, pressures and forces are
    zero, and the lattice of [cubeSize]^3 points has room for every
    particle. *)
Theorem initParticleArrays_restores_the_arrays
    (random : nat -> R) (s : ParticleSystem) :
  wf (initParticleArrays random s)
  /\ numParticles (initParticleArrays random s) = numParticles s
  /\ params (initParticleArrays random s) = params s
  /\ densities (initParticleArrays random s) = replicate (numParticles s) 0
  /\ pressures (initParticleArrays random s) = replicate (numParticles s) 0
  /\ forces (initParticleArrays random s) = replicate (numParticles s * 3) 0
  /\ (numParticles s
      <= cubeSize (numParticles s) * cubeSize (numParticles s)
         * cubeSize (numParticles s))%nat.
Proof.
  destruct (initParticleArrays_spec random s) as (H1 & H2 & H3 & H4 & H5 & H6 & _).
  repeat (split; [assumption|]). apply cubeSize_holds_all.
Qed.

(** X19.  With [Math.random] in [[0, 1)], particle [i] starts within 0.05
    of its lattice point on every axis, hence no lower than 4.95; its three
    lattice indices are below [cubeSize]; its vertical velocity is zero and
    its horizontal velocity components are at most 0.25 in magnitude. *)
Theorem initial_particles_sit_on_a_jittered_lattice
    (random : nat -> R) (s : ParticleSystem) (i : nat) :
  (forall k, 0 <= random k < 1) ->
  (i < numParticles s)%nat ->
  let c := cubeSize (numParticles s) in
  let q := particle i (initParticleArrays random s) in
  ((i mod c < c)%nat /\ ((i mod (c * c)) / c < c)%nat /\ (i / (c * c) < c)%nat)
  /\ Rabs (vx (pos q) - vx (latticePoint c i)) <= 5 / 100
  /\ Rabs (vy (pos q) - vy (latticePoint c i)) <= 5 / 100
  /\ Rabs (vz (pos q) - vz (latticePoint c i)) <= 5 / 100
  /\ 495 / 100 <= vy (pos q)
  /\ vy (vel q) = 0
  /\ Rabs (vx (vel q)) <= 1 / 4 /\ Rabs (vz (vel q)) <= 1 / 4.
Proof.
  intros Hr Hi c q.
  destruct (initParticleArrays_spec random s) as (_ & _ & _ & _ & _ & _ & Hq).
  unfold q. rewrite (Hq i Hi). fold c. clear q Hq.
  assert (Hc : (0 < c)%nat) by (apply cubeSize_pos; lia).
  pose proof (cubeSize_holds_all (numParticles s)) as Hall. fold c in Hall.
  split.
  - split; [apply Nat.mod_upper_bound; lia|].
    split; apply Nat.Div0.div_lt_upper_bound.
    + apply Nat.mod_upper_bound. lia.
    + lia.
  - unfold initialParticle. cbv zeta. cbn [pos vel vx vy vz].
    pose proof (Hr (5 * i)%nat). pose proof (Hr (5 * i + 1)%nat).
    pose proof (Hr (5 * i + 2)%nat). pose proof (Hr (5 * i + 3)%nat).
    pose proof (Hr (5 * i + 4)%nat).
    assert (Hy : 5 <= vy (latticePoint c i)).
    { unfold latticePoint, spacing. cbn [vy].
      pose proof (pos_INR (i / (c * c))). lra. }
    repeat split; try reflexivity; try apply Rabs_le; lra.
Qed.

Lemma initial_particles_sit_on_a_jittered_lattice_witness :
  vy (vel (particle 1 (initParticleArrays (fun _ => 1 / 2) twoParticles))) = 0.
Proof.
  apply (initial_particles_sit_on_a_jittered_lattice (fun _ => 1 / 2)
           twoParticles 1).
  - intros _. lra.
  - cbn. lia.
Defined.

(** X20.  With [Math.random] in [[0, 1)], no two particles start at the
    same place: two different particles are at least 0.2 apart. *)
Theorem initial_particles_are_apart
    (random : nat -> R) (s : ParticleSystem) (i j : nat) :
  (forall k, 0 <= random k < 1) ->
  (i < numParticles s)%nat -> (j < numParticles s)%nat -> i <> j ->
  2 / 10 <= separation (initParticleArrays random s) i j.
Proof.
  intros Hr Hi Hj Hij.
  destruct (initParticleArrays_spec random s) as (_ & _ & _ & _ & _ & _ & Hq).
  pose proof (Hq i Hi) as Qi. pose proof (Hq j Hj) as Qj.
  set (s' := initParticleArrays random s) in *.
  set (c := cubeSize (numParticles s)) in *.
  assert (Hsep : separation s' i j
                 = Vec.length (Vec.sub (pos (particle i s')) (pos (particle j s'))))
    by reflexivity.
  rewrite Hsep, Qi, Qj. clear Hsep Qi Qj Hq.
  unfold initialParticle. cbv zeta. cbn [pos].
  unfold Vec.length, Vec.sub. cbn [vx vy vz].
  pose proof (Hr (5 * i)%nat). pose proof (Hr (5 * i + 1)%nat).
  pose proof (Hr (5 * i + 2)%nat). pose proof (Hr (5 * j)%nat).
  pose proof (Hr (5 * j + 1)%nat). pose proof (Hr (5 * j + 2)%nat).
  assert (Hstep : forall a b u v : R,
            1 <= Rabs (a - b) -> 0 <= u < 1 -> 0 <= v < 1 ->
            2 / 10 <= Rabs (a * spacing + (u - 5 / 10) * (1 / 10)
                            - (b * spacing + (v - 5 / 10) * (1 / 10)))).
  { intros a b u v Hab Hu Hv. unfold spacing.
    unfold Rabs in *. destruct (Rcase_abs (a - b)); destruct (Rcase_abs _); lra. }
  destruct (decide (i mod c = j mod c)%nat) as [E1|N1];
    [destruct (decide ((i mod (c * c)) / c = (j mod (c * c)) / c)%nat) as [E2|N2];
     [destruct (decide (i / (c * c) = j / (c * c))%nat) as [E3|N3]|]|].
  - exfalso. apply Hij. now apply (lattice_index_inj c).
  - eapply Rle_trans; [|apply abs_le_norm_y].
    unfold latticePoint. cbv zeta. cbn [vy].
    pose proof (Hstep _ _ (random (5 * i + 1)%nat) (random (5 * j + 1)%nat)
                  (INR_apart _ _ N3) ltac:(assumption) ltac:(assumption)) as Hs.
    eapply Rle_trans; [exact Hs|]. apply Req_le. f_equal. ring.
  - eapply Rle_trans; [|apply abs_le_norm_z].
    unfold latticePoint. cbv zeta. cbn [vz].
    pose proof (Hstep _ _ (random (5 * i + 2)%nat) (random (5 * j + 2)%nat)
                  (INR_apart _ _ N2) ltac:(assumption) ltac:(assumption)) as Hs.
    eapply Rle_trans; [exact Hs|]. apply Req_le. f_equal. ring.
  - eapply Rle_trans; [|apply abs_le_norm_x].
    unfold latticePoint. cbv zeta. cbn [vx].
    pose proof (Hstep _ _ (random (5 * i)%nat) (random (5 * j)%nat)
                  (INR_apart _ _ N1) ltac:(assumption) ltac:(assumption)) as Hs.
    eapply Rle_trans; [exact Hs|]. apply Req_le. f_equal. ring.
Qed.

Lemma initial_particles_are_apart_witness :
  2 / 10 <= separation (initParticleArrays (fun _ => 1 / 2) twoParticles) 0 1.
Proof.
  apply (initial_particles_are_apart (fun _ => 1 / 2) twoParticles 0 1).
  - intros _. lra.
  - cbn. lia.
  - cbn. lia.
  - lia.
Defined.

Lemma tracked_sparseSimulator : tracked sparseSimulator.
Proof.
  split; [reflexivity|]. split.
  - apply NoDup_singleton.
  - repeat constructor.
Qed.

Lemma length_applyParam param value sim :
  length (rigidBodies (world (applyParamToSelectedObject param value sim)))
  = length (rigidBodies (world sim)).
Proof.
  unfold applyParamToSelectedObject. cbv zeta. cbn [world rigidBodies].
  destruct (selectedObjectIndex sim) as [sel|]; [|apply length_map].
  destruct (findId sel (ids sim)); [apply length_alter | reflexivity].
Qed.

(** X21.  The ids of the live bodies stay in step with the list of bodies,
    pairwise different and not above the counter through every object
    method: dropping a body (whose id is new), clearing the objects,
    resetting the simulation, moving an object slider and setting the
    density. *)
Theorem object_ids_stay_distinct
    (sim : Simulator) (r1 r2 : R) (t : BodyType) (param : ObjectParam)
    (value d : R) (random : nat -> R) (n : nat) :
  tracked sim ->
  tracked (dropRigidBody r1 r2 t sim)
  /\ ~ In (objectCounter (dropRigidBody r1 r2 t sim)) (ids sim)
  /\ tracked (clearObjects sim)
  /\ tracked (reset random n sim)
  /\ tracked (objectSliderInput param value sim)
  /\ tracked (setObjectDensity d sim).
Proof.
  intros (Hlen & Hnd & Hle).
  assert (Hnew : S (objectCounter sim) ∉ ids sim).
  { intros Hin. rewrite Forall_forall in Hle. specialize (Hle _ Hin). lia. }
  split; [|split; [now rewrite <- list_elem_of_In|]].
  - unfold tracked, dropRigidBody. cbn [ids world rigidBodies objectCounter].
    split; [rewrite !length_app, Hlen; reflexivity|]. split.
    + apply NoDup_app. split; [exact Hnd|]. split; [|apply NoDup_singleton].
      intros x Hx Hx'. apply list_elem_of_singleton in Hx'. subst x. now apply Hnew.
    + apply Forall_app. split; [|repeat constructor].
      eapply Forall_impl; [exact Hle|]. cbn. intros; lia.
  - split; [|split; [|split]].
    + split; [reflexivity|]. split; [apply NoDup_nil_2 | constructor].
    + split; [reflexivity|]. split; [apply NoDup_nil_2 | constructor].
    + unfold objectSliderInput. cbv zeta.
      split; [|split; [exact Hnd | exact Hle]].
      rewrite length_applyParam. exact Hlen.
    + split; [|split; [exact Hnd | exact Hle]].
      cbn [setObjectDensity ids world rigidBodies]. now rewrite length_map.
Qed.

Lemma object_ids_stay_distinct_witness :
  tracked (dropRigidBody (1 / 2) (1 / 2) cube sparseSimulator)
  /\ ~ In (objectCounter (dropRigidBody (1 / 2) (1 / 2) cube sparseSimulator))
          (ids sparseSimulator).
Proof.
  destruct (object_ids_stay_distinct sparseSimulator (1 / 2) (1 / 2) cube
              param_scale 1 1 (fun _ => 1 / 2) 2 tracked_sparseSimulator)
    as (H1 & H2 & _).
  split; assumption.
Defined.

Lemma orElse_nonzero (x d : R) : d <> 0 -> orElse x d <> 0.
Proof.
  intros Hd. unfold orElse. destruct (x =? 0) eqn:E; [exact Hd|].
  now apply Reqb_false in E.
Qed.

(** X22.  Whatever the object sliders hold, a dropped body has a scale and
    a density that are not zero (a zero on a slider gives scale 1 and
    density 2700), and a size that is its base size times its scale.  With
    [Math.random] in [[0, 1)] it starts at rest at height 10, less than 2
    from the vertical axis of the domain on both horizontal axes, and the
    bodies that were there are as they were. *)
Theorem dropped_body_is_sound
    (r1 r2 : R) (t : BodyType) (sim : Simulator) :
  0 <= r1 < 1 -> 0 <= r2 < 1 ->
  exists b,
    rigidBodies (world (dropRigidBody r1 r2 t sim))
    = rigidBodies (world sim) ++ [b]
    /\ type b = t /\ baseSize b = dropSize t
    /\ scale b <> 0 /\ density b <> 0 /\ scaled b
    /\ velocity b = Vec.zero /\ angularVelocity b = Vec.zero
    /\ vy (position b) = 10
    /\ -2 <= vx (position b) < 2 /\ -2 <= vz (position b) < 2.
Proof.
  intros H1 H2. exists (droppedBody r1 r2 t (objectParams sim)).
  split; [reflexivity|]. split; [reflexivity|]. split; [reflexivity|].
  split; [apply orElse_nonzero; lra|].
  split; [apply orElse_nonzero; lra|].
  split; [reflexivity|]. split; [reflexivity|]. split; [reflexivity|].
  cbn. repeat split; lra.
Qed.

Lemma dropped_body_is_sound_witness :
  exists b,
    rigidBodies (world (dropRigidBody (1 / 2) (1 / 4) boat sparseSimulator))
    = rigidBodies (world sparseSimulator) ++ [b]
    /\ type b = boat /\ baseSize b = dropSize boat
    /\ scale b <> 0 /\ density b <> 0 /\ scaled b
    /\ velocity b = Vec.zero /\ angularVelocity b = Vec.zero
    /\ vy (position b) = 10
    /\ -2 <= vx (position b) < 2 /\ -2 <= vz (position b) < 2.
Proof.
  apply (dropped_body_is_sound (1 / 2) (1 / 4) boat sparseSimulator); lra.
Defined.

Lemma same_build_scaled a b : same_build a b -> scaled a -> scaled b.
Proof.
  unfold scaled. intros (_ & Hs & Hb & Hk & _) Ha. now rewrite Hs, Hb, Hk.
Qed.

Lemma same_builds_scaled (l l' : list RigidBody) :
  Forall2 same_build l l' -> Forall scaled l -> Forall scaled l'.
Proof.
  induction 1 as [|a b l l' Hab _ IH]; intros Hl; [constructor|].
  inversion Hl; subst. constructor; [eapply same_build_scaled; eassumption|].
  now apply IH.
Qed.

Lemma applySingleParam_scaled op param value b :
  scaled b -> scaled (applySingleParam op param value b).
Proof. intros Hb. destruct param; cbn; first [exact Hb | reflexivity]. Qed.

(** X23.  That the physics size of a body is its base size times its scale
    is an invariant of the simulation: the constructor and every
    [setScale] establish it, the object sliders, [setRotation] and
    [setDensity] keep it, and so does a whole frame, for every body of the
    list.  A change of scale is not cumulative: the last one alone
    counts. *)
Theorem size_is_base_size_times_scale
    (applyEuler : Euler -> Vector3 -> Vector3) (objectGravity : R) (w : World)
    (sim : Simulator) (param : ObjectParam) (value k1 k2 d : R) (b : RigidBody) :
  Forall scaled (rigidBodies w) ->
  Forall scaled (rigidBodies (world sim)) ->
  Forall scaled (rigidBodies (animate applyEuler objectGravity w))
  /\ Forall scaled (rigidBodies (world (objectSliderInput param value sim)))
  /\ Forall scaled (rigidBodies (world (setObjectDensity d sim)))
  /\ scaled (setScale k1 b)
  /\ setScale k2 (setScale k1 b) = setScale k2 b.
Proof.
  intros Hw Hsim. split; [|split; [|split; [|split; reflexivity]]].
  - eapply same_builds_scaled; [|exact Hw].
    apply animate_same_builds.
  - unfold objectSliderInput, applyParamToSelectedObject. cbv zeta.
    cbn [world rigidBodies selectedObjectIndex ids objectParams].
    set (f := applySingleParam _ param value).
    assert (Hf : forall x, scaled x -> scaled (f x))
      by (intros x; apply applySingleParam_scaled).
    destruct (selectedObjectIndex sim) as [sel|].
    + destruct (findId sel (ids sim)) as [k|]; [|exact Hsim].
      apply Forall_alter; [exact Hsim|]. intros x _. apply Hf.
    + apply Forall_fmap. eapply Forall_impl; [exact Hsim|]. exact Hf.
  - cbn [setObjectDensity world rigidBodies].
    apply Forall_fmap. eapply Forall_impl; [exact Hsim|]. intros x Hx. exact Hx.
Qed.

Lemma size_is_base_size_times_scale_witness :
  Forall scaled (rigidBodies (animate noRotation (- (98 / 10)) sparseWorld)).
Proof.
  apply (size_is_base_size_times_scale noRotation (- (98 / 10)) sparseWorld
           sparseSimulator param_scale 2 1 2 1000
           (droppedSphere (mkVector3 0 10 0)));
    repeat constructor.
Defined.

Lemma findId_lookup sel l k : findId sel l = Some k -> l !! k = Some sel.
Proof.
  revert k. induction l as [|x l IH]; intros k; cbn; [discriminate|].
  destruct (Nat.eqb_spec x sel) as [->|Hne].
  - intros [= <-]. reflexivity.
  - destruct (findId sel l) as [j|]; cbn; [|discriminate].
    intros [= <-]. cbn. now apply IH.
Qed.

Lemma findId_present sel l k : l !! k = Some sel -> findId sel l <> None.
Proof.
  revert k. induction l as [|x l IH]; intros [|k]; cbn; try discriminate.
  - intros [= ->]. now rewrite Nat.eqb_refl.
  - intros Hk. destruct (Nat.eqb x sel); [discriminate|].
    specialize (IH k Hk). destruct (findId sel l); [discriminate | contradiction].
Qed.

(** X24.  With one object selected, a slider acts on the body that carries
    the selected id and on no other body of the list; the gravity slider
    changes no body at all, whatever is selected. *)
Theorem slider_changes_the_selected_object_only
    (param : ObjectParam) (value : R) (sim : Simulator) (sel k : nat) :
  tracked sim ->
  selectedObjectIndex sim = Some sel ->
  (ids sim !! k = Some sel ->
   rigidBodies (world (applyParamToSelectedObject param value sim)) !! k
   = applySingleParam (objectParams sim) param value
     <$> rigidBodies (world sim) !! k)
  /\ (ids sim !! k <> Some sel ->
      rigidBodies (world (applyParamToSelectedObject param value sim)) !! k
      = rigidBodies (world sim) !! k)
  /\ rigidBodies (world (applyParamToSelectedObject param_gravity value sim))
     = rigidBodies (world sim).
Proof.
  intros (_ & Hnd & _) Hsel.
  unfold applyParamToSelectedObject. cbv zeta. cbn [world rigidBodies].
  rewrite Hsel. split; [|split].
  - intros Hk. pose proof (findId_present sel (ids sim) k Hk) as Hp.
    destruct (findId sel (ids sim)) as [j|] eqn:Ej; [|contradiction].
    apply findId_lookup in Ej.
    assert (j = k) by (eapply NoDup_lookup; eassumption). subst j.
    apply list_lookup_alter_eq.
  - intros Hk. destruct (findId sel (ids sim)) as [j|] eqn:Ej; [|reflexivity].
    apply findId_lookup in Ej.
    apply list_lookup_alter_ne. intros ->. contradiction.
  - destruct (findId sel (ids sim)) as [j|]; [|reflexivity].
    apply list_alter_id. reflexivity.
Qed.

Lemma slider_changes_the_selected_object_only_witness :
  rigidBodies (world (applyParamToSelectedObject param_scale 2 selectingSimulator))
    !! 0%nat
  = Some (setScale 2 (droppedSphere (mkVector3 0 10 0))).
Proof.
  refine (proj1 (slider_changes_the_selected_object_only param_scale 2
                   selectingSimulator 1 0 _ _) _).
  - split; [reflexivity|]. split; [apply NoDup_singleton | repeat constructor].
  - reflexivity.
  - reflexivity.
Defined.

(** X25.  For a scale that is not negative the collision radius of a body
    is proportional to its scale, whatever its type. *)
Theorem collision_radius_is_proportional_to_scale (k : R) (b : RigidBody) :
  0 <= k ->
  collisionRadius (setScale k b) = k * collisionRadius (setScale 1 b).
Proof.
  intros Hk. unfold collisionRadius. cbn [type size setScale].
  destruct (isRoundType (type b)); [cbn; ring|].
  destruct (isCylinderType (type b)); [cbn; ring|].
  rewrite (length_scale _ k Hk), (length_scale _ 1) by lra. ring.
Qed.

Lemma collision_radius_is_proportional_to_scale_witness :
  collisionRadius (setScale 2 droppedCube)
  = 2 * collisionRadius (setScale 1 droppedCube).
Proof.
  apply (collision_radius_is_proportional_to_scale 2 droppedCube). lra.
Defined.

Lemma clamp_between (lo hi x : R) : lo <= hi -> lo <= Rmax lo (Rmin hi x) <= hi.
Proof.
  intros H. split; [apply Rmax_l|].
  apply Rmax_lub; [exact H | apply Rmin_l].
Qed.

Lemma framed_initialControls : framed initialControls.
Proof.
  pose proof PI_bounds. unfold framed, initialControls. cbn. lra.
Qed.

(** [updateCameraPosition] puts a framed camera on its orbit. *)
Lemma updateCameraPosition_onOrbit (c : Controls) :
  framed c -> onOrbit (updateCameraPosition c).
Proof.
  intros [Hphi Hd]. pose proof PI_bounds as HPI.
  pose proof (sin2_cos2 (phi c)) as Hp. pose proof (sin2_cos2 (theta c)) as Ht.
  unfold Rsqr in Hp, Ht.
  assert (Hsin : 0 < sin (phi c)) by (apply sin_gt_0; lra).
  unfold onOrbit, updateCameraPosition. cbv zeta.
  cbn [cameraPosition cameraDistance].
  set (d := cameraDistance c) in *. set (sp := sin (phi c)) in *.
  set (cp := cos (phi c)) in *. set (st := sin (theta c)) in *.
  set (ct := cos (theta c)) in *.
  split.
  - unfold Vec.length, Vec.sub, lookAtPoint. cbn [vx vy vz].
    replace ((d * sp * ct - 0) * (d * sp * ct - 0)
             + (d * cp + 3 - 3) * (d * cp + 3 - 3)
             + (d * sp * st - 0) * (d * sp * st - 0))
      with (d * d * (sp * sp * (st * st + ct * ct) + cp * cp)) by ring.
    rewrite Ht, Rmult_1_r, Hp, Rmult_1_r. apply sqrt_sqr_pos. lra.
  - cbn [vx vz].
    replace (d * sp * ct * (d * sp * ct) + d * sp * st * (d * sp * st))
      with ((d * sp) * (d * sp) * (st * st + ct * ct)) by ring.
    rewrite Ht, Rmult_1_r.
    assert (0 < d * sp) by (apply Rmult_lt_0_compat; lra).
    apply Rmult_lt_0_compat; assumption.
Qed.

(** The camera [init] places is not on the orbit of the controls: it is
    [sqrt 499] from the point it looks at, and the distance of the controls
    is 25. *)
Lemma initialControls_off_orbit : ~ onOrbit initialControls.
Proof.
  intros [H _]. unfold initialControls, lookAtPoint, Vec.length, Vec.sub in H.
  cbn [cameraPosition cameraDistance vx vy vz] in H.
  assert (Hsq : sqrt ((15 - 0) * (15 - 0) + (10 - 3) * (10 - 3)
                      + (15 - 0) * (15 - 0))
                * sqrt ((15 - 0) * (15 - 0) + (10 - 3) * (10 - 3)
                        + (15 - 0) * (15 - 0)) = 499).
  { rewrite sqrt_sqrt; lra. }
  rewrite H in Hsq. lra.
Qed.

(** X26.  The orbit controls keep the camera framed: from the initial
    state, and through every mouse and wheel event, the polar angle stays
    within [[0.1, pi - 0.1]] and the distance within [[5, 50]].  Pressing
    and releasing the mouse button, and a move without dragging, leave the
    camera where it is.  A drag move and a wheel event put it on its
    orbit: at the distance of the controls from the point it looks at and
    not on the vertical line through that point.  The camera [init] has
    placed is not on that orbit. *)
Theorem orbit_controls_keep_the_camera_framed
    (c : Controls) (x y deltaY : R) :
  framed c ->
  (framed (mousedown x y c) /\ framed (mousemove x y c) /\ framed (mouseup c)
   /\ framed (wheel deltaY c))
  /\ cameraPosition (mousedown x y c) = cameraPosition c
  /\ cameraPosition (mouseup c) = cameraPosition c
  /\ (isDragging c = false -> mousemove x y c = c)
  /\ (isDragging c = true -> onOrbit (mousemove x y c))
  /\ onOrbit (wheel deltaY c)
  /\ ~ onOrbit initialControls.
Proof.
  intros [Hphi Hd]. pose proof PI_bounds as HPI.
  assert (Hmove : framed
            (mkControls (isDragging c) (previousMousePosition c)
               (theta c - (x - fst (previousMousePosition c)) * (5 / 1000))
               (Rmax (1 / 10)
                  (Rmin (PI - 1 / 10)
                     (phi c - (y - snd (previousMousePosition c)) * (5 / 1000))))
               (cameraDistance c) (cameraPosition c))).
  { split; [|exact Hd]. cbn. apply clamp_between. lra. }
  assert (Hwheel : framed
            (mkControls (isDragging c) (previousMousePosition c) (theta c)
               (phi c) (Rmax 5 (Rmin 50 (cameraDistance c + deltaY * (1 / 100))))
               (cameraPosition c))).
  { split; [exact Hphi|]. cbn. apply clamp_between. lra. }
  split; [|split; [reflexivity|]; split; [reflexivity|]; split; [|split; [|split]]].
  - split; [split; assumption|].
    split; [|split; [split; assumption | exact Hwheel]].
    unfold mousemove. destruct (isDragging c); [exact Hmove | split; assumption].
  - intros E. unfold mousemove. now rewrite E.
  - intros E. unfold mousemove. rewrite E. cbv zeta.
    exact (updateCameraPosition_onOrbit _ Hmove).
  - exact (updateCameraPosition_onOrbit _ Hwheel).
  - exact initialControls_off_orbit.
Qed.

(** After the first turn of the wheel the camera is on its orbit. *)
Lemma orbit_controls_keep_the_camera_framed_witness :
  onOrbit (wheel 120 initialControls).
Proof.
  apply (orbit_controls_keep_the_camera_framed initialControls 0 0 120).
  exact framed_initialControls.
Defined.

Lemma brightness_range (speed : R) :
  0 <= speed -> 6 / 10 <= brightness speed <= 1.
Proof.
  intros Hs. unfold brightness. cbv zeta.
  pose proof (Rmin_r (speed / 10) 1).
  assert (0 <= Rmin (speed / 10) 1) by (apply Rmin_glb; lra).
  lra.
Qed.

Lemma updateColors_prefix color s n : forall colors,
  length colors = (numParticles s * 3)%nat -> (n <= numParticles s)%nat ->
  let colors' := forRange n (updateColorAt color s) colors in
  length colors' = length colors
  /\ (forall i, (i < n)%nat -> colorAt i colors' = colorOf color s i)
  /\ (forall i, (n <= i)%nat -> colorAt i colors' = colorAt i colors).
Proof.
  intros colors Hlen. induction n as [|n IH]; intros Hn; cbv zeta.
  - unfold forRange. cbn [seq fold_left].
    split; [reflexivity|]. split; [intros i Hi; lia | reflexivity].
  - rewrite forRange_S. destruct (IH ltac:(lia)) as (Hl & Hlo & Hhi).
    set (cs := forRange n (updateColorAt color s) colors) in *.
    unfold updateColorAt. cbv zeta.
    split; [now rewrite !length_insert|].
    assert (Hread : forall i,
      colorAt i (<[idx n 2 := vz color * brightness
                     (sqrt (getVel n 0 s * getVel n 0 s + getVel n 1 s * getVel n 1 s
                            + getVel n 2 s * getVel n 2 s))]>
                 (<[idx n 1 := vy color * brightness
                     (sqrt (getVel n 0 s * getVel n 0 s + getVel n 1 s * getVel n 1 s
                            + getVel n 2 s * getVel n 2 s))]>
                  (<[idx n 0 := vx color * brightness
                     (sqrt (getVel n 0 s * getVel n 0 s + getVel n 1 s * getVel n 1 s
                            + getVel n 2 s * getVel n 2 s))]> cs)))
      = if decide (i = n) then colorOf color s n else colorAt i cs).
    { intros i. unfold colorAt. destruct (decide (i = n)) as [->|Hne].
      - unfold colorOf, Vec.multiplyScalar, Vec.length, particle. cbn [vel vx vy vz].
        apply Vector3_eq; cbn [vx vy vz].
        + rewrite !list_lookup_total_insert_ne by (unfold idx; lia).
          apply list_lookup_total_insert_eq. rewrite Hl, Hlen. unfold idx. lia.
        + rewrite list_lookup_total_insert_ne by (unfold idx; lia).
          apply list_lookup_total_insert_eq. rewrite length_insert, Hl, Hlen.
          unfold idx. lia.
        + apply list_lookup_total_insert_eq. rewrite !length_insert, Hl, Hlen.
          unfold idx. lia.
      - apply Vector3_eq; cbn [vx vy vz];
          rewrite !list_lookup_total_insert_ne by (unfold idx; lia); reflexivity. }
    split; intros i Hi; rewrite Hread; destruct (decide (i = n)) as [->|Hne];
      try reflexivity; try lia.
    + apply Hlo. lia.
    + apply Hhi. lia.
Qed.

(** X27.  On a colour array of the size of the position array,
    [updateColors] gives every particle the base colour multiplied by a
    brightness that depends on its speed alone, lies between 0.6 and 1,
    and is 1 from speed 10 on; the array keeps its size. *)
Theorem updateColors_brightness_between_0_6_and_1
    (color : Vector3) (s : ParticleSystem) (colors : list R) (i : nat) :
  length colors = (numParticles s * 3)%nat ->
  (i < numParticles s)%nat ->
  let speed := Vec.length (vel (particle i s)) in
  length (updateColors color s colors) = length colors
  /\ colorAt i (updateColors color s colors)
     = Vec.multiplyScalar color (brightness speed)
  /\ 6 / 10 <= brightness speed <= 1
  /\ (10 <= speed -> brightness speed = 1).
Proof.
  intros Hlen Hi speed.
  destruct (updateColors_prefix color s (numParticles s) colors Hlen (le_n _))
    as (Hl & Hlo & _).
  split; [exact Hl|]. split; [exact (Hlo i Hi)|].
  split; [apply brightness_range, norm_nonneg|].
  intros Hfast. unfold brightness. cbv zeta. rewrite Rmin_right by lra. lra.
Qed.

Lemma updateColors_brightness_between_0_6_and_1_witness :
  colorAt 1 (updateColors (mkVector3 1 1 1) (particleSystem sparseWorld)
               [0; 0; 0; 0; 0; 0])
  = Vec.multiplyScalar (mkVector3 1 1 1)
      (brightness (Vec.length (vel (particle 1 (particleSystem sparseWorld))))).
Proof.
  apply (updateColors_brightness_between_0_6_and_1 (mkVector3 1 1 1)
           (particleSystem sparseWorld) [0; 0; 0; 0; 0; 0] 1).
  - reflexivity.
  - cbn. lia.
Defined.

Lemma jsRound_near (x : R) : Rabs (jsRound x - x) <= 1 / 2.
Proof.
  unfold jsRound. destruct (base_Int_part (x + 1 / 2)) as [H1 H2].
  apply Rabs_le. lra.
Qed.

Lemma snapTarget_near (t : R) : Rabs (snapTarget t - t) <= PI / 4.
Proof.
  unfold snapTarget, snapAngle. pose proof PI_RGT_0 as HPI.
  pose proof (jsRound_near (t / (PI / 2))) as H.
  replace (jsRound (t / (PI / 2)) * (PI / 2) - t)
    with ((jsRound (t / (PI / 2)) - t / (PI / 2)) * (PI / 2)) by (field; lra).
  rewrite Rabs_mult, (Rabs_pos_eq (PI / 2)) by lra.
  pose proof (Rabs_pos (jsRound (t / (PI / 2)) - t / (PI / 2))). nra.
Qed.

(** The target is a whole number of right angles. *)
Lemma snapTarget_right_angles (t : R) :
  exists n : Z, snapTarget t = IZR n * (PI / 2).
Proof. exists (Int_part (t / snapAngle + 1 / 2)). reflexivity. Qed.

Lemma totalRotation_land t f b : totalRotation (land t f b) = totalRotation b.
Proof. unfold land. cbv zeta. destruct (_ >? _); reflexivity. Qed.

(** X28.  A cylinder-like body that touches the floor while moving slowly
    is turned towards the nearest multiple of a right angle about the x
    and the z axis: each target is a whole number of right angles and at
    most 45 degrees away, one step closes a tenth of the gap, and the
    rotation about the y axis is kept. *)
Theorem slow_cylinder_turns_towards_a_right_angle
    (r : R) (lo : Vector3) (b : RigidBody) :
  vy (position b) - r < vy lo ->
  isMovingSlowly (land (3 / 10) (85 / 100) (setPositionY (vy lo + r) b)) = true ->
  let b' := floorCylinder r lo b in
  let tx := ex (totalRotation b) in
  let tz := ez (totalRotation b) in
  (exists nx nz : Z,
      snapTarget tx = IZR nx * (PI / 2) /\ snapTarget tz = IZR nz * (PI / 2))
  /\ Rabs (snapTarget tx - tx) <= PI / 4
  /\ Rabs (snapTarget tz - tz) <= PI / 4
  /\ snapTarget tx - ex (totalRotation b') = 9 / 10 * (snapTarget tx - tx)
  /\ snapTarget tz - ez (totalRotation b') = 9 / 10 * (snapTarget tz - tz)
  /\ ey (totalRotation b') = ey (totalRotation b).
Proof.
  intros Hc Hslow b' tx tz.
  split.
  { destruct (snapTarget_right_angles tx) as [nx Hx].
    destruct (snapTarget_right_angles tz) as [nz Hz]. now exists nx, nz. }
  split; [apply snapTarget_near|]. split; [apply snapTarget_near|].
  unfold b', floorCylinder. cbv zeta.
  rewrite (proj2 (Rltb_true _ _) Hc), Hslow.
  set (b1 := land _ _ _) in *.
  assert (Ht : totalRotation b1 = totalRotation b)
    by (unfold b1; now rewrite totalRotation_land).
  assert (Hr : rotationX b1 = rotationX b /\ rotationY b1 = rotationY b
               /\ rotationZ b1 = rotationZ b).
  { destruct (land_same_build (3 / 10) (85 / 100) (setPositionY (vy lo + r) b))
      as (_ & _ & _ & _ & Hx & Hy & Hz & _).
    fold b1 in Hx, Hy, Hz. cbn in Hx, Hy, Hz. auto. }
  destruct Hr as (Hx & Hy & Hz).
  rewrite Ht. fold tx tz.
  unfold totalRotation at 1 2 3.
  cbn [ex ey ez physicalRotation rotationX rotationY rotationZ scaleAngular
         setAngularVelocity setPhysicalRotation].
  rewrite Hx, Hy, Hz.
  assert (Ex : tx = rotationX b * PI / 180 + ex (physicalRotation b1)).
  { unfold tx. rewrite <- Ht. unfold totalRotation. cbn [ex]. now rewrite Hx. }
  assert (Ez : tz = rotationZ b * PI / 180 + ez (physicalRotation b1)).
  { unfold tz. rewrite <- Ht. unfold totalRotation. cbn [ez]. now rewrite Hz. }
  assert (Ey : ey (totalRotation b)
               = rotationY b * PI / 180 + ey (physicalRotation b1)).
  { rewrite <- Ht. unfold totalRotation. cbn [ey]. now rewrite Hy. }
  unfold alignSpeed. repeat split; lra.
Qed.

Lemma slow_cylinder_turns_towards_a_right_angle_witness :
  ey (totalRotation (floorCylinder (6 / 10) (mkVector3 (-8) (-5) (-8)) sunkCylinder))
  = ey (totalRotation sunkCylinder).
Proof.
  apply (slow_cylinder_turns_towards_a_right_angle (6 / 10)
           (mkVector3 (-8) (-5) (-8)) sunkCylinder).
  - cbn. lra.
  - assert (Hz : forall x, x = 0 -> sqrt x < 5 / 10)
      by (intros x ->; rewrite sqrt_0; lra).
    assert (Hz1 : forall x, x = 0 -> Rabs (sqrt x) < 1)
      by (intros x ->; rewrite sqrt_0, Rabs_R0; lra).
    unfold isMovingSlowly, land. cbv zeta.
    destruct (_ >? _); apply andb_true_intro; split; apply Rltb_true;
      unfold Vec.length; first [apply Hz | apply Hz1]; cbn; lra.
Defined.

(** X29.  A box that touches the floor while moving slowly is turned
    towards the nearest multiple of a right angle about all three axes,
    a tenth of the gap per step, each target being a whole number of right
    angles and at most 45 degrees away; the floor test is then repeated
    for the new orientation, so that the body ends no lower than its
    lowest corner allows. *)
Theorem slow_box_turns_towards_a_right_angle
    (applyEuler : Euler -> Vector3 -> Vector3) (e lo : Vector3) (b : RigidBody) :
  vy (position b) - vy e < vy lo ->
  isMovingSlowly (land (5 / 10) (7 / 10) (setPositionY (vy lo + vy e) b)) = true ->
  let b' := floorBox applyEuler e lo b in
  let tx := ex (totalRotation b) in
  let ty := ey (totalRotation b) in
  let tz := ez (totalRotation b) in
  (exists nx ny nz : Z,
      snapTarget tx = IZR nx * (PI / 2) /\ snapTarget ty = IZR ny * (PI / 2)
      /\ snapTarget tz = IZR nz * (PI / 2))
  /\ (Rabs (snapTarget tx - tx) <= PI / 4 /\ Rabs (snapTarget ty - ty) <= PI / 4
      /\ Rabs (snapTarget tz - tz) <= PI / 4)
  /\ snapTarget tx - ex (totalRotation b') = 9 / 10 * (snapTarget tx - tx)
  /\ snapTarget ty - ey (totalRotation b') = 9 / 10 * (snapTarget ty - ty)
  /\ snapTarget tz - ez (totalRotation b') = 9 / 10 * (snapTarget tz - tz)
  /\ vy lo <= vy (position b') - Rabs (minOver vy (rotatedCorners applyEuler b')).
Proof.
  intros Hc Hslow b' tx ty tz.
  split.
  { destruct (snapTarget_right_angles tx) as [nx Hx].
    destruct (snapTarget_right_angles ty) as [ny Hy].
    destruct (snapTarget_right_angles tz) as [nz Hz]. now exists nx, ny, nz. }
  split; [repeat split; apply snapTarget_near|].
  unfold b', floorBox. cbv zeta.
  rewrite (proj2 (Rltb_true _ _) Hc), Hslow.
  set (b1 := land _ _ _) in *.
  assert (Ht : totalRotation b1 = totalRotation b)
    by (unfold b1; now rewrite totalRotation_land).
  assert (Hr : rotationX b1 = rotationX b /\ rotationY b1 = rotationY b
               /\ rotationZ b1 = rotationZ b).
  { destruct (land_same_build (5 / 10) (7 / 10) (setPositionY (vy lo + vy e) b))
      as (_ & _ & _ & _ & Hx & Hy & Hz & _).
    fold b1 in Hx, Hy, Hz. cbn in Hx, Hy, Hz. auto. }
  destruct Hr as (Hx & Hy & Hz).
  rewrite Ht. fold tx ty tz.
  set (b2 := scaleAngular (5 / 10) _).
  assert (Ex : tx = rotationX b * PI / 180 + ex (physicalRotation b1)).
  { unfold tx. rewrite <- Ht. unfold totalRotation. cbn [ex]. now rewrite Hx. }
  assert (Ey : ty = rotationY b * PI / 180 + ey (physicalRotation b1)).
  { unfold ty. rewrite <- Ht. unfold totalRotation. cbn [ey]. now rewrite Hy. }
  assert (Ez : tz = rotationZ b * PI / 180 + ez (physicalRotation b1)).
  { unfold tz. rewrite <- Ht. unfold totalRotation. cbn [ez]. now rewrite Hz. }
  assert (H2 : snapTarget tx - ex (totalRotation b2) = 9 / 10 * (snapTarget tx - tx)
               /\ snapTarget ty - ey (totalRotation b2)
                  = 9 / 10 * (snapTarget ty - ty)
               /\ snapTarget tz - ez (totalRotation b2)
                  = 9 / 10 * (snapTarget tz - tz)).
  { unfold b2, totalRotation.
    cbn [ex ey ez physicalRotation rotationX rotationY rotationZ scaleAngular
           setAngularVelocity setPhysicalRotation].
    rewrite Hx, Hy, Hz. unfold alignSpeed. repeat split; lra. }
  destruct H2 as (H2x & H2y & H2z).
  set (m := Rabs (minOver vy (rotatedCorners applyEuler b2))).
  destruct (vy (position b2) - m <? vy lo) eqn:E;
    [apply Rltb_true in E | apply Rltb_false in E].
  - change (totalRotation (setPositionY (vy lo + m) b2)) with (totalRotation b2).
    change (rotatedCorners applyEuler (setPositionY (vy lo + m) b2))
      with (rotatedCorners applyEuler b2).
    fold m. cbn [position setPositionY setPosition setY vy].
    repeat split; try assumption; lra.
  - fold m. repeat split; try assumption; lra.
Qed.

Lemma slow_box_turns_towards_a_right_angle_witness :
  snapTarget (ey (totalRotation sunkCube))
  - ey (totalRotation
          (floorBox noRotation (mkVector3 (75 / 100) (75 / 100) (75 / 100))
             (mkVector3 (-8) (-5) (-8)) sunkCube))
  = 9 / 10 * (snapTarget (ey (totalRotation sunkCube))
              - ey (totalRotation sunkCube)).
Proof.
  apply (slow_box_turns_towards_a_right_angle noRotation
           (mkVector3 (75 / 100) (75 / 100) (75 / 100))
           (mkVector3 (-8) (-5) (-8)) sunkCube).
  - cbn. lra.
  - assert (Hz : forall x, x = 0 -> sqrt x < 5 / 10)
      by (intros x ->; rewrite sqrt_0; lra).
    assert (Hz1 : forall x, x = 0 -> Rabs (sqrt x) < 1)
      by (intros x ->; rewrite sqrt_0, Rabs_R0; lra).
    unfold isMovingSlowly, land. cbv zeta.
    destruct (_ >? _); apply andb_true_intro; split; apply Rltb_true;
      unfold Vec.length; first [apply Hz | apply Hz1]; cbn; lra.
Defined.

(** The callbacks of [checkObjectCollisions] called on the body at [self]
    pair that body with every other one and with no other pair. *)
Lemma checkObjectCollisions_self_clear self (bodies : list RigidBody) this :
  bodies !! self = Some this ->
  (forall k other, k <> self -> bodies !! k = Some other ->
                   notInContact this other) ->
  checkObjectCollisions self bodies = bodies.
Proof.
  intros Hs Hfree. unfold checkObjectCollisions.
  apply (forRange_invariant (fun l => l = bodies)); [|reflexivity].
  intros k l _ ->. unfold collideWith.
  destruct (Nat.eqb_spec k self) as [->|Hk]; [reflexivity|].
  rewrite Hs.
  destruct (bodies !! k) as [other|] eqn:Ho; [|reflexivity].
  assert (Hp : collidePair this other = (this, other)).
  { destruct (Hfree k other Hk Ho) as [Hc|Hc].
    - now apply collidePair_too_close.
    - now apply collidePair_apart. }
  rewrite Hp. rewrite (list_insert_id bodies self this Hs).
  now apply list_insert_id.
Qed.

(** X30.  A body of non-zero density that, once moved, is in contact with
    no other body and keeps its half-extent away from the six walls goes
    through [update] in free flight: buoyancy, drag, the move and the spin
    are all that happens to it, and every other body of the list is left
    as it is, whether or not those bodies touch one another. *)
Theorem update_is_free_flight_away_from_contact
    (applyEuler : Euler -> Vector3 -> Vector3) (self : nat)
    (dt gravity damping fluidDensity : R) (lo hi : Vector3)
    (bodies : list RigidBody) (b : RigidBody) :
  bodies !! self = Some b ->
  density b <> 0 ->
  let moved := moveBody dt (applyDrag dt fluidDensity
                              (applyBuoyancy dt gravity fluidDensity b)) in
  let b' := freeFlight dt gravity fluidDensity b in
  let e := halfExtent applyEuler b' in
  (forall k other, k <> self -> bodies !! k = Some other ->
                   notInContact moved other) ->
  vx lo <= vx (position b') - vx e -> vx (position b') + vx e <= vx hi ->
  vy lo <= vy (position b') - vy e -> vy (position b') + vy e <= vy hi ->
  vz lo <= vz (position b') - vz e -> vz (position b') + vz e <= vz hi ->
  update applyEuler self dt gravity lo hi damping fluidDensity bodies
  = <[self := b']> bodies.
Proof.
  intros Hb _ moved b' e Hfree Hx1 Hx2 Hy1 Hy2 Hz1 Hz2.
  unfold update. cbv zeta.
  assert (H1 : alter (fun b0 => moveBody dt (applyDrag dt fluidDensity
                        (applyBuoyancy dt gravity fluidDensity b0))) self bodies
               = <[self := moved]> bodies).
  { apply list_eq. intros k. destruct (decide (k = self)) as [->|Hne].
    - rewrite list_lookup_alter_eq, Hb.
      rewrite list_lookup_insert_eq by (eapply lookup_lt_Some, Hb). reflexivity.
    - rewrite list_lookup_alter_ne, list_lookup_insert_ne by congruence.
      reflexivity. }
  rewrite H1.
  rewrite (checkObjectCollisions_self_clear self _ moved).
  - apply list_eq. intros k. destruct (decide (k = self)) as [->|Hne].
    + rewrite list_lookup_alter_eq.
      rewrite !list_lookup_insert_eq by (eapply lookup_lt_Some, Hb).
      cbn. f_equal.
      apply (boundaryHandling_clear applyEuler lo hi (spin dt moved)); assumption.
    + rewrite list_lookup_alter_ne, !list_lookup_insert_ne by congruence.
      reflexivity.
  - apply list_lookup_insert_eq. eapply lookup_lt_Some, Hb.
  - intros k other Hk Ho. rewrite list_lookup_insert_ne in Ho by congruence.
    now apply (Hfree k).
Qed.

(** The first sphere falls freely beside two spheres that overlap each
    other. *)
Lemma update_is_free_flight_away_from_contact_witness :
  update noRotation 0 (3 / 1000) (- (98 / 10)) (mkVector3 (-8) (-5) (-8))
    (mkVector3 8 12 8) (6 / 10) 1000
    [droppedSphere (mkVector3 0 10 0); droppedSphere (mkVector3 5 10 0);
     droppedSphere (mkVector3 (55 / 10) 10 0)]
  = [freeFlight (3 / 1000) (- (98 / 10)) 1000 (droppedSphere (mkVector3 0 10 0));
     droppedSphere (mkVector3 5 10 0); droppedSphere (mkVector3 (55 / 10) 10 0)].
Proof.
  apply (update_is_free_flight_away_from_contact noRotation 0 (3 / 1000)
           (- (98 / 10)) (6 / 10) 1000 (mkVector3 (-8) (-5) (-8))
           (mkVector3 8 12 8)
           [droppedSphere (mkVector3 0 10 0); droppedSphere (mkVector3 5 10 0);
            droppedSphere (mkVector3 (55 / 10) 10 0)]
           (droppedSphere (mkVector3 0 10 0)));
    try reflexivity.
  - cbn. lra.
  - intros [|[|[|k]]] other Hk Ho; try congruence; try discriminate;
      injection Ho as <-; right;
      (eapply Rle_trans; [|apply abs_le_norm_x]);
      cbn; rewrite Rabs_left by lra; lra.
  - cbn. unfold Rmin. destruct (Rle_dec _ _); lra.
  - cbn. unfold Rmin. destruct (Rle_dec _ _); lra.
  - cbn. unfold Rmin. destruct (Rle_dec _ _); lra.
  - cbn. unfold Rmin. destruct (Rle_dec _ _); lra.
  - cbn. unfold Rmin. destruct (Rle_dec _ _); lra.
  - cbn. unfold Rmin. destruct (Rle_dec _ _); lra.
Defined.
